(** * monolithic_hybrid_compare.py: ACL chains, the two encodings and
      the scoped query protocol

    A shallow embedding of [Appendix B/monolithic_hybrid_compare.py].
    Python integers are [Z]; JSON objects are records whose optional
    keys are [option] fields; Python dictionaries are association lists
    in insertion order; Python exceptions are the [Err] side of
    [result]; Z3 expressions are a small sorted syntax with a
    denotation; the Z3 solver is a value with a base assertion list and
    a stack of scopes, and its [check] is a function of the assertions
    it holds.

    The interpreter is CPython with its default settings: an integer
    is written or read in decimal with at most 4300 digits.  Its limit
    on the depth of calls is not modelled; the statements it matters
    for are made for chains of at most [max_chain] rules. *)

From Stdlib Require Import ZArith List String Ascii Bool Lia Permutation Sorted.
From Stdlib Require Import Classical_Prop ClassicalDescription.
Import ListNotations.
Open Scope string_scope.
Open Scope Z_scope.
Open Scope list_scope.

Set Warnings "-register-all".

(** ** Python exceptions and fallible results *)

Inductive exn : Type :=
| KeyError (key : string)
| ValueError
| AddressValueError
| Z3Exception.

Inductive result (A : Type) : Type :=
| Ok (a : A)
| Err (e : exn).

Arguments Ok {A} a.
Arguments Err {A} e.

Definition bind {A B : Type} (r : result A) (k : A -> result B) : result B :=
  match r with
  | Ok a => k a
  | Err e => Err e
  end.

Notation "x <- r ;; k" := (bind r (fun x => k))
  (at level 61, r at next level, right associativity).
Notation "' p <- r ;; k" := (bind r (fun p => k))
  (at level 61, p pattern, r at next level, right associativity).

(** ** Python strings

    A string is its UTF-8 encoding: a character below 128 is one
    [ascii], any other is two to four of them. *)

Module PyStr.

(** [c in s] for a one-character [c]. *)
Fixpoint contains (c : ascii) (s : string) : bool :=
  match s with
  | EmptyString => false
  | String a s' => Ascii.eqb a c || contains c s'
  end.

(** [s.split(c)]: never the empty list. *)
Fixpoint split (c : ascii) (s : string) : list string :=
  match s with
  | EmptyString => [EmptyString]
  | String a s' =>
      if Ascii.eqb a c then EmptyString :: split c s'
      else match split c s' with
           | hd :: tl => String a hd :: tl
           | [] => [String a EmptyString]
           end
  end.

(** [s.replace(c, d)] for one-character [c] and [d]. *)
Fixpoint replace (c d : ascii) (s : string) : string :=
  match s with
  | EmptyString => EmptyString
  | String a s' => String (if Ascii.eqb a c then d else a) (replace c d s')
  end.

Definition is_digit (a : ascii) : bool :=
  let n := Z.of_nat (nat_of_ascii a) in (48 <=? n) && (n <=? 57).

Definition digit_val (a : ascii) : Z := Z.of_nat (nat_of_ascii a) - 48.

(** The blanks [int] skips at both ends of a text of ASCII characters:
    tab to carriage return and the space.  The separators U+001C to
    U+001F are blanks for [str.isspace] but not for [int]. *)
Definition is_space (a : ascii) : bool :=
  let n := Z.of_nat (nat_of_ascii a) in
  ((9 <=? n) && (n <=? 13)) || (n =? 32).

Fixpoint lstrip (s : string) : string :=
  match s with
  | EmptyString => EmptyString
  | String a s' => if is_space a then lstrip s' else s
  end.

Fixpoint rev_onto (s acc : string) : string :=
  match s with
  | EmptyString => acc
  | String a s' => rev_onto s' (String a acc)
  end.

Definition strip (s : string) : string :=
  rev_onto (lstrip (rev_onto (lstrip s) EmptyString)) EmptyString.

(** The value of a run of decimal digits, most significant first. *)
Fixpoint digits (acc : Z) (s : string) : option Z :=
  match s with
  | EmptyString => Some acc
  | String a s' =>
      if is_digit a then digits (10 * acc + digit_val a) s' else None
  end.

(** Digits with single underscores between them, as [int] accepts. *)
Fixpoint int_body (acc : Z) (after_us : bool) (s : string) : option Z :=
  match s with
  | EmptyString => if after_us then None else Some acc
  | String a s' =>
      if is_digit a then int_body (10 * acc + digit_val a) false s'
      else if Ascii.eqb a "_"%char
           then (if after_us then None else int_body acc true s')
           else None
  end.

(** The number of digits in a string. *)
Fixpoint count_digits (s : string) : Z :=
  match s with
  | EmptyString => 0
  | String a s' => (if is_digit a then 1 else 0) + count_digits s'
  end.

(** [sys.get_int_max_str_digits()] as CPython sets it: a conversion
    between [int] and [str] of more digits raises [ValueError]. *)
Definition int_max_str_digits : Z := 4300.

Definition unsigned_int (s : string) : result Z :=
  match s with
  | String a _ =>
      if is_digit a
      then match int_body 0 false s with
           | Some n =>
               if int_max_str_digits <? count_digits s then Err ValueError
               else Ok n
           | None => Err ValueError
           end
      else Err ValueError
  | EmptyString => Err ValueError
  end.

(** [int] of a text of ASCII characters, base 10. *)
Definition ascii_int (s : string) : result Z :=
  match strip s with
  | String "-"%char r => n <- unsigned_int r ;; Ok (- n)
  | String "+"%char r => unsigned_int r
  | t => unsigned_int t
  end.

(** The characters that are a zero in some script (Unicode 14, the
    table of CPython 3.11): each is followed by the digits one to nine
    of its script. *)
Definition decimal_zeros : list Z :=
  [48; 1632; 1776; 1984; 2406; 2534; 2662; 2790; 2918; 3046; 3174;
   3302; 3430; 3558; 3664; 3792; 3872; 4160; 4240; 6112; 6160; 6470;
   6608; 6784; 6800; 6992; 7088; 7232; 7248; 42528; 43216; 43264;
   43472; 43504; 43600; 44016; 65296; 66720; 68912; 69734; 69872;
   69942; 70096; 70384; 70736; 70864; 71248; 71360; 71472; 71904;
   72016; 72784; 73040; 73120; 92768; 92864; 93008; 120782; 120792;
   120802; 120812; 120822; 123200; 123632; 125264; 130032].

(** [unicodedata.decimal] of a character. *)
Definition to_decimal (cp : Z) : option Z :=
  option_map (fun zero => cp - zero)
    (find (fun zero => (zero <=? cp) && (cp <=? zero + 9)) decimal_zeros).

(** The blanks above U+007F. *)
Definition is_blank (cp : Z) : bool :=
  (cp =? 133) || (cp =? 160) || (cp =? 5760)
  || ((8192 <=? cp) && (cp <=? 8202))
  || (cp =? 8232) || (cp =? 8233) || (cp =? 8239) || (cp =? 8287)
  || (cp =? 12288).

(** What [int] reads in place of a character above U+007E: a space
    for a blank, the ASCII digit for a decimal digit, and nothing it
    can read for any other. *)
Definition ascii_char (cp : Z) : option ascii :=
  if is_blank cp then Some " "%char
  else option_map (fun d => ascii_of_nat (Z.to_nat (48 + d))) (to_decimal cp).

Definition code (a : ascii) : Z := Z.of_nat (nat_of_ascii a).

(** The six bits a byte contributes after the first byte of its
    character. *)
Definition continuation (a : ascii) : option Z :=
  let b := code a in
  if (128 <=? b) && (b <? 192) then Some (b - 128) else None.

(** A code point written in the number of bytes that gave it: not
    below [least], not a surrogate, not above U+10FFFF. *)
Definition scalar (least cp : Z) : bool :=
  (least <=? cp) && (cp <=? 1114111)
  && negb ((55296 <=? cp) && (cp <=? 57343)).

Definition emit (least cp : Z) (rest : option string) : option string :=
  if scalar least cp
  then match ascii_char cp, rest with
       | Some c, Some t => Some (String c t)
       | _, _ => None
       end
  else None.

(** The text [int] reads for a string: its blanks and decimal digits
    of any script as ASCII ones; [None] when a character stands for
    neither. *)
Fixpoint ascii_form (s : string) : option string :=
  match s with
  | EmptyString => Some EmptyString
  | String a s1 =>
      let b := code a in
      if b <? 127 then option_map (String a) (ascii_form s1)
      else if b <? 194 then None
      else if b <? 224 then
        match s1 with
        | String a1 s2 =>
            match continuation a1 with
            | Some c1 => emit 128 ((b - 192) * 64 + c1) (ascii_form s2)
            | None => None
            end
        | _ => None
        end
      else if b <? 240 then
        match s1 with
        | String a1 (String a2 s3) =>
            match continuation a1, continuation a2 with
            | Some c1, Some c2 =>
                emit 2048 (((b - 224) * 64 + c1) * 64 + c2) (ascii_form s3)
            | _, _ => None
            end
        | _ => None
        end
      else if b <? 245 then
        match s1 with
        | String a1 (String a2 (String a3 s4)) =>
            match continuation a1, continuation a2, continuation a3 with
            | Some c1, Some c2, Some c3 =>
                emit 65536 ((((b - 240) * 64 + c1) * 64 + c2) * 64 + c3)
                  (ascii_form s4)
            | _, _, _ => None
            end
        | _ => None
        end
      else None
  end.

(** [int(s)] for a string [s], base 10. *)
Definition int (s : string) : result Z :=
  match ascii_form s with
  | Some t => ascii_int t
  | None => Err ValueError
  end.

(** The smallest integer [str] does not write: it has one digit more
    than [int_max_str_digits]. *)
Definition str_limit : Z := Eval vm_compute in 10 ^ 4300.

(** [str(n)] succeeds. *)
Definition writable (n : Z) : bool := Z.abs n <? str_limit.

End PyStr.

(** ** Python dictionaries: association lists in insertion order *)

Module Dict.

Definition t (V : Type) : Type := list (string * V).

Fixpoint get {V : Type} (d : t V) (k : string) : option V :=
  match d with
  | [] => None
  | (k', v) :: d' => if String.eqb k' k then Some v else get d' k
  end.

(** [d[k] = v]: an existing key keeps its place, a new one goes last. *)
Fixpoint set {V : Type} (d : t V) (k : string) (v : V) : t V :=
  match d with
  | [] => [(k, v)]
  | (k', v') :: d' =>
      if String.eqb k' k then (k', v) :: d' else (k', v') :: set d' k v
  end.

(** [k in d]. *)
Definition mem {V : Type} (d : t V) (k : string) : bool :=
  match get d k with Some _ => true | None => false end.

(** [d[k]], raising [KeyError]. *)
Definition lookup {V : Type} (d : t V) (k : string) : result V :=
  match get d k with Some v => Ok v | None => Err (KeyError k) end.

Definition keys {V : Type} (d : t V) : list string := map fst d.

End Dict.

(** ** Helper functions (source lines 26-37) *)

(** One octet of [ipaddress.IPv4Address]: ASCII digits, at most three,
    no leading zero except for ["0"] itself, at most 255. *)
Definition parse_octet (o : string) : result Z :=
  match o with
  | EmptyString => Err AddressValueError
  | String a rest =>
      match PyStr.digits 0 o with
      | None => Err AddressValueError
      | Some n =>
          if (3 <? Z.of_nat (String.length o))
             || (Ascii.eqb a "0"%char && negb (String.eqb rest EmptyString))
             || (255 <? n)
          then Err AddressValueError
          else Ok n
      end
  end.

(** [int(ipaddress.IPv4Address(s))]: exactly four octets, big endian. *)
Definition IPv4Address (s : string) : result Z :=
  match PyStr.split "."%char s with
  | [o1; o2; o3; o4] =>
      a <- parse_octet o1 ;;
      b <- parse_octet o2 ;;
      c <- parse_octet o3 ;;
      d <- parse_octet o4 ;;
      Ok (((a * 256 + b) * 256 + c) * 256 + d)
  | _ => Err AddressValueError
  end.

Definition ip_str_to_int (ip_str : string) : result Z :=
  let ip_str :=
    if PyStr.contains "/"%char ip_str
    then hd EmptyString (PyStr.split "/"%char ip_str)
    else ip_str in
  IPv4Address ip_str.

(** A negative shift count raises [ValueError]; Python integers do not
    wrap, so the mask is cut to 32 bits by the explicit [&]. *)
Definition get_ip_interval (prefix_str : string) (mask_len : Z)
  : result (Z * Z) :=
  ip_int <- ip_str_to_int prefix_str ;;
  if 32 - mask_len <? 0 then Err ValueError
  else
    let mask_bit := Z.land (Z.shiftl 4294967295 (32 - mask_len)) 4294967295 in
    let start_ip := Z.land ip_int mask_bit in
    let size := Z.shiftl 1 (32 - mask_len) in
    let end_ip := start_ip + size - 1 in
    Ok (start_ip, end_ip).

(** ** Z3 expressions (source lines 11-20)

    Three sorts carry terms: [Router] and [RT] are uninterpreted and
    only have constants, [IPSort] is [IntSort()].  Everything else is a
    Boolean expression: the connectives the program builds and the four
    uninterpreted predicates it declares. *)

Inductive router_term : Type :=
| RouterConst (name : string).

Inductive rt_term : Type :=
| RTConst (name : string).

Inductive int_term : Type :=
| Int (name : string)
| IntVal (z : Z).

Inductive bexpr : Type :=
| BoolVal (b : bool)
| And (args : list bexpr)
| Not (e : bexpr)
| If (c t e : bexpr)
| Ge (a b : int_term)
| Le (a b : int_term)
| IntEq (a b : int_term)
| BoolEq (a b : bexpr)
| DistinctRouter (rs : list router_term)
| DistinctRT (ts : list rt_term)
| Ibgp_Neighbor (r1 r2 : router_term)
| Has_Import_RT (r : router_term) (t : rt_term)
| Has_Export_RT (r : router_term) (t : rt_term)
| Is_Prefix_Denied_Global (r : router_term) (a : int_term)
| ForAll (vars : list string) (body : bexpr).

Definition router_name (r : router_term) : string :=
  match r with RouterConst n => n end.

Definition rt_name (t : rt_term) : string :=
  match t with RTConst n => n end.

(** z3py hands the name of a constant to Z3 as a C string, which ends
    before its first NUL character: two names that agree up to there
    are one symbol. *)
Fixpoint z3_symbol (name : string) : string :=
  match name with
  | EmptyString => EmptyString
  | String a name' =>
      if Ascii.eqb a zero then EmptyString else String a (z3_symbol name')
  end.

(** [Const(name, RouterSort)] and [Const(name, RTSort)]. *)
Definition router_const (name : string) : router_term :=
  RouterConst (z3_symbol name).

Definition rt_sort_const (name : string) : rt_term :=
  RTConst (z3_symbol name).

(** A Python integer compared with a Z3 integer becomes a numeral;
    z3py passes it to Z3 as its decimal text, [str(val)]. *)
Definition int_numeral (val : Z) : result int_term :=
  if PyStr.writable val then Ok (IntVal val) else Err ValueError.

(** Structural induction that also reaches the arguments of [And]. *)
Section BexprInd.
Variable P : bexpr -> Prop.
Hypothesis HBoolVal : forall b, P (BoolVal b).
Hypothesis HAnd : forall args, Forall P args -> P (And args).
Hypothesis HNot : forall e, P e -> P (Not e).
Hypothesis HIf : forall c t e, P c -> P t -> P e -> P (If c t e).
Hypothesis HGe : forall a b, P (Ge a b).
Hypothesis HLe : forall a b, P (Le a b).
Hypothesis HIntEq : forall a b, P (IntEq a b).
Hypothesis HBoolEq : forall a b, P a -> P b -> P (BoolEq a b).
Hypothesis HDistinctRouter : forall rs, P (DistinctRouter rs).
Hypothesis HDistinctRT : forall ts, P (DistinctRT ts).
Hypothesis HIbgp : forall r1 r2, P (Ibgp_Neighbor r1 r2).
Hypothesis HImport : forall r t, P (Has_Import_RT r t).
Hypothesis HExport : forall r t, P (Has_Export_RT r t).
Hypothesis HDenied : forall r a, P (Is_Prefix_Denied_Global r a).
Hypothesis HForAll : forall vars body, P body -> P (ForAll vars body).

Fixpoint bexpr_ind_nested (e : bexpr) : P e :=
  match e with
  | BoolVal b => HBoolVal b
  | And args =>
      HAnd args ((fix go (l : list bexpr) : Forall P l :=
               match l with
               | [] => Forall_nil P
               | x :: l' => Forall_cons x (bexpr_ind_nested x) (go l')
               end) args)
  | Not e1 => HNot e1 (bexpr_ind_nested e1)
  | If c t e1 =>
      HIf c t e1 (bexpr_ind_nested c) (bexpr_ind_nested t)
          (bexpr_ind_nested e1)
  | Ge a b => HGe a b
  | Le a b => HLe a b
  | IntEq a b => HIntEq a b
  | BoolEq a b => HBoolEq a b (bexpr_ind_nested a) (bexpr_ind_nested b)
  | DistinctRouter rs => HDistinctRouter rs
  | DistinctRT ts => HDistinctRT ts
  | Ibgp_Neighbor r1 r2 => HIbgp r1 r2
  | Has_Import_RT r t => HImport r t
  | Has_Export_RT r t => HExport r t
  | Is_Prefix_Denied_Global r a => HDenied r a
  | ForAll vars body => HForAll vars body (bexpr_ind_nested body)
  end.
End BexprInd.

(** *** Denotation *)

(** An assignment of the integer constants. *)
Definition int_env : Type := string -> Z.

Definition int_denote (env : int_env) (t : int_term) : Z :=
  match t with
  | Int x => env x
  | IntVal z => z
  end.

Definition bind_var (env : int_env) (x : string) (a : Z) : int_env :=
  fun y => if String.eqb x y then a else env y.

(** [ForAll(vars, body)] ranges over every value of the bound constants:
    [over] gives the values, [env] is kept elsewhere. *)
Definition rebind (env over : int_env) (vars : list string) : int_env :=
  fun y => if existsb (String.eqb y) vars then over y else env y.

(** Evaluation of the arithmetic, quantifier-free expressions: the
    ones a chain compiles to.  An uninterpreted predicate, [Distinct]
    or a quantifier has no value here. *)
Fixpoint eval (env : int_env) (e : bexpr) : option bool :=
  match e with
  | BoolVal b => Some b
  | And args =>
      fold_right (fun x acc =>
                    match eval env x, acc with
                    | Some b, Some c => Some (b && c)
                    | _, _ => None
                    end) (Some true) args
  | Not e1 => option_map negb (eval env e1)
  | If c t e1 =>
      match eval env c, eval env t, eval env e1 with
      | Some bc, Some bt, Some be => Some (if bc then bt else be)
      | _, _, _ => None
      end
  | Ge a b => Some (int_denote env b <=? int_denote env a)
  | Le a b => Some (int_denote env a <=? int_denote env b)
  | IntEq a b => Some (int_denote env a =? int_denote env b)
  | BoolEq a b =>
      match eval env a, eval env b with
      | Some x, Some y => Some (Bool.eqb x y)
      | _, _ => None
      end
  | _ => None
  end.

(** An interpretation of the two uninterpreted sorts, of their
    constants and of the three relations fixed by the base model. *)
Record interp : Type := {
  dom_router : Type;
  dom_rt : Type;
  i_router : string -> dom_router;
  i_rt : string -> dom_rt;
  i_ibgp : dom_router -> dom_router -> Prop;
  i_import : dom_router -> dom_rt -> Prop;
  i_export : dom_router -> dom_rt -> Prop
}.

Definition router_denote (I : interp) (r : router_term) : dom_router I :=
  i_router I (router_name r).

Definition rt_denote (I : interp) (t : rt_term) : dom_rt I :=
  i_rt I (rt_name t).

(** Truth of an expression under an interpretation [I], a reading [D]
    of [Is_Prefix_Denied_Global] and an assignment [env]. *)
Fixpoint holds (I : interp) (D : dom_router I -> Z -> Prop)
         (env : int_env) (e : bexpr) : Prop :=
  match e with
  | BoolVal b => b = true
  | And args => fold_right (fun x acc => holds I D env x /\ acc) True args
  | Not e1 => ~ holds I D env e1
  | If c t e1 =>
      (holds I D env c /\ holds I D env t)
      \/ (~ holds I D env c /\ holds I D env e1)
  | Ge a b => int_denote env b <= int_denote env a
  | Le a b => int_denote env a <= int_denote env b
  | IntEq a b => int_denote env a = int_denote env b
  | BoolEq a b => holds I D env a <-> holds I D env b
  | DistinctRouter rs => NoDup (map (router_denote I) rs)
  | DistinctRT ts => NoDup (map (rt_denote I) ts)
  | Ibgp_Neighbor r1 r2 => i_ibgp I (router_denote I r1) (router_denote I r2)
  | Has_Import_RT r t => i_import I (router_denote I r) (rt_denote I t)
  | Has_Export_RT r t => i_export I (router_denote I r) (rt_denote I t)
  | Is_Prefix_Denied_Global r a => D (router_denote I r) (int_denote env a)
  | ForAll vars body =>
      forall over : int_env, holds I D (rebind env over vars) body
  end.

Definition satisfiable (A : list bexpr) : Prop :=
  exists (I : interp) (D : dom_router I -> Z -> Prop) (env : int_env),
    Forall (holds I D env) A.

Fixpoint quantifier_free (e : bexpr) : bool :=
  match e with
  | And args => forallb quantifier_free args
  | Not e1 => quantifier_free e1
  | If c t e1 => quantifier_free c && quantifier_free t && quantifier_free e1
  | BoolEq a b => quantifier_free a && quantifier_free b
  | ForAll _ _ => false
  | _ => true
  end.

(** No occurrence of [Is_Prefix_Denied_Global]. *)
Fixpoint denied_free (e : bexpr) : bool :=
  match e with
  | And args => forallb denied_free args
  | Not e1 => denied_free e1
  | If c t e1 => denied_free c && denied_free t && denied_free e1
  | BoolEq a b => denied_free a && denied_free b
  | Is_Prefix_Denied_Global _ _ => false
  | ForAll _ body => denied_free body
  | _ => true
  end.

(** ** Configuration data (the parsed JSON)

    The keys the program reads with [d[k]] are fields of the records:
    [nodes], the [id] of a node, the [nodes] of a session,
    [vpn_network_intents] and the [pe_id] of an intent.  The keys it
    reads with [d.get] are [option] fields.  A file that lacks one of
    the former, or holds a value of another JSON type than the field
    has here, is outside these records: the program raises [KeyError]
    or [TypeError] on it. *)

(** The [mask] of a filter is passed to [int]: a JSON number or a
    string of digits. *)
Inductive json_scalar : Type :=
| JInt (z : Z)
| JStr (s : string).

Definition py_int (v : json_scalar) : result Z :=
  match v with
  | JInt z => Ok z
  | JStr s => PyStr.int s
  end.

(** One entry of [import_route_filters]; every key is optional. *)
Record rule : Type := {
  index : option Z;
  prefix : option string;
  mask : option json_scalar;
  action : option string
}.

(** One entry of [vpn_network_intents]. *)
Record intent : Type := {
  pe_id : string;
  export_rt : option (list string);
  import_rt : option (list string);
  import_route_filters : option (list rule)
}.

(** [topo['nodes']] by their ['id'], and
    [topo['bgp_sessions']['ibgp_pe_mesh']] by the ['nodes'] of each
    session, [None] when either key is missing. *)
Record topology : Type := {
  nodes : list string;
  ibgp_pe_mesh : option (list (list string))
}.

Record config : Type := {
  vpn_network_intents : list intent
}.

(** [d.get(k, default)] for an optional key. *)
Definition get_default {A : Type} (field : option A) (default : A) : A :=
  match field with Some v => v | None => default end.

(** ** The chain compiler (source lines 40-58) *)

(** Lines 45-51: the prefix and the mask length of a rule. *)
Definition rule_prefix_mask (r : rule) : result (string * Z) :=
  let raw_prefix := get_default (prefix r) "0.0.0.0" in
  if PyStr.contains "/"%char raw_prefix then
    match PyStr.split "/"%char raw_prefix with
    | [p_str; m_str] => m <- PyStr.int m_str ;; Ok (p_str, m)
    | _ => Err ValueError
    end
  else
    m <- py_int (get_default (mask r) (JInt 32)) ;; Ok (raw_prefix, m).

(** Line 54. *)
Definition action_deny (r : rule) : bool :=
  String.eqb (get_default (action r) "permit") "deny".

(** The recursion is one Python call per rule.  The limit CPython puts
    on the depth of calls is not part of the model: a chain longer than
    the interpreter can recurse through raises [RecursionError] in the
    program. *)
Fixpoint build_acl_logic (ip_var : int_term) (rules : list rule)
  : result bexpr :=
  match rules with
  | [] => Ok (BoolVal false)
  | r :: rest =>
      '(p_str, m) <- rule_prefix_mask r ;;
      '(start, end_) <- get_ip_interval p_str m ;;
      lo <- int_numeral start ;;
      hi <- int_numeral end_ ;;
      let match_cond := And [Ge ip_var lo; Le ip_var hi] in
      tail <- build_acl_logic ip_var rest ;;
      Ok (If match_cond (BoolVal (action_deny r)) tail)
  end.

(** ** The solver

    [base_assertions] are the assertions made outside every scope;
    [scopes] holds, innermost first, the assertions made since each
    [push]. *)

Inductive check_result : Type := sat | unsat | unknown.

Module Solver.

Record t : Type := {
  base_assertions : list bexpr;
  scopes : list (list bexpr)
}.

(** [Solver()]. *)
Definition empty : t := {| base_assertions := []; scopes := [] |}.

(** [s.assertions()]: oldest first. *)
Definition assertions (s : t) : list bexpr :=
  (base_assertions s ++ List.concat (List.rev (scopes s)))%list.

(** [s.add(e)]. *)
Definition add (e : bexpr) (s : t) : t :=
  match scopes s with
  | [] => {| base_assertions := base_assertions s ++ [e]; scopes := [] |}
  | top :: below =>
      {| base_assertions := base_assertions s;
         scopes := (top ++ [e]) :: below |}
  end.

(** [for e in es: s.add(e)]. *)
Definition add_all (es : list bexpr) (s : t) : t :=
  fold_left (fun s e => add e s) es s.

(** [s.push()]. *)
Definition push (s : t) : t :=
  {| base_assertions := base_assertions s; scopes := [] :: scopes s |}.

(** [s.pop()]: an error without an open scope. *)
Definition pop (s : t) : result t :=
  match scopes s with
  | [] => Err Z3Exception
  | _ :: below =>
      Ok {| base_assertions := base_assertions s; scopes := below |}
  end.

(** [s.translate(ctx)]: a copy holding the same assertions and no
    open scope. *)
Definition translate (s : t) : t :=
  {| base_assertions := assertions s; scopes := [] |}.

End Solver.

(** [Distinct] needs one argument at least to find its context. *)
Definition Distinct_routers (rs : list router_term) : result bexpr :=
  match rs with
  | [] => Err Z3Exception
  | _ => Ok (DistinctRouter rs)
  end.

(** ** Base constraint loading (source lines 64-129) *)

Definition router_eqb (a b : router_term) : bool :=
  String.eqb (router_name a) (router_name b).

(** [(u, v) in true_pairs]: Z3 constants are equal when they are the
    same constant. *)
Definition pair_in (p : router_term * router_term)
           (true_pairs : list (router_term * router_term)) : bool :=
  existsb (fun q => router_eqb (fst q) (fst p) && router_eqb (snd q) (snd p))
          true_pairs.

(** [s in strs] for a set or list of strings. *)
Definition str_in (s : string) (strs : list string) : bool :=
  existsb (String.eqb s) strs.

(** [strs.add(s)]; a Python set has no specified iteration order, the
    model iterates in order of first insertion. *)
Definition set_add (strs : list string) (s : string) : list string :=
  if str_in s strs then strs else strs ++ [s].

(** [sorted(l, key=...)] is stable: [x] goes before the first element
    whose key is not smaller. *)
Fixpoint insert_by {A : Type} (key : A -> Z) (x : A) (l : list A) : list A :=
  match l with
  | [] => [x]
  | y :: l' => if key x <=? key y then x :: l else y :: insert_by key x l'
  end.

Definition sorted {A : Type} (key : A -> Z) (l : list A) : list A :=
  fold_right (insert_by key) [] l.

Definition rule_index (r : rule) : Z := get_default (index r) 0.

(** Lines 84-91. *)
Fixpoint collect_true_pairs (r_map : Dict.t router_term)
         (sessions : list (list string))
         (true_pairs : list (router_term * router_term))
  : result (list (router_term * router_term)) :=
  match sessions with
  | [] => Ok true_pairs
  | [n1; n2] :: rest =>
      collect_true_pairs r_map rest
        (match Dict.get r_map n1, Dict.get r_map n2 with
         | Some u, Some v => true_pairs ++ [(u, v); (v, u)]
         | _, _ => true_pairs
         end)
  | _ :: _ => Err ValueError
  end.

(** Lines 93-96. *)
Definition neighbor_constraints (all_routers : list router_term)
           (true_pairs : list (router_term * router_term)) : list bexpr :=
  flat_map (fun r1 =>
     map (fun r2 =>
            BoolEq (Ibgp_Neighbor r1 r2) (BoolVal (pair_in (r1, r2) true_pairs)))
         all_routers)
    all_routers.

(** Lines 103-110: one intent. *)
Definition record_intent
           (st : Dict.t intent * list string * Dict.t (list rule))
           (it : intent) : Dict.t intent * list string * Dict.t (list rule) :=
  let '(pe_conf_map, all_rt_strs, acl_db) := st in
  let pe_conf_map := Dict.set pe_conf_map (pe_id it) it in
  let all_rt_strs := fold_left set_add (get_default (export_rt it) []) all_rt_strs in
  let all_rt_strs := fold_left set_add (get_default (import_rt it) []) all_rt_strs in
  let raw_filters := get_default (import_route_filters it) [] in
  let acl_db := Dict.set acl_db (pe_id it) (sorted rule_index raw_filters) in
  (pe_conf_map, all_rt_strs, acl_db).

(** Line 112; the keys are the elements of a set, hence distinct. *)
Definition rt_const (s : string) : rt_term :=
  rt_sort_const ("rt_" ++ PyStr.replace ":"%char "_"%char s)%string.

Definition make_rt_z3_map (all_rt_strs : list string) : Dict.t rt_term :=
  map (fun s => (s, rt_const s)) all_rt_strs.

(** Lines 116-127: the membership constraints of one router. *)
Definition rt_constraints (pe_conf_map : Dict.t intent)
           (rt_z3_map : Dict.t rt_term) (nid : string) (r_const : router_term)
  : list bexpr :=
  match Dict.get pe_conf_map nid with
  | Some c =>
      let my_im := get_default (import_rt c) [] in
      let my_ex := get_default (export_rt c) [] in
      flat_map (fun '(rt_str, rt_c) =>
                  [BoolEq (Has_Import_RT r_const rt_c) (BoolVal (str_in rt_str my_im));
                   BoolEq (Has_Export_RT r_const rt_c) (BoolVal (str_in rt_str my_ex))])
               rt_z3_map
  | None =>
      flat_map (fun '(_, rt_c) =>
                  [BoolEq (Has_Import_RT r_const rt_c) (BoolVal false);
                   BoolEq (Has_Export_RT r_const rt_c) (BoolVal false)])
               rt_z3_map
  end.

(** Lines 115-127: one router of [r_map.items()]. *)
Definition configure_router (pe_conf_map : Dict.t intent)
           (rt_z3_map : Dict.t rt_term)
           (st : Solver.t * Dict.t (list rule)) (item : string * router_term)
  : Solver.t * Dict.t (list rule) :=
  let '(solver, acl_db) := st in
  let '(nid, r_const) := item in
  let acl_db :=
    match Dict.get pe_conf_map nid with
    | Some _ => acl_db
    | None => Dict.set acl_db nid []
    end in
  (Solver.add_all (rt_constraints pe_conf_map rt_z3_map nid r_const) solver,
   acl_db).

Definition load_base_constraints (topo : topology) (conf : config)
  : result (Solver.t * Dict.t router_term * Dict.t rt_term
            * Dict.t (list rule)) :=
  let solver := Solver.empty in
  (* 1. Topology nodes *)
  let r_map :=
    fold_left (fun m nid => Dict.set m nid (router_const nid)) (nodes topo) [] in
  let all_routers := map router_const (nodes topo) in
  distinct <- Distinct_routers all_routers ;;
  let solver := Solver.add distinct solver in
  (* 2. Neighbor relationships *)
  true_pairs <-
    match ibgp_pe_mesh topo with
    | Some sessions => collect_true_pairs r_map sessions []
    | None => Ok []
    end ;;
  let solver :=
    Solver.add_all (neighbor_constraints all_routers true_pairs) solver in
  (* 3. VPN RT configurations *)
  let '(pe_conf_map, all_rt_strs, acl_db) :=
    fold_left record_intent (vpn_network_intents conf) ([], [], []) in
  let rt_z3_map := make_rt_z3_map all_rt_strs in
  let solver :=
    match rt_z3_map with
    | [] => solver
    | _ => Solver.add (DistinctRT (map snd rt_z3_map)) solver
    end in
  let '(solver, acl_db) :=
    fold_left (configure_router pe_conf_map rt_z3_map) r_map (solver, acl_db) in
  Ok (solver, r_map, rt_z3_map, acl_db).

(** ** The two encodings and their queries (source lines 135-256) *)

Definition rt_val : rt_term := RTConst "rt_val".
Definition target_ip_var : int_term := Int "target_ip_var".
Definition sym_ip : int_term := Int "sym_ip".

(** Lines 141-144 and 208-211: the copy of the base solver with the
    bounds of the target address. *)
Definition fresh_session (base_solver : Solver.t) : Solver.t :=
  let s := Solver.translate base_solver in
  Solver.add (Le target_ip_var (IntVal 4294967295))
    (Solver.add (Ge target_ip_var (IntVal 0)) s).

(** Lines 153-159: one quantified definition per entry of [acl_db]. *)
Fixpoint inject_acls (r_map : Dict.t router_term)
         (items : list (string * list rule)) (s : Solver.t)
  : result Solver.t :=
  match items with
  | [] => Ok s
  | (nid, rules) :: rest =>
      r_const <- Dict.lookup r_map nid ;;
      acl_expr <- build_acl_logic sym_ip rules ;;
      inject_acls r_map rest
        (Solver.add
           (ForAll ["sym_ip"]
              (BoolEq (Is_Prefix_Denied_Global r_const sym_ip) acl_expr)) s)
  end.

(** The solver of Mode A before its first query. *)
Definition monolithic_session (base_solver : Solver.t)
           (r_map : Dict.t router_term) (acl_db : Dict.t (list rule))
  : result Solver.t :=
  inject_acls r_map acl_db (fresh_session base_solver).

(** The solver of Mode B before its first query. *)
Definition hybrid_session (base_solver : Solver.t) : Solver.t :=
  fresh_session base_solver.

(** A query works on the one solver of its run: a computation takes the
    solver and gives it back, changed, with a result or an exception. *)
Definition query (A : Type) : Type := Solver.t -> result A * Solver.t.

Section Queries.

(** [s.check()]: the verdict is the solver's own business; the model
    takes it as a function of the assertions in force. *)
Variable z3_check : list bexpr -> check_result.

Variable r_map : Dict.t router_term.
Variable acl_db : Dict.t (list rule).

(** Lines 166-189.  The Python function prints [res] and returns the
    elapsed time; the model returns [res]. *)
Definition check_mono (src_id dst_id ip_str : string) : query check_result :=
  fun s =>
    let s := Solver.push s in
    match Dict.lookup r_map src_id with
    | Err e => (Err e, s)
    | Ok src =>
    match Dict.lookup r_map dst_id with
    | Err e => (Err e, s)
    | Ok dst =>
    match ip_str_to_int ip_str with
    | Err e => (Err e, s)
    | Ok ip_val =>
        let s := Solver.add (IntEq target_ip_var (IntVal ip_val)) s in
        let can_propagate :=
          And [Ibgp_Neighbor src dst;
               Has_Export_RT src rt_val;
               Has_Import_RT dst rt_val;
               Not (Is_Prefix_Denied_Global dst target_ip_var)] in
        let s := Solver.add can_propagate s in
        let res := z3_check (Solver.assertions s) in
        match Solver.pop s with
        | Err e => (Err e, s)
        | Ok s => (Ok res, s)
        end
    end end end.

(** Lines 217-248. *)
Definition check_hybrid (src_id dst_id ip_str : string)
  : query check_result :=
  fun s =>
    let s := Solver.push s in
    match Dict.lookup r_map src_id with
    | Err e => (Err e, s)
    | Ok src =>
    match Dict.lookup r_map dst_id with
    | Err e => (Err e, s)
    | Ok dst =>
    match ip_str_to_int ip_str with
    | Err e => (Err e, s)
    | Ok ip_val =>
        let s := Solver.add (IntEq target_ip_var (IntVal ip_val)) s in
        let rules := get_default (Dict.get acl_db dst_id) [] in
        match build_acl_logic target_ip_var rules with
        | Err e => (Err e, s)
        | Ok is_denied_expr =>
            let can_propagate :=
              And [Ibgp_Neighbor src dst;
                   Has_Export_RT src rt_val;
                   Has_Import_RT dst rt_val;
                   Not is_denied_expr] in
            let s := Solver.add can_propagate s in
            let res := z3_check (Solver.assertions s) in
            match Solver.pop s with
            | Err e => (Err e, s)
            | Ok s => (Ok res, s)
            end
        end
    end end end.

(** Queries one after the other on the same solver; an exception
    ends the run. *)
Fixpoint run_queries (check : string -> string -> string -> query check_result)
         (qs : list (string * string * string)) : query (list check_result) :=
  fun s =>
    match qs with
    | [] => (Ok [], s)
    | (src_id, dst_id, ip_str) :: rest =>
        match check src_id dst_id ip_str s with
        | (Err e, s) => (Err e, s)
        | (Ok res, s) =>
            match run_queries check rest s with
            | (Err e, s) => (Err e, s)
            | (Ok rs, s) => (Ok (res :: rs), s)
            end
        end
    end.

(** Lines 135-197; the results of the queries stand for the time
    the Python function adds up. *)
Definition run_monolithic_benchmark (base_solver : Solver.t)
  : result (list check_result) :=
  s <- monolithic_session base_solver r_map acl_db ;;
  if Dict.mem r_map "PE1" && Dict.mem r_map "PE2"
  then fst (run_queries check_mono
              [("PE1", "PE2", "192.168.1.1");
               ("PE2", "PE1", "10.0.1.100");
               ("PE2", "PE1", "10.0.99.1")] s)
  else Ok [].

(** Lines 203-256. *)
Definition run_hybrid_benchmark (base_solver : Solver.t)
  : result (list check_result) :=
  let s := hybrid_session base_solver in
  if Dict.mem r_map "PE1" && Dict.mem r_map "PE2"
  then fst (run_queries check_hybrid
              [("PE2", "PE1", "192.168.1.1");
               ("PE2", "PE1", "10.0.10.100");
               ("PE2", "PE1", "10.0.99.1")] s)
  else Ok [].

End Queries.

(** ** The first-match scan of the specification

    A chain as the specification has it: closed intervals with an
    action, [true] for Deny. *)
Record acl_rule : Type := {
  rule_start : Z;
  rule_end : Z;
  rule_deny : bool
}.

Definition matches (a : Z) (r : acl_rule) : bool :=
  (rule_start r <=? a) && (a <=? rule_end r).

(** The first rule whose interval contains the address decides; no
    match means not denied. *)
Fixpoint first_match_scan (chain : list acl_rule) (a : Z) : bool :=
  match chain with
  | [] => false
  | r :: rest => if matches a r then rule_deny r else first_match_scan rest a
  end.

(** The block of the addresses that agree with [ip] on all but their
    last [32 - m] bits. *)
Definition block (ip m : Z) : Z * Z :=
  let size := 2 ^ (32 - m) in
  (size * (ip / size), size * (ip / size) + size - 1).

(** Deny or Permit, as the action field says it. *)
Definition denies (r : rule) : bool :=
  match action r with
  | Some a => String.eqb a "deny"
  | None => false
  end.

(** The value of a text of decimal digits: at least one and at most
    4300 of the characters 0 to 9. *)
Definition decimal (s : string) : option Z :=
  match s with
  | EmptyString => None
  | _ => if Z.of_nat (String.length s) <=? 4300 then PyStr.digits 0 s
         else None
  end.

(** The mask length a rule gives apart from its prefix: its [mask], a
    number or a decimal text, and 32 without one. *)
Definition mask_field (r : rule) (m : Z) : Prop :=
  match mask r with
  | None => m = 32
  | Some (JInt z) => m = z
  | Some (JStr t) => decimal t = Some m
  end.

(** The address and the mask length the fields of a rule stand for:
    - a prefix written [address/length] gives both, whatever the
      [mask] field holds;
    - a prefix without a slash gives the address, the length is that
      of the [mask] field;
    - without a prefix the address is 0.0.0.0. *)
Inductive stands_for (r : rule) : Z -> Z -> Prop :=
| with_slash (addr mtxt : string) (ip m : Z) :
    prefix r = Some (addr ++ String "/" mtxt)%string ->
    PyStr.contains "/" addr = false ->
    PyStr.contains "/" mtxt = false ->
    IPv4Address addr = Ok ip ->
    decimal mtxt = Some m ->
    stands_for r ip m
| without_slash (addr : string) (ip m : Z) :
    prefix r = Some addr ->
    PyStr.contains "/" addr = false ->
    IPv4Address addr = Ok ip ->
    mask_field r m ->
    stands_for r ip m
| without_prefix (m : Z) :
    prefix r = None ->
    mask_field r m ->
    stands_for r 0 m.


(** The interval and action the compiler reads from one rule. *)
Definition resolve_rule (r : rule) : result acl_rule :=
  '(p_str, m) <- rule_prefix_mask r ;;
  '(start, end_) <- get_ip_interval p_str m ;;
  Ok {| rule_start := start; rule_end := end_; rule_deny := action_deny r |}.

Fixpoint resolve_chain (rules : list rule) : result (list acl_rule) :=
  match rules with
  | [] => Ok []
  | r :: rest =>
      x <- resolve_rule r ;;
      xs <- resolve_chain rest ;;
      Ok (x :: xs)
  end.

(** A rule compiles: it resolves, and its upper bound can be
    written. *)
Definition compiles (r : rule) : Prop :=
  exists c, resolve_rule r = Ok c /\ rule_end c < PyStr.str_limit.

(** One rule as the compiler takes it: resolved, and its two bounds
    made numerals (lines 45-55). *)
Definition compile_rule (r : rule) : result acl_rule :=
  c <- resolve_rule r ;;
  _ <- int_numeral (rule_start c) ;;
  _ <- int_numeral (rule_end c) ;;
  Ok c.

(** * Properties *)

(** ** Results *)

Lemma bind_ok {A B : Type} (r : result A) (k : A -> result B) (b : B) :
  bind r k = Ok b -> exists a, r = Ok a /\ k a = Ok b.
Proof.
  destruct r as [a | e]; simpl; intros H; [eauto | discriminate].
Qed.

Ltac bind_inv H :=
  match type of H with
  | bind ?r _ = Ok _ =>
      let a := fresh "a" in
      let Ha := fresh "Hr" in
      apply bind_ok in H; destruct H as (a & Ha & H)
  end.

Tactic Notation "bind_split" hyp(H) "as" ident(a) ident(Ha) :=
  apply bind_ok in H; destruct H as (a & Ha & H).

(** ** Addresses and intervals *)

Lemma digits_lower (s : string) :
  forall acc n, PyStr.digits acc s = Some n -> 0 <= acc -> 0 <= n.
Proof.
  induction s as [| a s IH]; cbn [PyStr.digits]; intros acc n H Hacc.
  - injection H as <-. exact Hacc.
  - destruct (PyStr.is_digit a) eqn:Hd; [| discriminate].
    apply (IH _ _ H).
    unfold PyStr.is_digit in Hd. unfold PyStr.digit_val.
    apply andb_prop in Hd. destruct Hd as [Hlo _].
    apply Z.leb_le in Hlo. lia.
Qed.

Lemma parse_octet_range (o : string) (n : Z) :
  parse_octet o = Ok n -> 0 <= n <= 255.
Proof.
  unfold parse_octet. destruct o as [| a rest]; [discriminate |].
  destruct (PyStr.digits 0 (String a rest)) as [m |] eqn:Hd; [| discriminate].
  destruct (_ || _ || (255 <? m)) eqn:Hbad; [discriminate |].
  intros H. injection H as <-.
  apply orb_false_elim in Hbad. destruct Hbad as [_ Hle].
  apply Z.ltb_ge in Hle.
  split; [| exact Hle].
  apply (digits_lower _ _ _ Hd). lia.
Qed.

Lemma IPv4Address_range (s : string) (ip : Z) :
  IPv4Address s = Ok ip -> 0 <= ip < 2 ^ 32.
Proof.
  unfold IPv4Address.
  destruct (PyStr.split "." s) as [| o1 [| o2 [| o3 [| o4 [| o5 l]]]]];
    try discriminate.
  intros H.
  bind_inv H. bind_inv H. bind_inv H. bind_inv H.
  injection H as <-.
  repeat match goal with
         | Hp : parse_octet _ = Ok _ |- _ => apply parse_octet_range in Hp
         end.
  change (2 ^ 32) with 4294967296. lia.
Qed.

Lemma ip_str_to_int_range (ip_str : string) (ip : Z) :
  ip_str_to_int ip_str = Ok ip -> 0 <= ip < 2 ^ 32.
Proof.
  unfold ip_str_to_int. apply IPv4Address_range.
Qed.

(** The 32-bit mask clears the low [k] bits of a 32-bit value. *)
Lemma land_mask_bit (ip k : Z) :
  0 <= ip < 2 ^ 32 -> 0 <= k <= 32 ->
  Z.land ip (Z.land (Z.shiftl 4294967295 k) 4294967295)
  = Z.shiftl (Z.shiftr ip k) k.
Proof.
  intros Hip Hk.
  change 4294967295 with (Z.ones 32).
  apply Z.bits_inj'. intros n Hn.
  rewrite !Z.land_spec.
  rewrite !Z.shiftl_spec by lia.
  destruct (Z.ltb_spec n k) as [Hlt | Hge].
  - rewrite (Z.testbit_neg_r (Z.ones 32)) by lia.
    rewrite (Z.testbit_neg_r (Z.shiftr ip k)) by lia.
    simpl. apply andb_false_r.
  - rewrite Z.shiftr_spec by lia.
    replace (n - k + k) with n by lia.
    destruct (Z.ltb_spec n 32) as [Hn32 | Hn32].
    + rewrite !Z.ones_spec_low by lia. simpl. apply andb_true_r.
    + rewrite (Z.ones_spec_high 32 n) by lia.
      rewrite !andb_false_r.
      symmetry. destruct (Z.eq_dec ip 0) as [-> | Hnz].
      * apply Z.bits_0.
      * assert (2 ^ 32 <= 2 ^ n) by (apply Z.pow_le_mono_r; lia).
        apply Z.bits_above_log2; [lia |].
        apply Z.log2_lt_pow2; lia.
Qed.

Lemma shift_clear_low (ip k : Z) :
  0 <= k -> Z.shiftl (Z.shiftr ip k) k = 2 ^ k * (ip / 2 ^ k).
Proof.
  intros Hk.
  rewrite Z.shiftl_mul_pow2, Z.shiftr_div_pow2 by lia. lia.
Qed.

(** An address has the quotient [q] by [2^k] exactly when it lies in
    the block of size [2^k] that starts at [2^k * q]. *)
Lemma block_membership (a q k : Z) :
  0 <= k ->
  (2 ^ k * q <= a <= 2 ^ k * q + 2 ^ k - 1 <-> a / 2 ^ k = q).
Proof.
  intros Hk.
  assert (Hpos : 0 < 2 ^ k) by (apply Z.pow_pos_nonneg; lia).
  split.
  - intros [Hlo Hhi]. symmetry. apply (Z.div_unique a (2 ^ k) q (a - 2 ^ k * q)); lia.
  - intros <-.
    pose proof (Z.mul_div_le a (2 ^ k) Hpos).
    pose proof (Z.mul_succ_div_gt a (2 ^ k) Hpos). lia.
Qed.

Lemma split_without (c : ascii) (s : string) :
  PyStr.contains c s = false -> PyStr.split c s = [s].
Proof.
  induction s as [| a s IH]; cbn [PyStr.contains PyStr.split].
  - reflexivity.
  - intros H. apply orb_false_elim in H. destruct H as [Ha Hs].
    rewrite Ha, (IH Hs). reflexivity.
Qed.

Lemma split_at_first (c : ascii) (p r : string) :
  PyStr.contains c p = false ->
  PyStr.split c (p ++ String c r)%string = p :: PyStr.split c r.
Proof.
  induction p as [| a p IH]; cbn [PyStr.contains PyStr.split String.append].
  - intros _. rewrite Ascii.eqb_refl. reflexivity.
  - intros H. apply orb_false_elim in H. destruct H as [Ha Hp].
    rewrite Ha, (IH Hp). reflexivity.
Qed.

Lemma contains_at (c : ascii) (p r : string) :
  PyStr.contains c (p ++ String c r)%string = true.
Proof.
  induction p as [| a p IH]; cbn [PyStr.contains String.append].
  - rewrite Ascii.eqb_refl. reflexivity.
  - rewrite IH. apply orb_true_r.
Qed.

(** The interval of a prefix that parses, for a mask length in range. *)
Lemma get_ip_interval_value (prefix_str : string) (mask_len ip : Z) :
  ip_str_to_int prefix_str = Ok ip ->
  0 <= mask_len <= 32 ->
  get_ip_interval prefix_str mask_len
  = Ok (2 ^ (32 - mask_len) * (ip / 2 ^ (32 - mask_len)),
        2 ^ (32 - mask_len) * (ip / 2 ^ (32 - mask_len))
        + 2 ^ (32 - mask_len) - 1).
Proof.
  intros Hparse Hmask.
  pose proof (ip_str_to_int_range _ _ Hparse) as Hip.
  unfold get_ip_interval. rewrite Hparse. cbn [bind].
  destruct (Z.ltb_spec (32 - mask_len) 0) as [Hneg | _]; [lia |].
  rewrite land_mask_bit by lia.
  rewrite shift_clear_low by lia.
  rewrite (Z.shiftl_mul_pow2 1) by lia. rewrite Z.mul_1_l. reflexivity.
Qed.

Lemma mask_bit_none (k : Z) :
  32 <= k -> Z.land (Z.shiftl 4294967295 k) 4294967295 = 0.
Proof.
  intros Hk. change 4294967295 with (Z.ones 32).
  apply Z.bits_inj'. intros n Hn.
  rewrite Z.land_spec, Z.bits_0, Z.shiftl_spec by lia.
  destruct (Z.ltb_spec n 32) as [Hlt | Hge].
  - rewrite (Z.testbit_neg_r (Z.ones 32)) by lia. reflexivity.
  - rewrite (Z.ones_spec_high 32 n) by lia. apply andb_false_r.
Qed.

(** C9.  For a prefix that parses and a mask length in 0..32,
    [get_ip_interval] returns the interval whose start is the prefix
    with all but its top [mask_len] bits cleared and whose end is
    [start + 2^(32 - mask_len) - 1]; the interval is non-empty, lies
    within [0, 2^32 - 1], and holds exactly the 32-bit addresses whose
    top [mask_len] bits are those of the prefix. *)
Theorem get_ip_interval_block (prefix_str : string) (mask_len ip : Z) :
  ip_str_to_int prefix_str = Ok ip ->
  0 <= mask_len <= 32 ->
  exists start_ip end_ip,
    get_ip_interval prefix_str mask_len = Ok (start_ip, end_ip)
    /\ start_ip = Z.shiftl (Z.shiftr ip (32 - mask_len)) (32 - mask_len)
    /\ end_ip = start_ip + 2 ^ (32 - mask_len) - 1
    /\ start_ip <= end_ip
    /\ 0 <= start_ip
    /\ end_ip <= 2 ^ 32 - 1
    /\ forall a, 0 <= a < 2 ^ 32 ->
         (start_ip <= a <= end_ip
          <-> Z.shiftr a (32 - mask_len) = Z.shiftr ip (32 - mask_len)).
Proof.
  intros Hparse Hmask.
  pose proof (ip_str_to_int_range _ _ Hparse) as Hip.
  set (k := 32 - mask_len).
  assert (Hk : 0 <= k <= 32) by (unfold k; lia).
  assert (Hpos : 0 < 2 ^ k) by (apply Z.pow_pos_nonneg; lia).
  exists (Z.shiftl (Z.shiftr ip k) k), (Z.shiftl (Z.shiftr ip k) k + 2 ^ k - 1).
  assert (Hq : 0 <= ip / 2 ^ k) by (apply Z.div_pos; lia).
  assert (Htop : 2 ^ k * (ip / 2 ^ k) + 2 ^ k <= 2 ^ 32).
  { replace (2 ^ 32) with (2 ^ k * 2 ^ (32 - k))
      by (rewrite <- Z.pow_add_r by lia; f_equal; lia).
    assert (ip / 2 ^ k < 2 ^ (32 - k)).
    { apply Z.div_lt_upper_bound; [lia |].
      rewrite <- Z.pow_add_r by lia. replace (k + (32 - k)) with 32 by lia. lia. }
    nia. }
  split.
  - unfold get_ip_interval. rewrite Hparse. cbn [bind]. fold k.
    destruct (Z.ltb_spec k 0) as [Hneg | _]; [lia |].
    rewrite land_mask_bit by assumption.
    rewrite (Z.shiftl_mul_pow2 1 k) by lia. rewrite Z.mul_1_l. reflexivity.
  - rewrite shift_clear_low by lia.
    split; [reflexivity |].
    split; [reflexivity |].
    split; [lia |].
    split; [nia |].
    split; [lia |].
    intros a Ha. rewrite !Z.shiftr_div_pow2 by lia.
    apply block_membership. lia.
Qed.

Lemma get_ip_interval_block_witness :
  get_ip_interval "10.0.1.77" 24 = Ok (167772416, 167772671)
  /\ (167772416 <= 167772516 <= 167772671
      <-> Z.shiftr 167772516 8 = Z.shiftr 167772493 8).
Proof.
  destruct (get_ip_interval_block "10.0.1.77" 24 167772493)
    as (s & e & Hget & _ & _ & _ & _ & _ & Hmem);
    [reflexivity | lia |].
  vm_compute in Hget. injection Hget as <- <-.
  split; [reflexivity |].
  apply (Hmem 167772516). lia.
Defined.

(** ** The chain compiler against the first-match scan *)

Lemma int_numeral_ok (v : Z) (t : int_term) :
  int_numeral v = Ok t -> t = IntVal v /\ PyStr.writable v = true.
Proof.
  unfold int_numeral. destruct (PyStr.writable v); [| discriminate].
  intros H. injection H as <-. auto.
Qed.

Lemma int_numeral_writable (v : Z) :
  PyStr.writable v = true -> int_numeral v = Ok (IntVal v).
Proof.
  unfold int_numeral. intros ->. reflexivity.
Qed.

Lemma writable_32 (v : Z) : 0 <= v < 2 ^ 32 -> PyStr.writable v = true.
Proof.
  intros Hv. unfold PyStr.writable. apply Z.ltb_lt.
  rewrite Z.abs_eq by lia.
  apply Z.lt_trans with (2 ^ 32); [lia | reflexivity].
Qed.

Lemma resolve_rule_steps (r : rule) (c : acl_rule) :
  resolve_rule r = Ok c ->
  exists p_str m,
    rule_prefix_mask r = Ok (p_str, m)
    /\ get_ip_interval p_str m = Ok (rule_start c, rule_end c)
    /\ rule_deny c = action_deny r.
Proof.
  unfold resolve_rule. intros H.
  bind_inv H. destruct a as [p_str m].
  bind_inv H. destruct a as [start end_].
  injection H as <-. simpl. eauto.
Qed.

Lemma compile_rule_ok (r : rule) (c : acl_rule) :
  compile_rule r = Ok c
  <-> resolve_rule r = Ok c
      /\ PyStr.writable (rule_start c) = true
      /\ PyStr.writable (rule_end c) = true.
Proof.
  unfold compile_rule. split.
  - intros H. bind_split H as c0 Hc0.
    bind_split H as lo Hlo. bind_split H as hi Hhi. injection H as ->.
    apply int_numeral_ok in Hlo, Hhi. intuition.
  - intros (-> & Hlo & Hhi). cbn [bind].
    rewrite (int_numeral_writable _ Hlo), (int_numeral_writable _ Hhi).
    reflexivity.
Qed.

(** One step of the compiler, by the compiled rule. *)
Lemma build_acl_logic_cons (ip_var : int_term) (r : rule) (rest : list rule) :
  build_acl_logic ip_var (r :: rest)
  = (c <- compile_rule r ;;
     tail <- build_acl_logic ip_var rest ;;
     Ok (If (And [Ge ip_var (IntVal (rule_start c));
                  Le ip_var (IntVal (rule_end c))])
            (BoolVal (rule_deny c)) tail)).
Proof.
  cbn [build_acl_logic]. unfold compile_rule, resolve_rule, int_numeral.
  destruct (rule_prefix_mask r) as [[p_str m] | e]; cbn [bind];
    [| reflexivity].
  destruct (get_ip_interval p_str m) as [[start end_] | e]; cbn [bind];
    [| reflexivity].
  cbn [rule_start rule_end rule_deny].
  destruct (PyStr.writable start); cbn [bind]; [| reflexivity].
  destruct (PyStr.writable end_); reflexivity.
Qed.

(** When the compiler returns, the chain resolves and the compiled
    expression is the nest of conditionals over the resolved rules. *)
Lemma build_acl_logic_resolved (ip_var : int_term) (rules : list rule) :
  forall e, build_acl_logic ip_var rules = Ok e ->
  exists chain,
    resolve_chain rules = Ok chain
    /\ forall env,
         eval env e = Some (first_match_scan chain (int_denote env ip_var)).
Proof.
  induction rules as [| r rest IH]; intros e H.
  - injection H as <-. exists []. split; reflexivity.
  - rewrite build_acl_logic_cons in H.
    bind_split H as c Hc. bind_split H as tail Htail. injection H as <-.
    apply compile_rule_ok in Hc. destruct Hc as (Hc & _ & _).
    destruct (IH _ Htail) as (chain & Hchain & Heval).
    exists (c :: chain). split.
    + cbn [resolve_chain]. rewrite Hc, Hchain. reflexivity.
    + intros env. cbn [eval fold_right first_match_scan int_denote].
      rewrite Heval. unfold matches. rewrite andb_true_r. reflexivity.
Qed.

(** The compiler returns exactly when each rule compiles, whatever
    the address term. *)
Lemma build_acl_logic_compiles (ip_var : int_term) (rules : list rule) :
  (exists e, build_acl_logic ip_var rules = Ok e)
  <-> Forall (fun r => exists c, compile_rule r = Ok c) rules.
Proof.
  induction rules as [| r rest IH].
  - split; [constructor | intros _; cbn; eauto].
  - rewrite build_acl_logic_cons. split.
    + intros (e & H). bind_split H as c Hc. bind_split H as tail Htail.
      constructor; [eauto |]. apply IH. eauto.
    + intros H. inversion H as [| ? ? (c & Hc) Hrest]; subst.
      apply IH in Hrest. destruct Hrest as (tail & Htail).
      rewrite Hc, Htail. cbn [bind]. eauto.
Qed.

Lemma bind_var_same (env : int_env) (x : string) (a : Z) :
  bind_var env x a x = a.
Proof.
  unfold bind_var. rewrite String.eqb_refl. reflexivity.
Qed.

(** The interval of a prefix, in closed form: for every mask length
    the call accepts it is the block of the address. *)
Lemma get_ip_interval_closed (prefix_str : string) (mask_len s e : Z) :
  get_ip_interval prefix_str mask_len = Ok (s, e) ->
  exists ip,
    ip_str_to_int prefix_str = Ok ip
    /\ mask_len <= 32
    /\ (s, e) = block ip mask_len.
Proof.
  unfold get_ip_interval, block.
  destruct (ip_str_to_int prefix_str) as [ip | err] eqn:Hparse; cbn [bind];
    [| discriminate].
  pose proof (ip_str_to_int_range _ _ Hparse) as Hip.
  remember (32 - mask_len) as k eqn:Hk.
  destruct (Z.ltb_spec k 0) as [Hneg | Hpos]; [discriminate |].
  cbv zeta. intros H. exists ip. split; [reflexivity |]. split; [lia |].
  assert (Hs : s = Z.land ip (Z.land (Z.shiftl 4294967295 k) 4294967295))
    by congruence.
  assert (He : e = s + Z.shiftl 1 k - 1) by congruence.
  clear H. rewrite He, Hs. clear He Hs.
  rewrite (Z.shiftl_mul_pow2 1) by lia. rewrite Z.mul_1_l.
  destruct (Z.le_gt_cases k 32) as [Hle | Hgt].
  - rewrite land_mask_bit by lia. rewrite shift_clear_low by lia.
    reflexivity.
  - rewrite mask_bit_none by lia. rewrite Z.land_0_r.
    assert (Hpow : 2 ^ 32 <= 2 ^ k) by (apply Z.pow_le_mono_r; lia).
    rewrite (Z.div_small ip) by lia. rewrite Z.mul_0_r. reflexivity.
Qed.

Lemma action_deny_denies (r : rule) : action_deny r = denies r.
Proof.
  unfold action_deny, denies. destruct (action r); reflexivity.
Qed.




(** The reference chain of PE1: permit 192.168.1.0/24, deny
    10.0.1.0/24, permit 10.0.0.0/8. *)
Definition filter (i : Z) (p a : string) : rule :=
  {| index := Some i; prefix := Some p; mask := None; action := Some a |}.

Definition pe1_filters : list rule :=
  [filter 10 "192.168.1.0/24" "permit";
   filter 20 "10.0.1.0/24" "deny";
   filter 30 "10.0.0.0/8" "permit"].


(** C3.  The empty chain compiles, to the constant false, which
    evaluates to not-denied under every assignment of the address. *)
Theorem build_acl_logic_empty (ip_var : int_term) (env : int_env) :
  exists e,
    build_acl_logic ip_var [] = Ok e
    /\ e = BoolVal false
    /\ eval env e = Some false.
Proof.
  exists (BoolVal false). repeat split.
Qed.

(** *** Reordering *)

Lemma resolve_chain_app (l1 l2 : list rule) :
  forall chain, resolve_chain (l1 ++ l2) = Ok chain ->
  exists c1 c2,
    resolve_chain l1 = Ok c1 /\ resolve_chain l2 = Ok c2 /\ chain = c1 ++ c2.
Proof.
  induction l1 as [| r l1 IH]; cbn [app resolve_chain]; intros chain H.
  - exists [], chain. auto.
  - bind_inv H. bind_inv H. injection H as <-.
    destruct (IH _ Hr0) as (c1 & c2 & H1 & H2 & ->).
    exists (a :: c1), c2. rewrite Hr, H1. auto.
Qed.

Lemma resolve_chain_app_ok (l1 l2 : list rule) (c2 : list acl_rule) :
  resolve_chain l2 = Ok c2 ->
  forall c1, resolve_chain l1 = Ok c1 ->
  resolve_chain (l1 ++ l2) = Ok (c1 ++ c2).
Proof.
  intros H2.
  induction l1 as [| r l1 IH]; cbn [app resolve_chain]; intros c1 H1.
  - injection H1 as <-. exact H2.
  - bind_split H1 as c Hc. bind_split H1 as cs Hcs. injection H1 as <-.
    rewrite Hc. cbn [bind]. rewrite (IH _ Hcs). reflexivity.
Qed.

Lemma resolve_chain_cons_ok (r : rule) (l : list rule) (c : acl_rule)
      (cs : list acl_rule) :
  resolve_rule r = Ok c -> resolve_chain l = Ok cs ->
  resolve_chain (r :: l) = Ok (c :: cs).
Proof.
  intros Hc Hcs. cbn [resolve_chain]. rewrite Hc, Hcs. reflexivity.
Qed.

Lemma first_match_scan_app (c1 c2 : list acl_rule) (a : Z) :
  first_match_scan (c1 ++ c2) a
  = if existsb (matches a) c1 then first_match_scan c1 a
    else first_match_scan c2 a.
Proof.
  induction c1 as [| r c1 IH]; cbn [app first_match_scan existsb].
  - reflexivity.
  - destruct (matches a r); [reflexivity | exact IH].
Qed.

(** The addresses two rules have in common. *)
Definition in_overlap (a : Z) (c1 c2 : acl_rule) : bool :=
  matches a c1 && matches a c2.

(** The scan of a chain and of the chain with two of its rules
    exchanged. *)
Lemma first_match_scan_swap (cpre cmid cpost : list acl_rule)
      (c1 c2 : acl_rule) (a : Z) :
  rule_deny c1 <> rule_deny c2 ->
  in_overlap a c1 c2 = true \/ existsb (matches a) cmid = false ->
  (first_match_scan (cpre ++ c1 :: cmid ++ c2 :: cpost) a
   <> first_match_scan (cpre ++ c2 :: cmid ++ c1 :: cpost) a
   <-> in_overlap a c1 c2 = true /\ existsb (matches a) cpre = false).
Proof.
  intros Hact Hside.
  rewrite !first_match_scan_app. cbn [first_match_scan].
  rewrite !first_match_scan_app. cbn [first_match_scan].
  unfold in_overlap in *.
  destruct (existsb (matches a) cpre), (matches a c1), (matches a c2),
    (existsb (matches a) cmid); cbn [andb] in *;
    try (destruct Hside; discriminate);
    (split; [intros Hne; try (split; [reflexivity | reflexivity]);
             exfalso; apply Hne; reflexivity
            | intros [H1 H2]; try discriminate; auto]).
Qed.

(** C4, as amended.  For two rules of a chain with different actions,
    exchanged in place: among the addresses that lie in the overlap of
    the two intervals or that no rule placed between the two matches
    (every address, when the two rules are adjacent), the compiled
    verdict changes exactly for those in the overlap that no earlier
    rule matches. *)
Theorem build_acl_logic_swap (x : string) (pre mid post : list rule)
        (r1 r2 : rule) (e e' : bexpr) :
  build_acl_logic (Int x) (pre ++ r1 :: mid ++ r2 :: post) = Ok e ->
  build_acl_logic (Int x) (pre ++ r2 :: mid ++ r1 :: post) = Ok e' ->
  exists cpre c1 cmid c2,
    resolve_chain pre = Ok cpre
    /\ resolve_rule r1 = Ok c1
    /\ resolve_chain mid = Ok cmid
    /\ resolve_rule r2 = Ok c2
    /\ (rule_deny c1 <> rule_deny c2 ->
        forall (env : int_env) (a : Z),
          in_overlap a c1 c2 = true \/ existsb (matches a) cmid = false ->
          (eval (bind_var env x a) e <> eval (bind_var env x a) e'
           <-> in_overlap a c1 c2 = true /\ existsb (matches a) cpre = false)).
Proof.
  intros He He'.
  destruct (build_acl_logic_resolved _ _ _ He) as (chain & Hchain & Hscan).
  destruct (build_acl_logic_resolved _ _ _ He') as (chain' & Hchain' & Hscan').
  apply resolve_chain_app in Hchain.
  destruct Hchain as (cpre & ctl & Hpre & Htl & ->).
  cbn [resolve_chain] in Htl.
  bind_split Htl as c1 H1. bind_split Htl as ctl1 Htl1. injection Htl as <-.
  apply resolve_chain_app in Htl1.
  destruct Htl1 as (cmid & ctl2 & Hmid & Htl2 & ->).
  cbn [resolve_chain] in Htl2.
  bind_split Htl2 as c2 H2. bind_split Htl2 as cpost Hpost. injection Htl2 as <-.
  assert (Hchain2 : resolve_chain (pre ++ r2 :: mid ++ r1 :: post)
                    = Ok (cpre ++ c2 :: cmid ++ c1 :: cpost)).
  { apply resolve_chain_app_ok; [| exact Hpre].
    apply resolve_chain_cons_ok; [exact H2 |].
    apply resolve_chain_app_ok; [| exact Hmid].
    apply resolve_chain_cons_ok; assumption. }
  rewrite Hchain2 in Hchain'. injection Hchain' as <-.
  exists cpre, c1, cmid, c2.
  repeat (split; [assumption |]).
  intros Hact env a Hside.
  rewrite Hscan, Hscan'. cbn [int_denote]. rewrite bind_var_same.
  rewrite <- (first_match_scan_swap cpre cmid cpost c1 c2 a Hact Hside).
  split; intros Hne Heq; apply Hne; congruence.
Qed.

Lemma build_acl_logic_swap_witness :
  exists e e',
    build_acl_logic (Int "sym_ip")
      [filter 10 "10.0.0.0/8" "permit"; filter 20 "10.0.1.0/24" "deny"] = Ok e
    /\ build_acl_logic (Int "sym_ip")
         [filter 20 "10.0.1.0/24" "deny"; filter 10 "10.0.0.0/8" "permit"] = Ok e'
    /\ eval (bind_var (fun _ => 0) "sym_ip" 167772516) e
       <> eval (bind_var (fun _ => 0) "sym_ip" 167772516) e'.
Proof.
  destruct (build_acl_logic (Int "sym_ip")
              ([] ++ filter 10 "10.0.0.0/8" "permit"
                  :: [] ++ filter 20 "10.0.1.0/24" "deny" :: []))
    as [e |] eqn:He; [| vm_compute in He; discriminate].
  destruct (build_acl_logic (Int "sym_ip")
              ([] ++ filter 20 "10.0.1.0/24" "deny"
                  :: [] ++ filter 10 "10.0.0.0/8" "permit" :: []))
    as [e' |] eqn:He'; [| vm_compute in He'; discriminate].
  exists e, e'. split; [exact He |]. split; [exact He' |].
  destruct (build_acl_logic_swap "sym_ip" [] [] []
              (filter 10 "10.0.0.0/8" "permit")
              (filter 20 "10.0.1.0/24" "deny") e e' He He')
    as (cpre & c1 & cmid & c2 & Hpre & H1 & Hmid & H2 & Hswap).
  vm_compute in Hpre, H1, Hmid, H2.
  injection Hpre as <-. injection H1 as <-. injection Hmid as <-.
  injection H2 as <-.
  apply Hswap.
  - cbn. discriminate.
  - right. reflexivity.
  - split; reflexivity.
Defined.

(** C4, as stated, fails when a rule lies between the two: exchanging
    permit 10.0.0.0/8 and deny 10.0.0.0/16 around deny 10.1.0.0/16
    changes the verdict of 10.1.0.1, which is outside the overlap
    10.0.0.0/16 of the two exchanged rules. *)
Lemma swap_outside_overlap_counterexample :
  let r1 := filter 10 "10.0.0.0/8" "permit" in
  let between := filter 20 "10.1.0.0/16" "deny" in
  let r2 := filter 30 "10.0.0.0/16" "deny" in
  let a := 167837697 in
  exists c1 c2,
    resolve_rule r1 = Ok c1 /\ resolve_rule r2 = Ok c2
    /\ rule_deny c1 <> rule_deny c2
    /\ in_overlap 167772161 c1 c2 = true
    /\ in_overlap a c1 c2 = false
    /\ (e <- build_acl_logic (Int "sym_ip") [r1; between; r2] ;;
        Ok (eval (bind_var (fun _ => 0) "sym_ip" a) e)) = Ok (Some false)
    /\ (e <- build_acl_logic (Int "sym_ip") [r2; between; r1] ;;
        Ok (eval (bind_var (fun _ => 0) "sym_ip" a) e)) = Ok (Some true).
Proof.
  cbv zeta.
  exists {| rule_start := 167772160; rule_end := 184549375; rule_deny := false |},
         {| rule_start := 167772160; rule_end := 167837695; rule_deny := true |}.
  repeat split; try reflexivity.
  cbn. discriminate.
Qed.

(** ** Defaults of a partially specified rule *)

Lemma digit_not_space (a : ascii) :
  PyStr.is_digit a = true -> PyStr.is_space a = false.
Proof.
  unfold PyStr.is_digit, PyStr.is_space. cbv zeta.
  set (n := Z.of_nat (nat_of_ascii a)).
  intros H. apply andb_prop in H. destruct H as [Hlo Hhi].
  apply Z.leb_le in Hlo, Hhi.
  destruct (Z.leb_spec 9 n), (Z.leb_spec n 13), (Z.eqb_spec n 32);
    cbn; try reflexivity; lia.
Qed.

Lemma digit_not_sign (a : ascii) :
  PyStr.is_digit a = true ->
  Ascii.eqb a "-" = false /\ Ascii.eqb a "+" = false
  /\ Ascii.eqb a "_" = false.
Proof.
  intros H.
  repeat split;
    (match goal with
     | |- Ascii.eqb a ?c = false =>
         destruct (Ascii.eqb_spec a c) as [-> | _];
         [vm_compute in H; discriminate | reflexivity]
     end).
Qed.

Lemma rev_onto_rev_onto (s : string) :
  forall acc acc',
    PyStr.rev_onto (PyStr.rev_onto s acc) acc'
    = PyStr.rev_onto acc (s ++ acc')%string.
Proof.
  induction s as [| a s IH]; intros acc acc'; cbn [PyStr.rev_onto];
    [reflexivity |].
  rewrite IH. reflexivity.
Qed.

Lemma append_nil_r (s : string) : (s ++ "")%string = s.
Proof.
  induction s as [| a s IH]; cbn; [reflexivity | rewrite IH; reflexivity].
Qed.

(** A reversed run of digits onto a text that starts with a digit has
    no blank in front. *)
Lemma lstrip_rev_onto (s : string) :
  forall (a : ascii) (acc : string) (n : Z),
    PyStr.is_digit a = true ->
    PyStr.digits n s <> None ->
    PyStr.lstrip (PyStr.rev_onto s (String a acc))
    = PyStr.rev_onto s (String a acc).
Proof.
  induction s as [| b s IH]; intros a acc n Ha Hs;
    cbn [PyStr.rev_onto PyStr.digits] in *.
  - cbn [PyStr.lstrip]. rewrite (digit_not_space _ Ha). reflexivity.
  - destruct (PyStr.is_digit b) eqn:Hb; [| contradiction Hs; reflexivity].
    apply (IH b (String a acc) _ Hb Hs).
Qed.

Lemma strip_digits (s : string) (n : Z) :
  PyStr.digits 0 s = Some n -> PyStr.strip s = s.
Proof.
  intros H. unfold PyStr.strip.
  destruct s as [| a s]; [reflexivity |].
  cbn [PyStr.digits] in H.
  destruct (PyStr.is_digit a) eqn:Ha; [| discriminate].
  cbn [PyStr.lstrip]. rewrite (digit_not_space _ Ha).
  cbn [PyStr.rev_onto].
  rewrite (lstrip_rev_onto s a "" _ Ha) by (rewrite H; discriminate).
  rewrite rev_onto_rev_onto. cbn [PyStr.rev_onto String.append].
  rewrite append_nil_r. reflexivity.
Qed.

Lemma int_body_digits (s : string) :
  forall acc n, PyStr.digits acc s = Some n ->
                PyStr.int_body acc false s = Some n.
Proof.
  induction s as [| a s IH]; intros acc n; cbn [PyStr.digits PyStr.int_body].
  - intros H. exact H.
  - destruct (PyStr.is_digit a); [apply IH | discriminate].
Qed.

Lemma count_digits_le (s : string) :
  PyStr.count_digits s <= Z.of_nat (String.length s).
Proof.
  induction s as [| a s IH]; cbn [PyStr.count_digits String.length];
    [lia |].
  destruct (PyStr.is_digit a); lia.
Qed.

(** A run of ASCII digits is read as it stands. *)
Lemma ascii_form_digits (s : string) :
  forall acc n, PyStr.digits acc s = Some n -> PyStr.ascii_form s = Some s.
Proof.
  induction s as [| a s IH]; intros acc n H; [reflexivity |].
  cbn [PyStr.digits] in H.
  destruct (PyStr.is_digit a) eqn:Ha; [| discriminate].
  cbn [PyStr.ascii_form]. cbv zeta.
  assert (Hlt : (PyStr.code a <? 127) = true).
  { unfold PyStr.is_digit in Ha. cbv zeta in Ha. unfold PyStr.code.
    apply andb_prop in Ha. destruct Ha as [_ Hhi].
    apply Z.leb_le in Hhi. apply Z.ltb_lt. lia. }
  rewrite Hlt, (IH _ _ H). reflexivity.
Qed.

(** [int] reads a decimal text as its value. *)
Lemma int_decimal (s : string) (n : Z) :
  decimal s = Some n -> PyStr.int s = Ok n.
Proof.
  unfold decimal. destruct s as [| a s]; [discriminate |].
  destruct (Z.leb_spec (Z.of_nat (String.length (String a s))) 4300)
    as [Hlen | _]; [| discriminate].
  intros H. unfold PyStr.int. rewrite (ascii_form_digits _ _ _ H).
  unfold PyStr.ascii_int. rewrite (strip_digits _ _ H).
  assert (Ha : PyStr.is_digit a = true).
  { cbn [PyStr.digits] in H. destruct (PyStr.is_digit a);
      [reflexivity | discriminate]. }
  assert (Hu : PyStr.unsigned_int (String a s) = Ok n).
  { unfold PyStr.unsigned_int. rewrite Ha, (int_body_digits _ _ _ H).
    pose proof (count_digits_le (String a s)) as Hc.
    unfold PyStr.int_max_str_digits.
    destruct (Z.ltb_spec 4300 (PyStr.count_digits (String a s)));
      [lia | reflexivity]. }
  destruct (digit_not_sign _ Ha) as (Hminus & Hplus & _).
  destruct (Ascii.eqb_spec a "-") as [-> | Hm]; [discriminate |].
  destruct (Ascii.eqb_spec a "+") as [-> | Hp]; [discriminate |].
  destruct a as [[] [] [] [] [] [] [] []]; try exact Hu;
    first [contradiction Hm; reflexivity | contradiction Hp; reflexivity].
Qed.

Lemma mask_field_py_int (r : rule) (m : Z) :
  mask_field r m -> py_int (get_default (mask r) (JInt 32)) = Ok m.
Proof.
  unfold mask_field. destruct (mask r) as [[z | t] |]; cbn [get_default py_int].
  - intros ->. reflexivity.
  - apply int_decimal.
  - intros ->. reflexivity.
Qed.

Lemma split_has_two (c : ascii) (s : string) :
  PyStr.contains c s = true ->
  exists x y l, PyStr.split c s = x :: y :: l.
Proof.
  induction s as [| a s IH]; cbn [PyStr.contains PyStr.split];
    [discriminate |].
  destruct (Ascii.eqb a c) eqn:Ha.
  - intros _. destruct (PyStr.split c s) as [| y l] eqn:Hs.
    + destruct s; cbn in Hs; [discriminate |].
      destruct (Ascii.eqb a0 c); [discriminate |].
      destruct (PyStr.split c s); discriminate.
    + eauto.
  - cbn [orb]. intros H. destruct (IH H) as (x & y & l & ->). eauto.
Qed.

(** The compiled rule of an address and a mask length in 0..32. *)
Lemma build_acl_logic_block (ip_var : int_term) (r : rule) (rest : list rule)
      (tail : bexpr) (addr : string) (ip m : Z) :
  build_acl_logic ip_var rest = Ok tail ->
  rule_prefix_mask r = Ok (addr, m) ->
  ip_str_to_int addr = Ok ip ->
  0 <= m <= 32 ->
  build_acl_logic ip_var (r :: rest)
  = Ok (If (And [Ge ip_var (IntVal (fst (block ip m)));
                 Le ip_var (IntVal (snd (block ip m)))])
           (BoolVal (denies r)) tail).
Proof.
  intros Htail Hpm Hip Hm.
  pose proof (ip_str_to_int_range _ _ Hip) as Hrange.
  cbn [build_acl_logic]. rewrite Hpm. cbn [bind].
  rewrite (get_ip_interval_value _ _ _ Hip Hm). cbn [bind].
  unfold block. cbv zeta. cbn [fst snd].
  set (k := 32 - m).
  assert (Hpos : 0 < 2 ^ k) by (apply Z.pow_pos_nonneg; unfold k; lia).
  assert (Hq : 0 <= ip / 2 ^ k) by (apply Z.div_pos; lia).
  pose proof (Z.mul_div_le ip (2 ^ k) Hpos) as Hle.
  assert (Htop : 2 ^ k * (ip / 2 ^ k) + 2 ^ k <= 2 ^ 32).
  { replace (2 ^ 32) with (2 ^ k * 2 ^ (32 - k))
      by (rewrite <- Z.pow_add_r by (unfold k; lia); f_equal; lia).
    assert (ip / 2 ^ k < 2 ^ (32 - k)).
    { apply Z.div_lt_upper_bound; [lia |].
      rewrite <- Z.pow_add_r by (unfold k; lia).
      replace (k + (32 - k)) with 32 by lia. lia. }
    nia. }
  rewrite (int_numeral_writable (2 ^ k * (ip / 2 ^ k)))
    by (apply writable_32; lia).
  cbn [bind].
  rewrite (int_numeral_writable (2 ^ k * (ip / 2 ^ k) + 2 ^ k - 1))
    by (apply writable_32; lia).
  cbn [bind]. rewrite Htail. cbn [bind].
  rewrite action_deny_denies. reflexivity.
Qed.

(** C10.  A rule compiles by the address and the mask length its
    fields stand for and by its action: without [prefix] the address
    is 0.0.0.0; a prefix with one slash gives the mask length written
    after it, whatever the [mask] field holds; without a slash and
    without [mask] the mask length is 32; the rule denies only when
    its action is deny, so a missing action and any other action
    permit.  For a mask length in 0..32 the rule then compiles, to the
    test of the block of the address with the action as its value, so
    no absent field makes the compiler fail.  A prefix with more than
    one slash raises [ValueError]. *)
Theorem build_acl_logic_defaults (ip_var : int_term) (r : rule)
        (rest : list rule) (tail : bexpr) :
  build_acl_logic ip_var rest = Ok tail ->
  (forall ip m,
      stands_for r ip m -> 0 <= m <= 32 ->
      build_acl_logic ip_var (r :: rest)
      = Ok (If (And [Ge ip_var (IntVal (fst (block ip m)));
                     Le ip_var (IntVal (snd (block ip m)))])
               (BoolVal (denies r)) tail))
  /\ (forall a b,
        prefix r = Some (a ++ String "/" b)%string ->
        PyStr.contains "/" a = false ->
        PyStr.contains "/" b = true ->
        build_acl_logic ip_var (r :: rest) = Err ValueError).
Proof.
  intros Htail. split.
  - intros ip m Hfields Hm.
    destruct Hfields as [addr mtxt ip m Hp Ha Hmt Hip Hdec
                        | addr ip m Hp Ha Hip Hmask
                        | m Hp Hmask].
    + apply (build_acl_logic_block _ _ _ _ addr _ _ Htail); [| | exact Hm].
      * unfold rule_prefix_mask. rewrite Hp. cbn [get_default].
        rewrite contains_at, (split_at_first _ _ _ Ha),
          (split_without _ _ Hmt), (int_decimal _ _ Hdec).
        reflexivity.
      * unfold ip_str_to_int. rewrite Ha. exact Hip.
    + apply (build_acl_logic_block _ _ _ _ addr _ _ Htail); [| | exact Hm].
      * unfold rule_prefix_mask. rewrite Hp. cbn [get_default].
        rewrite Ha, (mask_field_py_int _ _ Hmask). reflexivity.
      * unfold ip_str_to_int. rewrite Ha. exact Hip.
    + apply (build_acl_logic_block _ _ _ _ "0.0.0.0" _ _ Htail);
        [| reflexivity | exact Hm].
      unfold rule_prefix_mask. rewrite Hp. cbn [get_default].
      change (PyStr.contains "/" "0.0.0.0") with false. cbv iota.
      rewrite (mask_field_py_int _ _ Hmask). reflexivity.
  - intros a b Hp Ha Hb.
    cbn [build_acl_logic]. unfold rule_prefix_mask.
    rewrite Hp. cbn [get_default].
    rewrite contains_at, (split_at_first _ _ _ Ha).
    destruct (split_has_two _ _ Hb) as (x & y & l & ->). reflexivity.
Qed.

Lemma build_acl_logic_defaults_witness :
  build_acl_logic sym_ip
    [{| index := None; prefix := None; mask := None; action := None |}]
  = Ok (If (And [Ge sym_ip (IntVal 0); Le sym_ip (IntVal 0)])
           (BoolVal false) (BoolVal false))
  /\ build_acl_logic sym_ip
       [{| index := None; prefix := Some "10.0.1.0/24";
           mask := Some (JStr "no number"); action := Some "drop" |}]
     = Ok (If (And [Ge sym_ip (IntVal 167772416);
                    Le sym_ip (IntVal 167772671)])
              (BoolVal false) (BoolVal false))
  /\ build_acl_logic sym_ip
       [{| index := None; prefix := Some "10.0.1.7"; mask := None;
           action := Some "deny" |}]
     = Ok (If (And [Ge sym_ip (IntVal 167772423);
                    Le sym_ip (IntVal 167772423)])
              (BoolVal true) (BoolVal false))
  /\ build_acl_logic sym_ip
       [{| index := None; prefix := Some "10.0.1.0/24/8"; mask := None;
           action := None |}]
     = Err ValueError.
Proof.
  split; [| split; [| split]].
  - apply (proj1 (build_acl_logic_defaults sym_ip
                    {| index := None; prefix := None; mask := None;
                       action := None |}
                    [] (BoolVal false) eq_refl) 0 32);
      [apply without_prefix; reflexivity | lia].
  - apply (proj1 (build_acl_logic_defaults sym_ip
                    {| index := None; prefix := Some "10.0.1.0/24";
                       mask := Some (JStr "no number");
                       action := Some "drop" |}
                    [] (BoolVal false) eq_refl) 167772416 24);
      [apply (with_slash _ "10.0.1.0" "24"); reflexivity | lia].
  - apply (proj1 (build_acl_logic_defaults sym_ip
                    {| index := None; prefix := Some "10.0.1.7";
                       mask := None; action := Some "deny" |}
                    [] (BoolVal false) eq_refl) 167772423 32);
      [apply (without_slash _ "10.0.1.7"); reflexivity | lia].
  - apply (proj2 (build_acl_logic_defaults sym_ip
                    {| index := None; prefix := Some "10.0.1.0/24/8";
                       mask := None; action := None |}
                    [] (BoolVal false) eq_refl) "10.0.1.0" "24/8");
      reflexivity.
Defined.

(** ** The solver's scopes *)

Lemma add_in_scope_base (e : bexpr) (s : Solver.t) :
  Solver.scopes s <> [] ->
  Solver.base_assertions (Solver.add e s) = Solver.base_assertions s
  /\ Solver.scopes (Solver.add e s) <> [].
Proof.
  unfold Solver.add. destruct (Solver.scopes s) as [| top below].
  - intros H. contradiction H. reflexivity.
  - intros _. cbn. split; [reflexivity | discriminate].
Qed.

(** Two assertions made inside a new scope go away with it. *)
Lemma pop_add_add_push (e1 e2 : bexpr) (s : Solver.t) :
  Solver.pop (Solver.add e2 (Solver.add e1 (Solver.push s))) = Ok s.
Proof.
  destruct s as [base scs]. reflexivity.
Qed.

Lemma assertions_add_add_push (e1 e2 : bexpr) (s : Solver.t) :
  Solver.assertions (Solver.add e2 (Solver.add e1 (Solver.push s)))
  = Solver.assertions s ++ [e1; e2].
Proof.
  destruct s as [base scs]. unfold Solver.assertions. cbn.
  rewrite concat_app. cbn. rewrite ?app_nil_r, app_assoc. reflexivity.
Qed.

Lemma add_base_level (e : bexpr) (s : Solver.t) :
  Solver.scopes s = [] ->
  Solver.scopes (Solver.add e s) = []
  /\ Solver.assertions (Solver.add e s) = Solver.assertions s ++ [e].
Proof.
  destruct s as [base scs]. cbn. intros ->.
  unfold Solver.add, Solver.assertions. cbn.
  rewrite ?app_nil_r. split; reflexivity.
Qed.

Lemma add_all_base_level (es : list bexpr) :
  forall s, Solver.scopes s = [] ->
  Solver.scopes (Solver.add_all es s) = []
  /\ Solver.assertions (Solver.add_all es s) = Solver.assertions s ++ es.
Proof.
  induction es as [| e es IH]; intros s Hs; cbn [Solver.add_all fold_left].
  - rewrite app_nil_r. auto.
  - destruct (add_base_level e s Hs) as [Hs' Ha].
    destruct (IH _ Hs') as [Hs'' Ha'].
    split; [exact Hs'' |].
    unfold Solver.add_all in Ha'. rewrite Ha', Ha, <- app_assoc. reflexivity.
Qed.

(** ** Queries *)

(** The evaluator of one encoding: [true] for Mode A, [false] for
    Mode B. *)
Definition evaluate (z3_check : list bexpr -> check_result)
           (r_map : Dict.t router_term) (acl_db : Dict.t (list rule))
           (global : bool) : string -> string -> string -> query check_result :=
  if global then check_mono z3_check r_map
  else check_hybrid z3_check r_map acl_db.

(** The formula of a query of Mode A. *)
Definition mono_query (src dst : router_term) (ip_val : Z) : list bexpr :=
  [IntEq target_ip_var (IntVal ip_val);
   And [Ibgp_Neighbor src dst; Has_Export_RT src rt_val;
        Has_Import_RT dst rt_val;
        Not (Is_Prefix_Denied_Global dst target_ip_var)]].

(** The formula of a query of Mode B. *)
Definition hybrid_query (src dst : router_term) (ip_val : Z)
           (is_denied_expr : bexpr) : list bexpr :=
  [IntEq target_ip_var (IntVal ip_val);
   And [Ibgp_Neighbor src dst; Has_Export_RT src rt_val;
        Has_Import_RT dst rt_val; Not is_denied_expr]].

Section QueryFacts.

Variable z3_check : list bexpr -> check_result.
Variable r_map : Dict.t router_term.
Variable acl_db : Dict.t (list rule).

(** A verdict of Mode A: both routers are known, the address parses,
    the solver is back in its state and was asked about its
    assertions followed by the query. *)
Lemma check_mono_ok (src_id dst_id ip_str : string) (s s' : Solver.t)
      (v : check_result) :
  check_mono z3_check r_map src_id dst_id ip_str s = (Ok v, s') ->
  s' = s
  /\ exists src dst ip_val,
       Dict.get r_map src_id = Some src
       /\ Dict.get r_map dst_id = Some dst
       /\ ip_str_to_int ip_str = Ok ip_val
       /\ v = z3_check (Solver.assertions s ++ mono_query src dst ip_val).
Proof.
  unfold check_mono, Dict.lookup.
  destruct (Dict.get r_map src_id) as [src |]; [| discriminate].
  destruct (Dict.get r_map dst_id) as [dst |]; [| discriminate].
  destruct (ip_str_to_int ip_str) as [ip_val |]; [| discriminate].
  rewrite pop_add_add_push, assertions_add_add_push.
  intros H. injection H as <- <-.
  split; [reflexivity |]. exists src, dst, ip_val. auto.
Qed.

Lemma check_hybrid_ok (src_id dst_id ip_str : string) (s s' : Solver.t)
      (v : check_result) :
  check_hybrid z3_check r_map acl_db src_id dst_id ip_str s = (Ok v, s') ->
  s' = s
  /\ exists src dst ip_val e,
       Dict.get r_map src_id = Some src
       /\ Dict.get r_map dst_id = Some dst
       /\ ip_str_to_int ip_str = Ok ip_val
       /\ build_acl_logic target_ip_var
            (get_default (Dict.get acl_db dst_id) []) = Ok e
       /\ v = z3_check (Solver.assertions s ++ hybrid_query src dst ip_val e).
Proof.
  unfold check_hybrid, Dict.lookup.
  destruct (Dict.get r_map src_id) as [src |]; [| discriminate].
  destruct (Dict.get r_map dst_id) as [dst |]; [| discriminate].
  destruct (ip_str_to_int ip_str) as [ip_val |]; [| discriminate].
  destruct (build_acl_logic target_ip_var _) as [e |]; [| discriminate].
  rewrite pop_add_add_push, assertions_add_add_push.
  intros H. injection H as <- <-.
  split; [reflexivity |]. exists src, dst, ip_val, e. auto.
Qed.

(** On every outcome the assertions outside all scopes are the ones
    before the call. *)
Lemma check_mono_base (src_id dst_id ip_str : string) (s : Solver.t) :
  Solver.base_assertions
    (snd (check_mono z3_check r_map src_id dst_id ip_str s))
  = Solver.base_assertions s.
Proof.
  unfold check_mono.
  destruct (Dict.lookup r_map src_id) as [src |]; [| reflexivity].
  destruct (Dict.lookup r_map dst_id) as [dst |]; [| reflexivity].
  destruct (ip_str_to_int ip_str) as [ip_val |]; [| reflexivity].
  rewrite pop_add_add_push. reflexivity.
Qed.

Lemma check_hybrid_base (src_id dst_id ip_str : string) (s : Solver.t) :
  Solver.base_assertions
    (snd (check_hybrid z3_check r_map acl_db src_id dst_id ip_str s))
  = Solver.base_assertions s.
Proof.
  unfold check_hybrid.
  destruct (Dict.lookup r_map src_id) as [src |]; [| reflexivity].
  destruct (Dict.lookup r_map dst_id) as [dst |]; [| reflexivity].
  destruct (ip_str_to_int ip_str) as [ip_val |]; [| reflexivity].
  destruct (build_acl_logic target_ip_var _) as [e |].
  - rewrite pop_add_add_push. reflexivity.
  - destruct s as [base scs]. reflexivity.
Qed.

Lemma evaluate_ok (global : bool) (src_id dst_id ip_str : string)
      (s : Solver.t) (v : check_result) :
  fst (evaluate z3_check r_map acl_db global src_id dst_id ip_str s) = Ok v ->
  evaluate z3_check r_map acl_db global src_id dst_id ip_str s = (Ok v, s).
Proof.
  destruct (evaluate z3_check r_map acl_db global src_id dst_id ip_str s)
    as [res s'] eqn:Hrun.
  cbn [fst]. intros ->. f_equal.
  destruct global; cbn [evaluate] in Hrun.
  - apply check_mono_ok in Hrun. apply Hrun.
  - apply check_hybrid_ok in Hrun. apply Hrun.
Qed.

Lemma evaluate_base (global : bool) (src_id dst_id ip_str : string)
      (s : Solver.t) :
  Solver.base_assertions
    (snd (evaluate z3_check r_map acl_db global src_id dst_id ip_str s))
  = Solver.base_assertions s.
Proof.
  destruct global; [apply check_mono_base | apply check_hybrid_base].
Qed.

(** On an exception the scope the query opened stays open: empty, or
    holding the equation of the target address when it is the chain of
    the destination that does not compile. *)
Lemma evaluate_err (global : bool) (src_id dst_id ip_str : string)
      (s : Solver.t) (e : exn) :
  fst (evaluate z3_check r_map acl_db global src_id dst_id ip_str s) = Err e ->
  exists left,
    Solver.scopes
      (snd (evaluate z3_check r_map acl_db global src_id dst_id ip_str s))
    = left :: Solver.scopes s
    /\ (left = []
        \/ (global = false
            /\ exists ip_val,
                 ip_str_to_int ip_str = Ok ip_val
                 /\ left = [IntEq target_ip_var (IntVal ip_val)])).
Proof.
  destruct global; cbn [evaluate]; unfold check_mono, check_hybrid.
  - destruct (Dict.lookup r_map src_id) as [src |];
      [| intros _; exists []; auto].
    destruct (Dict.lookup r_map dst_id) as [dst |];
      [| intros _; exists []; auto].
    destruct (ip_str_to_int ip_str) as [ip_val |];
      [| intros _; exists []; auto].
    rewrite pop_add_add_push. discriminate.
  - destruct (Dict.lookup r_map src_id) as [src |];
      [| intros _; exists []; auto].
    destruct (Dict.lookup r_map dst_id) as [dst |];
      [| intros _; exists []; auto].
    destruct (ip_str_to_int ip_str) as [ip_val |];
      [| intros _; exists []; auto].
    destruct (build_acl_logic target_ip_var _) as [x |].
    + rewrite pop_add_add_push. discriminate.
    + intros _. exists [IntEq target_ip_var (IntVal ip_val)].
      split; [destruct s as [base scs]; reflexivity |].
      right. split; [reflexivity |]. eauto.
Qed.

(** A query about a router id that [r_map] does not hold raises
    [KeyError] with the new scope open and nothing else done. *)
Lemma evaluate_missing (global : bool) (src_id dst_id ip_str : string)
      (s : Solver.t) :
  Dict.get r_map src_id = None \/ Dict.get r_map dst_id = None ->
  exists k,
    evaluate z3_check r_map acl_db global src_id dst_id ip_str s
    = (Err (KeyError k), Solver.push s)
    /\ (k = src_id \/ k = dst_id)
    /\ Dict.get r_map k = None.
Proof.
  intros Hmiss.
  destruct (Dict.get r_map src_id) as [src |] eqn:Hsrc.
  - destruct Hmiss as [Hmiss | Hdst]; [discriminate |].
    exists dst_id.
    destruct global; cbn [evaluate]; unfold check_mono, check_hybrid, Dict.lookup;
      rewrite Hsrc, Hdst; auto.
  - exists src_id.
    destruct global; cbn [evaluate]; unfold check_mono, check_hybrid, Dict.lookup;
      rewrite Hsrc; auto.
Qed.

End QueryFacts.

(** *** The reference network

    PE1 and PE2 are neighbours and share one route target; PE1 filters
    with [pe1_filters]; P1 has no VPN configuration. *)

Definition ref_topo : topology :=
  {| nodes := ["PE1"; "PE2"; "P1"];
     ibgp_pe_mesh := Some [["PE1"; "PE2"]] |}.

Definition ref_conf : config :=
  {| vpn_network_intents :=
       [{| pe_id := "PE1"; export_rt := Some ["65000:1"];
           import_rt := Some ["65000:1"];
           import_route_filters :=
             Some [filter 30 "10.0.0.0/8" "permit";
                   filter 10 "192.168.1.0/24" "permit";
                   filter 20 "10.0.1.0/24" "deny"] |};
        {| pe_id := "PE2"; export_rt := Some ["65000:1"];
           import_rt := Some ["65000:1"];
           import_route_filters := None |}] |}.

Definition ref_base : Solver.t :=
  match load_base_constraints ref_topo ref_conf with
  | Ok (solver, _, _, _) => solver
  | Err _ => Solver.empty
  end.

Definition ref_r_map : Dict.t router_term :=
  match load_base_constraints ref_topo ref_conf with
  | Ok (_, r_map, _, _) => r_map
  | Err _ => []
  end.

Definition ref_acl_db : Dict.t (list rule) :=
  match load_base_constraints ref_topo ref_conf with
  | Ok (_, _, _, acl_db) => acl_db
  | Err _ => []
  end.

Definition ref_mono_session : Solver.t :=
  match monolithic_session ref_base ref_r_map ref_acl_db with
  | Ok s => s
  | Err _ => Solver.empty
  end.

(** A solver that never decides. *)
Definition undecided (_ : list bexpr) : check_result := unknown.

(** *** Scope isolation *)

Lemma run_queries_cons_ok (z3_check : list bexpr -> check_result)
      (r_map : Dict.t router_term) (acl_db : Dict.t (list rule))
      (global : bool) (src_id dst_id ip_str : string)
      (rest : list (string * string * string)) (s : Solver.t)
      (v : check_result) :
  fst (evaluate z3_check r_map acl_db global src_id dst_id ip_str s) = Ok v ->
  run_queries (evaluate z3_check r_map acl_db global)
    ((src_id, dst_id, ip_str) :: rest) s
  = match run_queries (evaluate z3_check r_map acl_db global) rest s with
    | (Err e, s') => (Err e, s')
    | (Ok rs, s') => (Ok (v :: rs), s')
    end.
Proof.
  intros Hv. apply evaluate_ok in Hv.
  cbn [run_queries]. rewrite Hv. reflexivity.
Qed.

(** C7, as amended.  Under either encoding a query that returns a
    verdict leaves the whole solver as it was.  Hence a query asked
    twice gives its verdict twice; asked before and after another query
    it gives both times its verdict alone; and two queries give their
    verdicts in either order.  A query that raises leaves the
    assertions made outside all scopes as they were, as every query
    does, but leaves open the scope it opened: empty, or, under Mode B
    when the chain of the destination does not compile, holding the
    equation of the target address. *)
Theorem evaluate_scope_isolation (z3_check : list bexpr -> check_result)
        (r_map : Dict.t router_term) (acl_db : Dict.t (list rule))
        (global : bool) :
  let ev := evaluate z3_check r_map acl_db global in
  (forall src dst ip s,
      Solver.base_assertions (snd (ev src dst ip s)) = Solver.base_assertions s)
  /\ (forall src dst ip s v,
         fst (ev src dst ip s) = Ok v -> snd (ev src dst ip s) = s)
  /\ (forall src dst ip s e,
         fst (ev src dst ip s) = Err e ->
         exists left,
           Solver.scopes (snd (ev src dst ip s)) = left :: Solver.scopes s
           /\ (left = []
               \/ (global = false
                   /\ exists ip_val,
                        ip_str_to_int ip = Ok ip_val
                        /\ left = [IntEq target_ip_var (IntVal ip_val)])))
  /\ (forall src dst ip s v,
         fst (ev src dst ip s) = Ok v ->
         fst (run_queries ev [(src, dst, ip); (src, dst, ip)] s) = Ok [v; v])
  /\ (forall src dst ip src' dst' ip' s va vb,
         fst (ev src dst ip s) = Ok va ->
         fst (ev src' dst' ip' s) = Ok vb ->
         fst (run_queries ev
                [(src, dst, ip); (src', dst', ip'); (src, dst, ip)] s)
         = Ok [va; vb; va]
         /\ fst (run_queries ev [(src, dst, ip); (src', dst', ip')] s)
            = Ok [va; vb]
         /\ fst (run_queries ev [(src', dst', ip'); (src, dst, ip)] s)
            = Ok [vb; va]).
Proof.
  cbv zeta.
  split; [| split; [| split; [| split]]].
  - intros. apply evaluate_base.
  - intros src dst ip s v Hv. rewrite (evaluate_ok _ _ _ _ _ _ _ _ _ Hv).
    reflexivity.
  - intros src dst ip s e He. apply (evaluate_err _ _ _ _ _ _ _ _ _ He).
  - intros src dst ip s v Hv.
    rewrite !(run_queries_cons_ok _ _ _ _ _ _ _ _ _ _ Hv). reflexivity.
  - intros src dst ip src' dst' ip' s va vb Ha Hb.
    rewrite ?(run_queries_cons_ok _ _ _ _ _ _ _ _ _ _ Ha),
            ?(run_queries_cons_ok _ _ _ _ _ _ _ _ _ _ Hb),
            ?(run_queries_cons_ok _ _ _ _ _ _ _ _ _ _ Ha).
    repeat split.
Qed.

Lemma evaluate_scope_isolation_witness :
  fst (run_queries (evaluate undecided ref_r_map ref_acl_db false)
         [("PE2", "PE1", "10.0.1.100"); ("PE1", "PE2", "192.168.1.1");
          ("PE2", "PE1", "10.0.1.100")]
         (hybrid_session ref_base))
  = Ok [unknown; unknown; unknown]
  /\ exists left,
       Solver.scopes
         (snd (evaluate undecided ref_r_map ref_acl_db false
                 "PE2" "PE1" "10.0.1" (hybrid_session ref_base)))
       = left :: Solver.scopes (hybrid_session ref_base).
Proof.
  destruct (evaluate_scope_isolation undecided ref_r_map ref_acl_db false)
    as (_ & _ & Herr & _ & Haba).
  split.
  - apply Haba; vm_compute; reflexivity.
  - destruct (Herr "PE2" "PE1" "10.0.1" (hybrid_session ref_base)
                AddressValueError) as (left & Hleft & _);
      [vm_compute; reflexivity | eauto].
Defined.

(** *** Unknown routers *)

Lemma assertions_push (s : Solver.t) :
  Solver.assertions (Solver.push s) = Solver.assertions s.
Proof.
  destruct s as [base scs]. unfold Solver.assertions. cbn.
  rewrite concat_app. cbn. rewrite app_nil_r. reflexivity.
Qed.

Lemma assertions_add_push (e : bexpr) (s : Solver.t) :
  Solver.assertions (Solver.add e (Solver.push s)) = Solver.assertions s ++ [e].
Proof.
  destruct s as [base scs]. unfold Solver.assertions. cbn.
  rewrite concat_app. cbn. rewrite ?app_nil_r, app_assoc. reflexivity.
Qed.

(** C6, as amended.  A query naming a router id that [r_map] lacks
    raises [KeyError] for that id under either encoding, once the scope
    is open and before any assertion or check: the solver is left with
    the new, empty scope, and the exception ends the run of queries.
    The two benchmark functions ask their queries only when PE1 and PE2
    are both in [r_map], and otherwise ask none. *)
Theorem evaluate_unknown_router (z3_check : list bexpr -> check_result)
        (r_map : Dict.t router_term) (acl_db : Dict.t (list rule))
        (global : bool) (src_id dst_id ip_str : string)
        (rest : list (string * string * string)) (s : Solver.t) :
  (Dict.get r_map src_id = None \/ Dict.get r_map dst_id = None ->
   exists k,
     evaluate z3_check r_map acl_db global src_id dst_id ip_str s
     = (Err (KeyError k), Solver.push s)
     /\ (k = src_id \/ k = dst_id)
     /\ Dict.get r_map k = None
     /\ Solver.assertions (Solver.push s) = Solver.assertions s
     /\ Solver.scopes (Solver.push s) = [] :: Solver.scopes s
     /\ fst (run_queries (evaluate z3_check r_map acl_db global)
               ((src_id, dst_id, ip_str) :: rest) s)
        = Err (KeyError k))
  /\ (Dict.mem r_map "PE1" && Dict.mem r_map "PE2" = false ->
      run_hybrid_benchmark z3_check r_map acl_db s = Ok []
      /\ forall s', monolithic_session s r_map acl_db = Ok s' ->
           run_monolithic_benchmark z3_check r_map acl_db s = Ok []).
Proof.
  split.
  - intros Hmiss.
    destruct (evaluate_missing z3_check r_map acl_db global src_id dst_id
                ip_str s Hmiss) as (k & Hrun & Hk & Hget).
    exists k. repeat (split; [first [assumption | reflexivity
                                    | apply assertions_push] |]).
    cbn [run_queries]. rewrite Hrun. reflexivity.
  - intros Hguard. split.
    + unfold run_hybrid_benchmark. rewrite Hguard. reflexivity.
    + intros s' Hs'. unfold run_monolithic_benchmark.
      rewrite Hs'. cbn [bind]. rewrite Hguard. reflexivity.
Qed.

Lemma evaluate_unknown_router_witness :
  fst (run_queries (evaluate undecided ref_r_map ref_acl_db true)
         [("PE9", "PE1", "10.0.1.100"); ("PE2", "PE1", "10.0.1.100")]
         ref_mono_session)
  = Err (KeyError "PE9").
Proof.
  destruct (evaluate_unknown_router undecided ref_r_map ref_acl_db true
              "PE9" "PE1" "10.0.1.100" [("PE2", "PE1", "10.0.1.100")]
              ref_mono_session) as [Hmiss _].
  destruct Hmiss as (k & Hrun & _ & _ & _ & _ & Hrest).
  - left. reflexivity.
  - vm_compute in Hrun. injection Hrun as <-. exact Hrest.
Defined.

(** C6, as stated, fails: with PE9 absent from the reference network,
    the query of either encoding raises [KeyError] only after [push],
    leaving a scope open on a solver that had none, and the query that
    follows in the run is not evaluated. *)
Lemma unknown_router_counterexample :
  Dict.get ref_r_map "PE9" = None
  /\ Solver.scopes ref_mono_session = []
  /\ fst (check_mono undecided ref_r_map "PE9" "PE1" "10.0.1.100"
            ref_mono_session) = Err (KeyError "PE9")
  /\ Solver.scopes
       (snd (check_mono undecided ref_r_map "PE9" "PE1" "10.0.1.100"
               ref_mono_session)) = [[]]
  /\ fst (check_hybrid undecided ref_r_map ref_acl_db "PE2" "PE9" "10.0.1.100"
            (hybrid_session ref_base)) = Err (KeyError "PE9")
  /\ Solver.scopes
       (snd (check_hybrid undecided ref_r_map ref_acl_db "PE2" "PE9"
               "10.0.1.100" (hybrid_session ref_base))) = [[]]
  /\ fst (check_mono undecided ref_r_map "PE2" "PE1" "10.0.1.100"
            ref_mono_session) = Ok unknown
  /\ fst (run_queries (check_mono undecided ref_r_map)
            [("PE9", "PE1", "10.0.1.100"); ("PE2", "PE1", "10.0.1.100")]
            ref_mono_session) = Err (KeyError "PE9").
Proof.
  vm_compute. repeat split.
Qed.

(** ** Dictionaries *)

Lemma str_in_In (s : string) (l : list string) :
  str_in s l = true <-> In s l.
Proof.
  unfold str_in. rewrite existsb_exists. split.
  - intros (y & Hy & Heq). apply String.eqb_eq in Heq. subst y. exact Hy.
  - intros H. exists s. split; [exact H | apply String.eqb_refl].
Qed.

Lemma get_set (V : Type) (d : Dict.t V) (k k' : string) (v : V) :
  Dict.get (Dict.set d k v) k'
  = if String.eqb k k' then Some v else Dict.get d k'.
Proof.
  induction d as [| [k0 v0] d IH]; cbn [Dict.set Dict.get].
  - reflexivity.
  - destruct (String.eqb_spec k0 k) as [-> | Hne]; cbn [Dict.get].
    + destruct (String.eqb k k'); reflexivity.
    + rewrite IH. destruct (String.eqb_spec k0 k') as [-> | Hne'];
        [| reflexivity].
      destruct (String.eqb_spec k k') as [-> | _]; [contradiction Hne |];
        reflexivity.
Qed.

Lemma keys_set (V : Type) (d : Dict.t V) (k k' : string) (v : V) :
  In k' (Dict.keys (Dict.set d k v)) <-> k' = k \/ In k' (Dict.keys d).
Proof.
  unfold Dict.keys.
  induction d as [| [k0 v0] d IH]; cbn [Dict.set map In fst].
  - intuition.
  - destruct (String.eqb_spec k0 k) as [-> | Hne]; cbn [map In fst].
    + intuition.
    + rewrite IH. intuition.
Qed.

Lemma keys_set_NoDup (V : Type) (d : Dict.t V) (k : string) (v : V) :
  NoDup (Dict.keys d) -> NoDup (Dict.keys (Dict.set d k v)).
Proof.
  unfold Dict.keys.
  induction d as [| [k0 v0] d IH]; cbn [Dict.set map fst]; intros Hnd.
  - constructor; [intros [] | constructor].
  - inversion Hnd as [| ? ? Hnotin Hnd']; subst.
    destruct (String.eqb_spec k0 k) as [-> | Hne]; cbn [map fst].
    + constructor; assumption.
    + constructor; [| apply IH; exact Hnd'].
      intros Hin. apply (keys_set V d k k0 v) in Hin.
      destruct Hin as [-> | Hin]; [apply Hne; reflexivity | contradiction].
Qed.

Lemma get_In (V : Type) (d : Dict.t V) (k : string) (v : V) :
  Dict.get d k = Some v -> In (k, v) d.
Proof.
  induction d as [| [k0 v0] d IH]; cbn [Dict.get]; [discriminate |].
  destruct (String.eqb_spec k0 k) as [-> | Hne].
  - intros H. injection H as <-. left. reflexivity.
  - intros H. right. apply IH. exact H.
Qed.

Lemma In_get (V : Type) (d : Dict.t V) (k : string) (v : V) :
  NoDup (Dict.keys d) -> In (k, v) d -> Dict.get d k = Some v.
Proof.
  unfold Dict.keys.
  induction d as [| [k0 v0] d IH]; cbn [Dict.get map fst]; intros Hnd Hin.
  - destruct Hin.
  - inversion Hnd as [| ? ? Hnotin Hnd']; subst.
    destruct Hin as [Heq | Hin].
    + injection Heq as -> ->. rewrite String.eqb_refl. reflexivity.
    + destruct (String.eqb_spec k0 k) as [-> | Hne]; [| apply IH; assumption].
      exfalso. apply Hnotin. apply (in_map fst) in Hin. exact Hin.
Qed.

Lemma get_None_keys (V : Type) (d : Dict.t V) (k : string) :
  Dict.get d k = None <-> ~ In k (Dict.keys d).
Proof.
  unfold Dict.keys.
  induction d as [| [k0 v0] d IH]; cbn [Dict.get map fst In].
  - intuition.
  - destruct (String.eqb_spec k0 k) as [-> | Hne].
    + split; [discriminate | intros H; exfalso; apply H; left; reflexivity].
    + rewrite IH. intuition.
Qed.

(** ** The loaded model *)

(** Lines 76-80. *)
Definition make_r_map (ids : list string) : Dict.t router_term :=
  fold_left (fun m nid => Dict.set m nid (router_const nid)) ids [].

Lemma fold_r_map_get (ids : list string) :
  forall (m : Dict.t router_term) (k : string),
    Dict.get (fold_left (fun m nid => Dict.set m nid (router_const nid)) ids m) k
    = if str_in k ids then Some (router_const k) else Dict.get m k.
Proof.
  induction ids as [| id ids IH]; intros m k; cbn [fold_left].
  - reflexivity.
  - rewrite IH, get_set. unfold str_in. cbn [existsb].
    fold (str_in k ids).
    destruct (str_in k ids); [rewrite orb_true_r; reflexivity |].
    rewrite orb_false_r, (String.eqb_sym k id).
    destruct (String.eqb_spec id k) as [-> | _]; reflexivity.
Qed.

Lemma make_r_map_get (ids : list string) (k : string) :
  Dict.get (make_r_map ids) k
  = if str_in k ids then Some (router_const k) else None.
Proof.
  unfold make_r_map. rewrite fold_r_map_get. reflexivity.
Qed.

Lemma fold_r_map_NoDup (ids : list string) :
  forall m : Dict.t router_term,
    NoDup (Dict.keys m) ->
    NoDup (Dict.keys
             (fold_left (fun m nid => Dict.set m nid (router_const nid)) ids m)).
Proof.
  induction ids as [| id ids IH]; intros m Hm; cbn [fold_left].
  - exact Hm.
  - apply IH. apply keys_set_NoDup. exact Hm.
Qed.

Lemma make_r_map_items (ids : list string) (nid : string) (r : router_term) :
  In (nid, r) (make_r_map ids) <-> In nid ids /\ r = router_const nid.
Proof.
  assert (Hnd : NoDup (Dict.keys (make_r_map ids)))
    by (apply fold_r_map_NoDup; constructor).
  split.
  - intros Hin. apply (In_get _ _ _ _ Hnd) in Hin.
    rewrite make_r_map_get in Hin.
    destruct (str_in nid ids) eqn:Hs; [| discriminate].
    injection Hin as <-. apply str_in_In in Hs. auto.
  - intros [Hin ->]. apply get_In. rewrite make_r_map_get.
    apply str_in_In in Hin. rewrite Hin. reflexivity.
Qed.

(** Lines 115-127, the two results apart: the constraints added and
    the chains given to the routers without configuration. *)
Definition default_acls (pe_conf_map : Dict.t intent)
           (r_map : Dict.t router_term) (acl_db : Dict.t (list rule))
  : Dict.t (list rule) :=
  fold_left (fun acl (item : string * router_term) =>
               match Dict.get pe_conf_map (fst item) with
               | Some _ => acl
               | None => Dict.set acl (fst item) []
               end) r_map acl_db.

Definition all_rt_constraints (pe_conf_map : Dict.t intent)
           (rt_z3_map : Dict.t rt_term) (r_map : Dict.t router_term)
  : list bexpr :=
  flat_map (fun item : string * router_term =>
              rt_constraints pe_conf_map rt_z3_map (fst item) (snd item))
           r_map.

Lemma fold_configure_router (pe_conf_map : Dict.t intent)
      (rt_z3_map : Dict.t rt_term) (r_map : Dict.t router_term) :
  forall (solver : Solver.t) (acl_db : Dict.t (list rule)),
    fold_left (configure_router pe_conf_map rt_z3_map) r_map (solver, acl_db)
    = (Solver.add_all (all_rt_constraints pe_conf_map rt_z3_map r_map) solver,
       default_acls pe_conf_map r_map acl_db).
Proof.
  unfold all_rt_constraints, default_acls.
  induction r_map as [| [nid r] items IH]; intros solver acl_db;
    cbn [fold_left flat_map].
  - reflexivity.
  - cbn [configure_router fst snd]. rewrite IH. f_equal.
    unfold Solver.add_all. rewrite fold_left_app. reflexivity.
Qed.

(** What a successful load returns, part by part. *)
Lemma load_base_constraints_ok (topo : topology) (conf : config)
      (solver : Solver.t) (r_map : Dict.t router_term)
      (rt_map : Dict.t rt_term) (acl_db : Dict.t (list rule)) :
  load_base_constraints topo conf = Ok (solver, r_map, rt_map, acl_db) ->
  exists true_pairs pe_conf_map all_rt_strs acl0,
    nodes topo <> []
    /\ r_map = make_r_map (nodes topo)
    /\ match ibgp_pe_mesh topo with
       | Some sessions => collect_true_pairs r_map sessions []
       | None => Ok []
       end = Ok true_pairs
    /\ fold_left record_intent (vpn_network_intents conf) ([], [], [])
       = (pe_conf_map, all_rt_strs, acl0)
    /\ rt_map = make_rt_z3_map all_rt_strs
    /\ acl_db = default_acls pe_conf_map r_map acl0
    /\ Solver.scopes solver = []
    /\ Solver.assertions solver
       = DistinctRouter (map router_const (nodes topo))
         :: neighbor_constraints (map router_const (nodes topo)) true_pairs
         ++ match rt_map with
            | [] => []
            | _ => [DistinctRT (map snd rt_map)]
            end
         ++ all_rt_constraints pe_conf_map rt_map r_map.
Proof.
  unfold load_base_constraints. fold (make_r_map (nodes topo)).
  intros H.
  bind_split H as distinct Hdistinct.
  bind_split H as true_pairs Hpairs.
  destruct (fold_left record_intent (vpn_network_intents conf) ([], [], []))
    as [[pe_conf_map all_rt_strs] acl0] eqn:Hintents.
  rewrite fold_configure_router in H.
  injection H as <- <- <- <-.
  exists true_pairs, pe_conf_map, all_rt_strs, acl0.
  assert (Hnodes : nodes topo <> [] /\
                   distinct = DistinctRouter (map router_const (nodes topo))).
  { unfold Distinct_routers in Hdistinct.
    destruct (nodes topo) as [| n ns]; [discriminate |].
    injection Hdistinct as <-. split; [discriminate | reflexivity]. }
  destruct Hnodes as [Hne ->].
  repeat (split; [first [assumption | reflexivity] |]).
  set (s1 := Solver.add_all _ (Solver.add _ Solver.empty)).
  assert (Hs1 : Solver.scopes s1 = [] /\
                Solver.assertions s1
                = DistinctRouter (map router_const (nodes topo))
                  :: neighbor_constraints (map router_const (nodes topo))
                       true_pairs).
  { apply add_all_base_level. reflexivity. }
  destruct Hs1 as [Hsc1 Has1].
  set (s2 := match make_rt_z3_map all_rt_strs with
             | [] => s1
             | _ :: _ => Solver.add _ s1
             end).
  assert (Hs2 : Solver.scopes s2 = [] /\
                Solver.assertions s2
                = Solver.assertions s1
                  ++ match make_rt_z3_map all_rt_strs with
                     | [] => []
                     | _ => [DistinctRT (map snd (make_rt_z3_map all_rt_strs))]
                     end).
  { unfold s2. destruct (make_rt_z3_map all_rt_strs) as [| x xs].
    - rewrite app_nil_r. auto.
    - apply add_base_level. exact Hsc1. }
  destruct Hs2 as [Hsc2 Has2].
  destruct (add_all_base_level
              (all_rt_constraints pe_conf_map (make_rt_z3_map all_rt_strs)
                 (make_r_map (nodes topo))) s2 Hsc2) as [Hsc3 Has3].
  split; [exact Hsc3 |].
  rewrite Has3, Has2, Has1. cbn [app]. rewrite <- app_assoc. reflexivity.
Qed.

(** *** The configuration of a router *)

(** A later intent for the same [pe_id] replaces an earlier one. *)
Definition last_intent (intents : list intent) (nid : string) : option intent :=
  find (fun it => String.eqb (pe_id it) nid) (rev intents).

(** The chain stored for an intent (lines 109-110). *)
Definition chain_of (it : intent) : list rule :=
  sorted rule_index (get_default (import_route_filters it) []).

(** The route targets an intent names. *)
Definition intent_rts (it : intent) : list string :=
  get_default (export_rt it) [] ++ get_default (import_rt it) [].

Lemma last_intent_snoc (intents : list intent) (it : intent) (nid : string) :
  last_intent (intents ++ [it]) nid
  = if String.eqb (pe_id it) nid then Some it else last_intent intents nid.
Proof.
  unfold last_intent. rewrite rev_app_distr. reflexivity.
Qed.

Lemma last_intent_None (intents : list intent) (nid : string) :
  last_intent intents nid = None <-> ~ In nid (map pe_id intents).
Proof.
  unfold last_intent. split.
  - intros Hnone Hin. apply in_map_iff in Hin. destruct Hin as (it & <- & Hin).
    apply in_rev in Hin.
    pose proof (find_none _ _ Hnone it Hin) as Hfalse. cbv beta in Hfalse.
    rewrite String.eqb_refl in Hfalse. discriminate.
  - intros Hnotin.
    destruct (find _ (rev intents)) as [it |] eqn:Hfind; [| reflexivity].
    apply find_some in Hfind. destruct Hfind as [Hin Heq].
    apply String.eqb_eq in Heq. exfalso. apply Hnotin.
    apply in_map_iff. exists it. split; [exact Heq |].
    apply in_rev. exact Hin.
Qed.

Lemma last_intent_Some (intents : list intent) (nid : string) (it : intent) :
  last_intent intents nid = Some it -> In it intents /\ pe_id it = nid.
Proof.
  unfold last_intent. intros Hfind. apply find_some in Hfind.
  destruct Hfind as [Hin Heq]. apply String.eqb_eq in Heq.
  split; [apply in_rev; exact Hin | exact Heq].
Qed.

Lemma fold_set_add_In (l : list string) :
  forall (acc : list string) (x : string),
    In x (fold_left set_add l acc) <-> In x acc \/ In x l.
Proof.
  induction l as [| y l IH]; intros acc x; cbn [fold_left In].
  - intuition.
  - rewrite IH. unfold set_add.
    destruct (str_in y acc) eqn:Hy.
    + apply str_in_In in Hy. intuition; subst; auto.
    + rewrite in_app_iff. cbn [In]. intuition.
Qed.

(** The three tables after the loop over the intents. *)
Lemma fold_record_intent (intents : list intent) :
  forall pe_conf_map all_rt_strs acl0,
    fold_left record_intent intents ([], [], []) = (pe_conf_map, all_rt_strs, acl0) ->
    (forall nid, Dict.get pe_conf_map nid = last_intent intents nid)
    /\ (forall nid,
           Dict.get acl0 nid = option_map chain_of (last_intent intents nid))
    /\ NoDup (Dict.keys acl0)
    /\ (forall rt, In rt all_rt_strs
                   <-> exists it, In it intents /\ In rt (intent_rts it)).
Proof.
  induction intents as [| it intents IH] using rev_ind;
    intros pe_conf_map all_rt_strs acl0.
  - cbn [fold_left]. intros H. injection H as <- <- <-.
    repeat split; try reflexivity; try constructor.
    + intros [].
    + intros (it & [] & _).
  - rewrite fold_left_app. cbn [fold_left].
    destruct (fold_left record_intent intents ([], [], []))
      as [[pcm rts] acl] eqn:Hfold.
    destruct (IH _ _ _ eq_refl) as (Hpcm & Hacl & Hnd & Hrts).
    cbn [record_intent]. intros H. injection H as <- <- <-.
    split; [| split; [| split]].
    + intros nid. rewrite get_set, last_intent_snoc, Hpcm. reflexivity.
    + intros nid. rewrite get_set, last_intent_snoc, Hacl.
      destruct (String.eqb (pe_id it) nid); reflexivity.
    + apply keys_set_NoDup. exact Hnd.
    + intros rt. rewrite !fold_set_add_In, Hrts. unfold intent_rts.
      split.
      * intros [[(it' & Hin & Hrt) | Hex] | Him].
        -- exists it'. split; [apply in_or_app; left; exact Hin | exact Hrt].
        -- exists it. split; [apply in_or_app; right; left; reflexivity |].
           apply in_or_app. left. exact Hex.
        -- exists it. split; [apply in_or_app; right; left; reflexivity |].
           apply in_or_app. right. exact Him.
      * intros (it' & Hin & Hrt). apply in_app_or in Hin.
        destruct Hin as [Hin | [<- | []]].
        -- left. left. exists it'. auto.
        -- apply in_app_or in Hrt. destruct Hrt; auto.
Qed.

Lemma default_acls_get (pe_conf_map : Dict.t intent)
      (r_map : Dict.t router_term) :
  forall (acl_db : Dict.t (list rule)) (k : string),
    Dict.get (default_acls pe_conf_map r_map acl_db) k
    = match Dict.get pe_conf_map k with
      | None => if str_in k (Dict.keys r_map) then Some []
                else Dict.get acl_db k
      | Some _ => Dict.get acl_db k
      end.
Proof.
  unfold default_acls, Dict.keys.
  induction r_map as [| [nid r] items IH]; intros acl_db k;
    cbn [fold_left map fst].
  - destruct (Dict.get pe_conf_map k); reflexivity.
  - rewrite IH. unfold str_in. cbn [existsb]. fold (str_in k (map fst items)).
    destruct (Dict.get pe_conf_map k) as [c |] eqn:Hk.
    + destruct (Dict.get pe_conf_map nid) eqn:Hnid; [reflexivity |].
      rewrite get_set.
      destruct (String.eqb_spec nid k) as [-> | _]; [| reflexivity].
      rewrite Hk in Hnid. discriminate.
    + destruct (str_in k (map fst items));
        [rewrite orb_true_r; reflexivity |].
      rewrite orb_false_r, (String.eqb_sym k nid).
      destruct (Dict.get pe_conf_map nid) eqn:Hnid.
      * destruct (String.eqb_spec nid k) as [-> | _]; [| reflexivity].
        rewrite Hk in Hnid. discriminate.
      * rewrite get_set. reflexivity.
Qed.

Lemma default_acls_NoDup (pe_conf_map : Dict.t intent)
      (r_map : Dict.t router_term) :
  forall acl_db : Dict.t (list rule),
    NoDup (Dict.keys acl_db) ->
    NoDup (Dict.keys (default_acls pe_conf_map r_map acl_db)).
Proof.
  unfold default_acls.
  induction r_map as [| [nid r] items IH]; intros acl_db Hnd; cbn [fold_left].
  - exact Hnd.
  - apply IH. cbn [fst]. destruct (Dict.get pe_conf_map nid); [exact Hnd |].
    apply keys_set_NoDup. exact Hnd.
Qed.

Lemma make_r_map_keys (ids : list string) (k : string) :
  str_in k (Dict.keys (make_r_map ids)) = str_in k ids.
Proof.
  apply eq_true_iff_eq. rewrite !str_in_In.
  pose proof (get_None_keys _ (make_r_map ids) k) as Hnone.
  rewrite make_r_map_get in Hnone.
  destruct (str_in k ids) eqn:Hs.
  - apply str_in_In in Hs. split; [intros _; exact Hs |]. intros _.
    destruct (in_dec string_dec k (Dict.keys (make_r_map ids))) as [Hin | Hnot];
      [exact Hin |].
    apply Hnone in Hnot. discriminate.
  - split.
    + intros Hin. exfalso. apply (proj1 Hnone eq_refl). exact Hin.
    + intros Hin. apply str_in_In in Hin. congruence.
Qed.

Lemma make_rt_z3_map_get (all_rt_strs : list string) (k : string) :
  Dict.get (make_rt_z3_map all_rt_strs) k
  = if str_in k all_rt_strs then Some (rt_const k) else None.
Proof.
  unfold make_rt_z3_map, str_in.
  induction all_rt_strs as [| s l IH]; cbn [map Dict.get existsb].
  - reflexivity.
  - rewrite IH, (String.eqb_sym k s).
    destruct (String.eqb_spec s k) as [-> | _]; reflexivity.
Qed.

Lemma make_rt_z3_map_keys (all_rt_strs : list string) :
  Dict.keys (make_rt_z3_map all_rt_strs) = all_rt_strs.
Proof.
  unfold Dict.keys, make_rt_z3_map. rewrite map_map. cbn [fst]. apply map_id.
Qed.

(** ** Loading does not validate *)

Lemma insert_by_perm (A : Type) (key : A -> Z) (x : A) (l : list A) :
  Permutation (insert_by key x l) (x :: l).
Proof.
  induction l as [| y l IH]; cbn [insert_by].
  - apply Permutation_refl.
  - destruct (key x <=? key y); [apply Permutation_refl |].
    apply Permutation_trans with (y :: x :: l).
    + apply perm_skip. exact IH.
    + apply perm_swap.
Qed.

Lemma sorted_perm (A : Type) (key : A -> Z) (l : list A) :
  Permutation (sorted key l) l.
Proof.
  unfold sorted. induction l as [| x l IH]; cbn [fold_right].
  - apply perm_nil.
  - apply Permutation_trans with (x :: fold_right (insert_by key) [] l).
    + apply insert_by_perm.
    + apply perm_skip. exact IH.
Qed.

Lemma collect_true_pairs_total (r_map : Dict.t router_term)
      (sessions : list (list string)) :
  Forall (fun s => List.length s = 2%nat) sessions ->
  forall true_pairs, exists tp,
    collect_true_pairs r_map sessions true_pairs = Ok tp.
Proof.
  induction 1 as [| s sessions Hlen _ IH]; intros true_pairs;
    cbn [collect_true_pairs].
  - eauto.
  - destruct s as [| n1 [| n2 [| n3 s]]]; try discriminate. apply IH.
Qed.

(** C5, as amended.  [load_base_constraints] checks none of the listed
    conditions: it succeeds whenever the topology has a node and every
    session names two nodes, whatever the router ids, masks, prefixes,
    actions and indices are, and the chain it stores for a router is
    empty or is the filter list of an intent for that router, each
    filter as it was given, in the stable order of the indices. *)
Theorem load_base_constraints_unvalidated (topo : topology) (conf : config) :
  nodes topo <> [] ->
  (forall sessions, ibgp_pe_mesh topo = Some sessions ->
                    Forall (fun s => List.length s = 2%nat) sessions) ->
  exists solver r_map rt_map acl_db,
    load_base_constraints topo conf = Ok (solver, r_map, rt_map, acl_db)
    /\ forall nid rules,
         Dict.get acl_db nid = Some rules ->
         rules = []
         \/ exists it,
              In it (vpn_network_intents conf)
              /\ pe_id it = nid
              /\ rules = sorted rule_index
                           (get_default (import_route_filters it) [])
              /\ Permutation rules (get_default (import_route_filters it) []).
Proof.
  intros Hnodes Hsessions.
  assert (Hd : Distinct_routers (map router_const (nodes topo))
               = Ok (DistinctRouter (map router_const (nodes topo)))).
  { destruct (nodes topo); [contradiction Hnodes; reflexivity | reflexivity]. }
  assert (Hc : exists tp,
             match ibgp_pe_mesh topo with
             | Some sessions =>
                 collect_true_pairs (make_r_map (nodes topo)) sessions []
             | None => Ok []
             end = Ok tp).
  { destruct (ibgp_pe_mesh topo) as [sessions |]; [| eauto].
    apply collect_true_pairs_total. apply Hsessions. reflexivity. }
  destruct Hc as [tp Hc].
  unfold load_base_constraints. fold (make_r_map (nodes topo)).
  rewrite Hd. cbn [bind]. rewrite Hc. cbn [bind].
  destruct (fold_left record_intent (vpn_network_intents conf) ([], [], []))
    as [[pe_conf_map all_rt_strs] acl0] eqn:Hintents.
  rewrite fold_configure_router.
  do 4 eexists. split; [reflexivity |].
  destruct (fold_record_intent _ _ _ _ Hintents) as (Hpcm & Hacl & _ & _).
  intros nid rules. rewrite default_acls_get, Hacl, Hpcm.
  destruct (last_intent (vpn_network_intents conf) nid) as [it |] eqn:Hlast.
  - cbn [option_map]. intros H. injection H as <-.
    apply last_intent_Some in Hlast. destruct Hlast as [Hin Hid].
    right. exists it. repeat split; try assumption.
    apply sorted_perm.
  - cbn [option_map]. destruct (str_in nid _); [| discriminate].
    intros H. injection H as <-. left. reflexivity.
Qed.

(** An input with each of the listed defects: a router id given
    twice, a mask length of 40, a prefix that is no address, an action
    that is neither permit nor deny, and twice the index 5. *)
Definition bad_topo : topology :=
  {| nodes := ["PE1"; "PE1"]; ibgp_pe_mesh := None |}.

Definition bad_filters : list rule :=
  [{| index := Some 5; prefix := Some "10.0.0.0"; mask := Some (JInt 40);
      action := Some "permit" |};
   {| index := Some 5; prefix := Some "not-an-ip"; mask := Some (JInt 24);
      action := Some "deny" |};
   {| index := Some 7; prefix := Some "10.0.0.0/8"; mask := None;
      action := Some "drop" |}].

Definition bad_conf : config :=
  {| vpn_network_intents :=
       [{| pe_id := "PE1"; export_rt := None; import_rt := None;
           import_route_filters := Some bad_filters |}] |}.

Lemma load_base_constraints_unvalidated_witness :
  exists solver r_map rt_map acl_db,
    load_base_constraints bad_topo bad_conf
    = Ok (solver, r_map, rt_map, acl_db)
    /\ Permutation (get_default (Dict.get acl_db "PE1") []) bad_filters.
Proof.
  destruct (load_base_constraints_unvalidated bad_topo bad_conf)
    as (solver & r_map & rt_map & acl_db & Hload & Hchains).
  - discriminate.
  - discriminate.
  - exists solver, r_map, rt_map, acl_db. split; [exact Hload |].
    assert (Hacl : acl_db = [("PE1", bad_filters)])
      by (vm_compute in Hload; injection Hload as _ _ _ <-; reflexivity).
    destruct (Hchains "PE1" bad_filters) as [Hnil | (it & Hin & _ & _ & Hperm)].
    + rewrite Hacl. reflexivity.
    + discriminate Hnil.
    + rewrite Hacl. cbn [Dict.get get_default]. rewrite String.eqb_refl.
      destruct Hin as [<- | []]. exact Hperm.
Defined.

(** C5, as stated, fails: the input with all five defects loads, the
    defective filters are stored as they are, and they only show
    later, when the chain is compiled: as a [ValueError] for the mask,
    as an [AddressValueError] for the prefix, and not at all for the
    action, read as permit. *)
Lemma load_accepts_malformed_counterexample :
  ~ NoDup (nodes bad_topo)
  /\ (exists solver r_map rt_map,
        load_base_constraints bad_topo bad_conf
        = Ok (solver, r_map, rt_map, [("PE1", bad_filters)]))
  /\ map index bad_filters = [Some 5; Some 5; Some 7]
  /\ map (fun r => build_acl_logic sym_ip [r]) bad_filters
     = [Err ValueError; Err AddressValueError;
        Ok (If (And [Ge sym_ip (IntVal 167772160);
                     Le sym_ip (IntVal 184549375)])
               (BoolVal false) (BoolVal false))].
Proof.
  split; [| split; [| split]].
  - intros Hnd. inversion Hnd as [| ? ? Hnotin _]. apply Hnotin. left.
    reflexivity.
  - do 3 eexists. vm_compute. reflexivity.
  - reflexivity.
  - vm_compute. reflexivity.
Qed.

(** ** The relations of the loaded model *)

(** Two ids that name one Z3 constant. *)
Definition same_symbol (a b : string) : bool :=
  String.eqb (z3_symbol a) (z3_symbol b).

(** A session of the mesh between two listed nodes names the two
    routers, in either order. *)
Definition session_links (ids : list string) (sessions : list (list string))
           (n1 n2 : string) : bool :=
  existsb (fun s =>
             match s with
             | [a; b] =>
                 str_in a ids && str_in b ids
                 && ((same_symbol a n1 && same_symbol b n2)
                     || (same_symbol a n2 && same_symbol b n1))
             | _ => false
             end) sessions.

Definition linked (topo : topology) (n1 n2 : string) : bool :=
  match ibgp_pe_mesh topo with
  | Some sessions => session_links (nodes topo) sessions n1 n2
  | None => false
  end.

(** Membership of a route target in the import or export list of the
    intent in force for a router; false without one. *)
Definition rt_member (field : intent -> option (list string))
           (intents : list intent) (nid rt : string) : bool :=
  match last_intent intents nid with
  | Some c => str_in rt (get_default (field c) [])
  | None => false
  end.

Lemma session_links_sym (ids : list string) (sessions : list (list string))
      (n1 n2 : string) :
  session_links ids sessions n1 n2 = session_links ids sessions n2 n1.
Proof.
  unfold session_links. induction sessions as [| s l IH]; cbn [existsb].
  - reflexivity.
  - rewrite IH. f_equal.
    destruct s as [| a [| b [| c s]]]; try reflexivity.
    f_equal. apply orb_comm.
Qed.

Lemma linked_sym (topo : topology) (n1 n2 : string) :
  linked topo n1 n2 = linked topo n2 n1.
Proof.
  unfold linked. destruct (ibgp_pe_mesh topo); [| reflexivity].
  apply session_links_sym.
Qed.

(** [linked] only looks at the constants of the two routers. *)
Lemma linked_symbol (topo : topology) (n1 n2 n1' n2' : string) :
  z3_symbol n1 = z3_symbol n1' -> z3_symbol n2 = z3_symbol n2' ->
  linked topo n1 n2 = linked topo n1' n2'.
Proof.
  intros H1 H2. unfold linked, session_links, same_symbol.
  rewrite H1, H2. reflexivity.
Qed.

Lemma pair_in_app (p : router_term * router_term)
      (l1 l2 : list (router_term * router_term)) :
  pair_in p (l1 ++ l2) = pair_in p l1 || pair_in p l2.
Proof.
  unfold pair_in. apply existsb_app.
Qed.

Lemma collect_true_pairs_links (ids : list string)
      (sessions : list (list string)) :
  forall true_pairs tp,
    collect_true_pairs (make_r_map ids) sessions true_pairs = Ok tp ->
    forall n1 n2,
      pair_in (router_const n1, router_const n2) tp
      = pair_in (router_const n1, router_const n2) true_pairs
        || session_links ids sessions n1 n2.
Proof.
  induction sessions as [| s sessions IH]; intros true_pairs tp;
    cbn [collect_true_pairs].
  - intros H. injection H as <-. intros. cbn. rewrite orb_false_r. reflexivity.
  - destruct s as [| a [| b [| c s]]]; try discriminate.
    intros H n1 n2. rewrite (IH _ _ H n1 n2).
    cbn [session_links existsb]. fold (session_links ids sessions n1 n2).
    rewrite orb_assoc. f_equal.
    rewrite !make_r_map_get.
    destruct (str_in a ids); [destruct (str_in b ids) |]; cbn [andb];
      rewrite ?orb_false_r; try reflexivity.
    rewrite pair_in_app. f_equal.
    unfold pair_in, router_eqb, same_symbol, router_const.
    cbn [existsb fst snd router_name].
    rewrite orb_false_r. f_equal. apply andb_comm.
Qed.

Lemma load_pairs_linked (topo : topology)
      (tp : list (router_term * router_term)) :
  match ibgp_pe_mesh topo with
  | Some sessions => collect_true_pairs (make_r_map (nodes topo)) sessions []
  | None => Ok []
  end = Ok tp ->
  forall n1 n2,
    pair_in (router_const n1, router_const n2) tp = linked topo n1 n2.
Proof.
  intros Hpairs n1 n2. unfold linked.
  destruct (ibgp_pe_mesh topo) as [sessions |].
  - rewrite (collect_true_pairs_links _ _ _ _ Hpairs n1 n2). reflexivity.
  - injection Hpairs as <-. reflexivity.
Qed.

Lemma in_neighbor_constraints (x : bexpr) (routers : list router_term)
      (tp : list (router_term * router_term)) :
  In x (neighbor_constraints routers tp)
  <-> exists r1 r2,
        In r1 routers /\ In r2 routers
        /\ x = BoolEq (Ibgp_Neighbor r1 r2) (BoolVal (pair_in (r1, r2) tp)).
Proof.
  unfold neighbor_constraints. rewrite in_flat_map. split.
  - intros (r1 & H1 & Hx). apply in_map_iff in Hx.
    destruct Hx as (r2 & <- & H2). eauto.
  - intros (r1 & r2 & H1 & H2 & ->). exists r1. split; [exact H1 |].
    apply in_map_iff. eauto.
Qed.

Lemma in_all_rt_constraints (x : bexpr) (pe_conf_map : Dict.t intent)
      (rt_map : Dict.t rt_term) (r_map : Dict.t router_term) :
  In x (all_rt_constraints pe_conf_map rt_map r_map)
  <-> exists nid r rt t,
        In (nid, r) r_map /\ In (rt, t) rt_map
        /\ (x = BoolEq (Has_Import_RT r t)
                  (BoolVal match Dict.get pe_conf_map nid with
                           | Some c => str_in rt (get_default (import_rt c) [])
                           | None => false
                           end)
            \/ x = BoolEq (Has_Export_RT r t)
                     (BoolVal match Dict.get pe_conf_map nid with
                              | Some c => str_in rt (get_default (export_rt c) [])
                              | None => false
                              end)).
Proof.
  unfold all_rt_constraints. rewrite in_flat_map. split.
  - intros ([nid r] & Hr & Hx). cbn [fst snd] in Hx.
    unfold rt_constraints in Hx.
    destruct (Dict.get pe_conf_map nid) as [c |] eqn:Hget;
      apply in_flat_map in Hx; destruct Hx as ([rt t] & Ht & Hx);
      exists nid, r, rt, t; (split; [exact Hr |]); (split; [exact Ht |]);
      rewrite Hget; destruct Hx as [<- | [<- | []]]; auto.
  - intros (nid & r & rt & t & Hr & Ht & Hx).
    exists (nid, r). split; [exact Hr |]. cbn [fst snd].
    unfold rt_constraints.
    destruct (Dict.get pe_conf_map nid) as [c |];
      apply in_flat_map; exists (rt, t); (split; [exact Ht |]);
      destruct Hx as [-> | ->]; cbn [In]; auto.
Qed.

(** Two RT strings that differ by a colon against an underscore. *)
Definition collide_conf : config :=
  {| vpn_network_intents :=
       [{| pe_id := "PE1"; export_rt := Some ["65000_1"];
           import_rt := Some ["65000:1"]; import_route_filters := None |};
        {| pe_id := "PE2"; export_rt := Some ["65000:1"];
           import_rt := Some ["65000_1"]; import_route_filters := None |}] |}.

Ltac in_list :=
  vm_compute; repeat (first [left; reflexivity | right]).

(** C8, at the failing input.  The configuration loads; line 112
    gives the two RT strings 65000:1 and 65000_1 the one constant
    rt_65000_1; the solver is told that this constant is distinct from
    itself and that PE1 imports it and does not import it: the
    assertions of the loaded model have no model, and the pair of PE1
    and this route target has no definite truth value. *)
Lemma rt_constant_collision :
  exists solver r_map rt_map acl_db,
    load_base_constraints ref_topo collide_conf
    = Ok (solver, r_map, rt_map, acl_db)
    /\ Dict.get rt_map "65000:1" = Some (RTConst "rt_65000_1")
    /\ Dict.get rt_map "65000_1" = Some (RTConst "rt_65000_1")
    /\ In (DistinctRT [RTConst "rt_65000_1"; RTConst "rt_65000_1"])
          (Solver.assertions solver)
    /\ In (BoolEq (Has_Import_RT (RouterConst "PE1") (RTConst "rt_65000_1"))
                  (BoolVal true)) (Solver.assertions solver)
    /\ In (BoolEq (Has_Import_RT (RouterConst "PE1") (RTConst "rt_65000_1"))
                  (BoolVal false)) (Solver.assertions solver)
    /\ ~ satisfiable (Solver.assertions solver).
Proof.
  destruct (load_base_constraints ref_topo collide_conf)
    as [[[[solver r_map] rt_map] acl_db] |] eqn:Hload;
    [| vm_compute in Hload; discriminate].
  exists solver, r_map, rt_map, acl_db.
  split; [reflexivity |].
  vm_compute in Hload. injection Hload as Hs Hr Hm Ha.
  assert (Hd : In (DistinctRT [RTConst "rt_65000_1"; RTConst "rt_65000_1"])
                  (Solver.assertions solver))
    by (rewrite <- Hs; in_list).
  split; [rewrite <- Hm; reflexivity |].
  split; [rewrite <- Hm; reflexivity |].
  split; [exact Hd |].
  split; [rewrite <- Hs; in_list |]. split; [rewrite <- Hs; in_list |].
  intros (I & D & env & HF).
  rewrite Forall_forall in HF. specialize (HF _ Hd).
  cbn [holds map] in HF.
  inversion HF as [| ? ? Hnotin _]. apply Hnotin. left. reflexivity.
Qed.

(** X18.  In the solver a successful load returns: every pair of
    routers of the topology has its adjacency asserted equal to a
    truth value, true exactly when a session of the mesh names the two
    routers, the same for the pair in either order, and no other value
    is asserted for the pair; the route targets are those an intent
    names, and every router of the topology has, for each of them, its
    import and its export membership asserted equal to a truth value,
    its membership in the list of the intent in force, and to no other
    value when no other listed router has the constant of the router
    and no other route target the constant of the route target; and a
    router without an intent has the empty chain and false for every
    membership. *)
Theorem load_base_constraints_relations (topo : topology) (conf : config)
        (solver : Solver.t) (r_map : Dict.t router_term)
        (rt_map : Dict.t rt_term) (acl_db : Dict.t (list rule)) :
  load_base_constraints topo conf = Ok (solver, r_map, rt_map, acl_db) ->
  let A := Solver.assertions solver in
  let intents := vpn_network_intents conf in
  (forall n1 n2, In n1 (nodes topo) -> In n2 (nodes topo) ->
     In (BoolEq (Ibgp_Neighbor (router_const n1) (router_const n2))
                (BoolVal (linked topo n1 n2))) A
     /\ linked topo n1 n2 = linked topo n2 n1
     /\ forall b,
          In (BoolEq (Ibgp_Neighbor (router_const n1) (router_const n2))
                     (BoolVal b)) A ->
          b = linked topo n1 n2)
  /\ (forall rt, In rt (Dict.keys rt_map)
                 <-> exists it, In it intents /\ In rt (intent_rts it))
  /\ (forall nid rt, In nid (nodes topo) -> In rt (Dict.keys rt_map) ->
        Dict.get r_map nid = Some (router_const nid)
        /\ Dict.get rt_map rt = Some (rt_const rt)
        /\ In (BoolEq (Has_Import_RT (router_const nid) (rt_const rt))
                      (BoolVal (rt_member import_rt intents nid rt))) A
        /\ In (BoolEq (Has_Export_RT (router_const nid) (rt_const rt))
                      (BoolVal (rt_member export_rt intents nid rt))) A
        /\ ((forall nid', In nid' (nodes topo) ->
                          z3_symbol nid' = z3_symbol nid -> nid' = nid) ->
            (forall rt', In rt' (Dict.keys rt_map) ->
                         rt_name (rt_const rt') = rt_name (rt_const rt) ->
                         rt' = rt) ->
            forall b,
              (In (BoolEq (Has_Import_RT (router_const nid) (rt_const rt))
                          (BoolVal b)) A ->
               b = rt_member import_rt intents nid rt)
              /\ (In (BoolEq (Has_Export_RT (router_const nid) (rt_const rt))
                             (BoolVal b)) A ->
                  b = rt_member export_rt intents nid rt)))
  /\ (forall nid, In nid (nodes topo) -> ~ In nid (map pe_id intents) ->
        Dict.get acl_db nid = Some []
        /\ forall rt, rt_member import_rt intents nid rt = false
                      /\ rt_member export_rt intents nid rt = false).
Proof.
  intros Hload. cbv zeta.
  destruct (load_base_constraints_ok _ _ _ _ _ _ Hload)
    as (tp & pcm & rts & acl0 & Hnodes & -> & Hpairs & Hintents & ->
        & -> & Hscopes & HA).
  destruct (fold_record_intent _ _ _ _ Hintents) as (Hpcm & Hacl & _ & Hrts).
  pose proof (load_pairs_linked _ _ Hpairs) as Hlink.
  split; [| split; [| split]].
  - intros n1 n2 H1 H2. split; [| split].
    + rewrite HA. right. apply in_or_app. left.
      apply in_neighbor_constraints.
      exists (router_const n1), (router_const n2).
      rewrite (Hlink n1 n2).
      repeat split; apply in_map; assumption.
    + apply linked_sym.
    + intros b Hb. rewrite HA in Hb.
      destruct Hb as [Hb | Hb]; [discriminate |].
      apply in_app_or in Hb. destruct Hb as [Hb | Hb].
      * apply in_neighbor_constraints in Hb.
        destruct Hb as (r1 & r2 & _ & _ & Heq).
        injection Heq as <- <- ->. apply Hlink.
      * apply in_app_or in Hb. destruct Hb as [Hb | Hb].
        -- destruct (make_rt_z3_map rts); [destruct Hb |].
           destruct Hb as [Hb | []]. discriminate.
        -- apply in_all_rt_constraints in Hb.
           destruct Hb as (? & ? & ? & ? & _ & _ & [Heq | Heq]); discriminate.
  - intros rt. rewrite make_rt_z3_map_keys. apply Hrts.
  - intros nid rt Hnid Hrt. rewrite make_rt_z3_map_keys in *.
    assert (Hr : In (nid, router_const nid) (make_r_map (nodes topo)))
      by (apply make_r_map_items; auto).
    assert (Ht : In (rt, rt_const rt) (make_rt_z3_map rts))
      by (unfold make_rt_z3_map; apply in_map_iff; eauto).
    split; [| split; [| split; [| split]]].
    + rewrite make_r_map_get. apply str_in_In in Hnid. rewrite Hnid.
      reflexivity.
    + rewrite make_rt_z3_map_get. apply str_in_In in Hrt. rewrite Hrt.
      reflexivity.
    + rewrite HA. right. apply in_or_app. right. apply in_or_app. right.
      apply in_all_rt_constraints.
      exists nid, (router_const nid), rt, (rt_const rt).
      split; [exact Hr |]. split; [exact Ht |]. left.
      unfold rt_member. rewrite Hpcm. reflexivity.
    + rewrite HA. right. apply in_or_app. right. apply in_or_app. right.
      apply in_all_rt_constraints.
      exists nid, (router_const nid), rt, (rt_const rt).
      split; [exact Hr |]. split; [exact Ht |]. right.
      unfold rt_member. rewrite Hpcm. reflexivity.
    + intros Honly_r Honly_t b.
      assert (Horigin :
                forall x, In x (Solver.assertions solver) ->
                  (exists r t, x = BoolEq (Has_Import_RT r t) (BoolVal b)
                               \/ x = BoolEq (Has_Export_RT r t) (BoolVal b)) ->
                  In x (all_rt_constraints pcm (make_rt_z3_map rts)
                          (make_r_map (nodes topo)))).
      { intros x Hx (r & t & Hshape). rewrite HA in Hx.
        destruct Hx as [<- | Hx]; [destruct Hshape; discriminate |].
        apply in_app_or in Hx. destruct Hx as [Hx | Hx].
        - apply in_neighbor_constraints in Hx.
          destruct Hx as (? & ? & _ & _ & ->). destruct Hshape; discriminate.
        - apply in_app_or in Hx. destruct Hx as [Hx | Hx]; [| exact Hx].
          destruct (make_rt_z3_map rts); [destruct Hx |].
          destruct Hx as [<- | []]. destruct Hshape; discriminate. }
      assert (Hsame : forall nid' r' rt' t',
                 In (nid', r') (make_r_map (nodes topo)) ->
                 In (rt', t') (make_rt_z3_map rts) ->
                 r' = router_const nid -> t' = rt_const rt ->
                 nid' = nid /\ rt' = rt).
      { intros nid' r' rt' t' Hr' Ht' Heq_r Heq_t.
        apply make_r_map_items in Hr'. destruct Hr' as [Hn' ->].
        unfold make_rt_z3_map in Ht'. apply in_map_iff in Ht'.
        destruct Ht' as (x & Hx & Hin'). injection Hx as -> <-.
        split.
        - apply Honly_r; [exact Hn' |].
          unfold router_const in Heq_r. injection Heq_r as Heq_r. exact Heq_r.
        - apply Honly_t; [exact Hin' |]. rewrite Heq_t. reflexivity. }
      split; intros Hb.
      * apply Horigin in Hb; [| eauto].
        apply in_all_rt_constraints in Hb.
        destruct Hb as (nid' & r' & rt' & t' & Hr' & Ht' & [Heq | Heq]);
          [| discriminate].
        injection Heq as Hr_eq Ht_eq Hb_eq.
        destruct (Hsame _ _ _ _ Hr' Ht' (eq_sym Hr_eq) (eq_sym Ht_eq))
          as [-> ->].
        rewrite Hb_eq. unfold rt_member. rewrite Hpcm. reflexivity.
      * apply Horigin in Hb; [| eauto].
        apply in_all_rt_constraints in Hb.
        destruct Hb as (nid' & r' & rt' & t' & Hr' & Ht' & [Heq | Heq]);
          [discriminate |].
        injection Heq as Hr_eq Ht_eq Hb_eq.
        destruct (Hsame _ _ _ _ Hr' Ht' (eq_sym Hr_eq) (eq_sym Ht_eq))
          as [-> ->].
        rewrite Hb_eq. unfold rt_member. rewrite Hpcm. reflexivity.
  - intros nid Hnid Hnone. apply last_intent_None in Hnone.
    split.
    + rewrite default_acls_get, Hpcm, Hnone, make_r_map_keys.
      apply str_in_In in Hnid. rewrite Hnid. reflexivity.
    + intros rt. unfold rt_member. rewrite Hnone. auto.
Qed.

Lemma load_base_constraints_relations_witness :
  In (BoolEq (Ibgp_Neighbor (router_const "PE2") (router_const "PE1"))
             (BoolVal true)) (Solver.assertions ref_base)
  /\ In (BoolEq (Has_Import_RT (router_const "P1") (rt_const "65000:1"))
                (BoolVal false)) (Solver.assertions ref_base)
  /\ (forall b,
        In (BoolEq (Has_Import_RT (router_const "PE1") (rt_const "65000:1"))
                   (BoolVal b)) (Solver.assertions ref_base) ->
        b = true)
  /\ Dict.get ref_acl_db "P1" = Some [].
Proof.
  destruct (load_base_constraints ref_topo ref_conf)
    as [[[[solver r_map] rt_map] acl_db] |] eqn:Hload;
    [| vm_compute in Hload; discriminate].
  destruct (load_base_constraints_relations ref_topo ref_conf solver r_map
              rt_map acl_db Hload) as (Hadj & Hrts & Hmem & Hnone).
  assert (Hbase : ref_base = solver)
    by (unfold ref_base; rewrite Hload; reflexivity).
  assert (Hacl : ref_acl_db = acl_db)
    by (unfold ref_acl_db; rewrite Hload; reflexivity).
  assert (Hkey : In "65000:1" (Dict.keys rt_map)).
  { apply Hrts. eexists. split; [left; reflexivity | left; reflexivity]. }
  rewrite Hbase, Hacl.
  split; [| split; [| split]].
  - apply (Hadj "PE2" "PE1"); cbn; auto.
  - apply (Hmem "P1" "65000:1"); [cbn; auto | exact Hkey].
  - intros b Hb.
    destruct (Hmem "PE1" "65000:1") as (_ & _ & _ & _ & Honly);
      [cbn; auto | exact Hkey |].
    apply (Honly) in Hb; [exact Hb | |].
    + intros nid' Hin Hsym. cbn in Hin.
      destruct Hin as [<- | [<- | [<- | []]]];
        first [reflexivity | vm_compute in Hsym; discriminate].
    + intros rt' Hrt' _. apply Hrts in Hrt'.
      destruct Hrt' as (it & [<- | [<- | []]] & Hin); cbn in Hin;
        destruct Hin as [<- | [<- | []]]; reflexivity.
  - apply (Hnone "P1"); [cbn; auto |].
    cbn. intros [H | [H | []]]; discriminate.
Defined.

(** ** The denotation of expressions *)

(** Where [eval] gives a value, [holds] says the same under every
    interpretation. *)
Lemma eval_holds (I : interp) (D : dom_router I -> Z -> Prop) (e : bexpr) :
  forall (env : int_env) (b : bool),
    eval env e = Some b -> (holds I D env e <-> b = true).
Proof.
  induction e as [b0 | args IH | e1 IH | c t e1 IHc IHt IHe | x y | x y | x y
                  | x y IHx IHy | rs | ts | r1 r2 | r t | r t | r a
                  | vars body IH] using bexpr_ind_nested;
    intros env b; cbn [eval holds]; try discriminate.
  - intros H. injection H as <-. reflexivity.
  - revert b. induction IH as [| x args Hx _ IHargs]; intros b;
      cbn [fold_right].
    + intros H. injection H as <-. intuition.
    + destruct (eval env x) as [bx |] eqn:Ex; [| discriminate].
      destruct (fold_right _ (Some true) args) as [bs |] eqn:Es;
        [| discriminate].
      intros H. injection H as <-.
      rewrite (Hx env bx Ex), (IHargs bs eq_refl).
      rewrite andb_true_iff. reflexivity.
  - destruct (eval env e1) as [b1 |] eqn:E1; [| discriminate].
    cbn [option_map]. intros H. injection H as <-.
    rewrite (IH env b1 E1). destruct b1; cbn; intuition discriminate.
  - destruct (eval env c) as [bc |] eqn:Ec; [| discriminate].
    destruct (eval env t) as [bt |] eqn:Et; [| discriminate].
    destruct (eval env e1) as [be |] eqn:Ee; [| discriminate].
    intros H. injection H as <-.
    rewrite (IHc env bc Ec), (IHt env bt Et), (IHe env be Ee).
    destruct bc; intuition discriminate.
  - intros H. injection H as <-. symmetry. apply Z.leb_le.
  - intros H. injection H as <-. symmetry. apply Z.leb_le.
  - intros H. injection H as <-. symmetry. apply Z.eqb_eq.
  - destruct (eval env x) as [bx |] eqn:Ex; [| discriminate].
    destruct (eval env y) as [by_ |] eqn:Ey; [| discriminate].
    intros H. injection H as <-.
    rewrite (IHx env bx Ex), (IHy env by_ Ey).
    destruct bx, by_; cbn; intuition discriminate.
Qed.

(** An expression without [Is_Prefix_Denied_Global] does not depend on
    the reading of that predicate. *)
Lemma holds_denied_free (I : interp) (D D' : dom_router I -> Z -> Prop)
      (e : bexpr) :
  denied_free e = true ->
  forall env : int_env, holds I D env e <-> holds I D' env e.
Proof.
  induction e as [b0 | args IH | e1 IH | c t e1 IHc IHt IHe | x y | x y | x y
                  | x y IHx IHy | rs | ts | r1 r2 | r t | r t | r a
                  | vars body IH] using bexpr_ind_nested;
    cbn [denied_free holds]; intros Hfree env; try reflexivity;
    try discriminate.
  - induction IH as [| x args Hx _ IHargs]; cbn [fold_right forallb] in *.
    + reflexivity.
    + apply andb_prop in Hfree. destruct Hfree as [Hfx Hfa].
      rewrite (Hx Hfx env), (IHargs Hfa). reflexivity.
  - rewrite (IH Hfree env). reflexivity.
  - apply andb_prop in Hfree. destruct Hfree as [Hfree He].
    apply andb_prop in Hfree. destruct Hfree as [Hc Ht].
    rewrite (IHc Hc env), (IHt Ht env), (IHe He env). reflexivity.
  - apply andb_prop in Hfree. destruct Hfree as [Hx Hy].
    rewrite (IHx Hx env), (IHy Hy env). reflexivity.
  - split; intros H over; apply (IH Hfree); apply H.
Qed.

(** A compiled chain has no quantifier and no uninterpreted
    predicate. *)
Lemma build_acl_logic_plain (ip_var : int_term) (rules : list rule) :
  forall e, build_acl_logic ip_var rules = Ok e ->
            quantifier_free e = true /\ denied_free e = true.
Proof.
  induction rules as [| r rest IH]; intros e H.
  - injection H as <-. split; reflexivity.
  - rewrite build_acl_logic_cons in H.
    bind_split H as c Hc. bind_split H as tail Htail. injection H as <-.
    destruct (IH _ Htail) as [Hq Hd].
    cbn [quantifier_free denied_free forallb andb]. rewrite Hq, Hd.
    split; reflexivity.
Qed.

(** The compiler fails or succeeds whatever the address term is. *)
Lemma build_acl_logic_any_var (v v' : int_term) (rules : list rule) :
  forall e, build_acl_logic v rules = Ok e ->
            exists e', build_acl_logic v' rules = Ok e'.
Proof.
  intros e H. apply build_acl_logic_compiles.
  apply (build_acl_logic_compiles v). eauto.
Qed.

(** The truth of a compiled chain is the verdict of the scan at the
    value of the address term. *)
Lemma build_acl_logic_holds (ip_var : int_term) (rules : list rule)
      (e : bexpr) (chain : list acl_rule) :
  build_acl_logic ip_var rules = Ok e ->
  resolve_chain rules = Ok chain ->
  forall (I : interp) (D : dom_router I -> Z -> Prop) (env : int_env),
    holds I D env e
    <-> first_match_scan chain (int_denote env ip_var) = true.
Proof.
  intros He Hchain I D env.
  destruct (build_acl_logic_resolved _ _ _ He) as (chain' & Hchain' & Heval).
  rewrite Hchain in Hchain'. injection Hchain' as <-.
  apply eval_holds. apply Heval.
Qed.

(** ** The two sessions *)

Definition target_bounds : list bexpr :=
  [Ge target_ip_var (IntVal 0); Le target_ip_var (IntVal 4294967295)].

Lemma fresh_session_assertions (base_solver : Solver.t) :
  Solver.scopes (fresh_session base_solver) = []
  /\ Solver.assertions (fresh_session base_solver)
     = Solver.assertions base_solver ++ target_bounds.
Proof.
  unfold fresh_session, Solver.translate, Solver.add, Solver.assertions.
  cbn. rewrite ?app_nil_r, <- app_assoc. split; reflexivity.
Qed.

(** The quantified definition Mode A asserts for one router. *)
Definition denied_definition (r_const : router_term) (acl_expr : bexpr)
  : bexpr :=
  ForAll ["sym_ip"] (BoolEq (Is_Prefix_Denied_Global r_const sym_ip) acl_expr).

(** The definitions injected for the entries of [acl_db], in order. *)
Inductive injected (r_map : Dict.t router_term)
  : list (string * list rule) -> list bexpr -> Prop :=
| injected_nil : injected r_map [] []
| injected_cons nid rules r_const acl_expr items defs :
    Dict.get r_map nid = Some r_const ->
    build_acl_logic sym_ip rules = Ok acl_expr ->
    injected r_map items defs ->
    injected r_map ((nid, rules) :: items)
             (denied_definition r_const acl_expr :: defs).

Lemma inject_acls_injected (r_map : Dict.t router_term)
      (items : list (string * list rule)) :
  forall s s', inject_acls r_map items s = Ok s' ->
    Solver.scopes s = [] ->
    Solver.scopes s' = []
    /\ exists defs, injected r_map items defs
                    /\ Solver.assertions s' = Solver.assertions s ++ defs.
Proof.
  induction items as [| [nid rules] items IH]; intros s s';
    cbn [inject_acls].
  - intros H Hs. injection H as <-. split; [exact Hs |].
    exists []. split; [constructor | rewrite app_nil_r; reflexivity].
  - intros H Hs.
    bind_split H as r_const Hr. bind_split H as acl_expr Hacl.
    unfold Dict.lookup in Hr.
    destruct (Dict.get r_map nid) as [r |] eqn:Hget; [| discriminate].
    injection Hr as ->.
    destruct (add_base_level (denied_definition r_const acl_expr) s Hs)
      as [Hs1 Ha1].
    destruct (IH _ _ H Hs1) as (Hs' & defs & Hdefs & Ha).
    split; [exact Hs' |].
    exists (denied_definition r_const acl_expr :: defs).
    split; [constructor; assumption |].
    unfold denied_definition in *.
    rewrite Ha, Ha1, <- app_assoc. reflexivity.
Qed.

Lemma injected_lookup (r_map : Dict.t router_term)
      (items : list (string * list rule)) (defs : list bexpr) :
  injected r_map items defs ->
  forall nid rules, In (nid, rules) items ->
    exists r_const acl_expr,
      Dict.get r_map nid = Some r_const
      /\ build_acl_logic sym_ip rules = Ok acl_expr
      /\ In (denied_definition r_const acl_expr) defs.
Proof.
  induction 1 as [| nid0 rules0 r0 e0 items defs Hr He _ IH];
    intros nid rules Hin.
  - destruct Hin.
  - destruct Hin as [Heq | Hin].
    + injection Heq as <- <-. exists r0, e0. cbn [In]. auto.
    + destruct (IH _ _ Hin) as (r & e & Hr' & He' & Hd).
      exists r, e. cbn [In]. auto.
Qed.

Lemma injected_origin (r_map : Dict.t router_term)
      (items : list (string * list rule)) (defs : list bexpr) :
  injected r_map items defs ->
  forall d, In d defs ->
    exists nid rules r_const acl_expr,
      In (nid, rules) items
      /\ Dict.get r_map nid = Some r_const
      /\ build_acl_logic sym_ip rules = Ok acl_expr
      /\ d = denied_definition r_const acl_expr.
Proof.
  induction 1 as [| nid0 rules0 r0 e0 items defs Hr He _ IH]; intros d Hin.
  - destruct Hin.
  - destruct Hin as [<- | Hin].
    + exists nid0, rules0, r0, e0. cbn [In]. auto.
    + destruct (IH _ Hin) as (nid & rules & r & e & Hi & Hr' & He' & ->).
      exists nid, rules, r, e. cbn [In]. auto.
Qed.

(** The assertions of a loaded model have no quantifier and do not
    mention [Is_Prefix_Denied_Global]. *)
Definition plain (e : bexpr) : Prop :=
  quantifier_free e = true /\ denied_free e = true.

Lemma load_base_constraints_plain (topo : topology) (conf : config)
      (solver : Solver.t) (r_map : Dict.t router_term)
      (rt_map : Dict.t rt_term) (acl_db : Dict.t (list rule)) :
  load_base_constraints topo conf = Ok (solver, r_map, rt_map, acl_db) ->
  Forall plain (Solver.assertions solver).
Proof.
  intros Hload.
  destruct (load_base_constraints_ok _ _ _ _ _ _ Hload)
    as (tp & pcm & rts & acl0 & _ & _ & _ & _ & _ & _ & _ & HA).
  rewrite HA. apply Forall_forall. intros x Hx.
  destruct Hx as [<- | Hx]; [split; reflexivity |].
  apply in_app_or in Hx. destruct Hx as [Hx | Hx].
  - apply in_neighbor_constraints in Hx.
    destruct Hx as (r1 & r2 & _ & _ & ->). split; reflexivity.
  - apply in_app_or in Hx. destruct Hx as [Hx | Hx].
    + destruct rt_map; [destruct Hx |].
      destruct Hx as [<- | []]. split; reflexivity.
    + apply in_all_rt_constraints in Hx.
      destruct Hx as (? & ? & ? & ? & _ & _ & [-> | ->]); split; reflexivity.
Qed.

(** Every router of [r_map] has a chain in [acl_db], every entry of
    [acl_db] is listed once, and [r_map] names each router by its id. *)
Lemma load_base_constraints_chains (topo : topology) (conf : config)
      (solver : Solver.t) (r_map : Dict.t router_term)
      (rt_map : Dict.t rt_term) (acl_db : Dict.t (list rule)) :
  load_base_constraints topo conf = Ok (solver, r_map, rt_map, acl_db) ->
  NoDup (Dict.keys acl_db)
  /\ (forall nid r, Dict.get r_map nid = Some r ->
        r = router_const nid /\ In nid (nodes topo)
        /\ exists rules, Dict.get acl_db nid = Some rules)
  /\ In (DistinctRouter (map router_const (nodes topo)))
        (Solver.assertions solver).
Proof.
  intros Hload.
  destruct (load_base_constraints_ok _ _ _ _ _ _ Hload)
    as (tp & pcm & rts & acl0 & _ & -> & _ & Hintents & _ & -> & _ & HA).
  destruct (fold_record_intent _ _ _ _ Hintents) as (Hpcm & Hacl & Hnd & _).
  split; [| split].
  - apply default_acls_NoDup. exact Hnd.
  - intros nid r Hget. rewrite make_r_map_get in Hget.
    destruct (str_in nid (nodes topo)) eqn:Hin; [| discriminate].
    injection Hget as <-. split; [reflexivity |].
    split; [apply str_in_In; exact Hin |].
    rewrite default_acls_get, make_r_map_keys, Hin, Hacl, Hpcm.
    destruct (last_intent (vpn_network_intents conf) nid); cbn; eauto.
  - rewrite HA. left. reflexivity.
Qed.

(** ** Equivalence of the two encodings *)

Lemma NoDup_map_injective (A B : Type) (f : A -> B) (l : list A) :
  NoDup (map f l) ->
  forall x y, In x l -> In y l -> f x = f y -> x = y.
Proof.
  induction l as [| a l IH]; cbn [map]; intros Hnd x y Hx Hy Heq.
  - destruct Hx.
  - inversion Hnd as [| ? ? Hnotin Hnd']; subst.
    destruct Hx as [<- | Hx], Hy as [<- | Hy].
    + reflexivity.
    + exfalso. apply Hnotin. rewrite Heq. apply in_map. exact Hy.
    + exfalso. apply Hnotin. rewrite <- Heq. apply in_map. exact Hx.
    + apply IH; assumption.
Qed.

Lemma Forall_holds_denied_free (I : interp)
      (D D' : dom_router I -> Z -> Prop) (env : int_env) (l : list bexpr) :
  Forall (fun e => denied_free e = true) l ->
  Forall (holds I D env) l -> Forall (holds I D' env) l.
Proof.
  intros Hfree Hholds. apply Forall_forall. intros x Hx.
  rewrite Forall_forall in Hfree, Hholds.
  apply (holds_denied_free I D D' x (Hfree x Hx) env). apply Hholds. exact Hx.
Qed.

Section Equivalence.

Variables (topo : topology) (conf : config).
Variables (base_solver : Solver.t) (r_map : Dict.t router_term)
          (rt_map : Dict.t rt_term) (acl_db : Dict.t (list rule)).
Hypothesis Hload :
  load_base_constraints topo conf = Ok (base_solver, r_map, rt_map, acl_db).

Variable sg : Solver.t.
Hypothesis Hmono : monolithic_session base_solver r_map acl_db = Ok sg.

Variables (dst_id : string) (src dst : router_term) (ip_val : Z).
Hypothesis Hdst : Dict.get r_map dst_id = Some dst.

(** The reading of [Is_Prefix_Denied_Global] the chains define. *)
Definition chain_denied (I : interp) (d : dom_router I) (z : Z) : Prop :=
  exists nid rules chain,
    In (nid, rules) acl_db
    /\ d = i_router I (z3_symbol nid)
    /\ resolve_chain rules = Ok chain
    /\ first_match_scan chain z = true.

(** Under Mode A the solver holds the base model, the bounds and one
    definition per chain; the query of Mode B for the same routers
    and address compiles, its formula has no quantifier, and the two
    sets of assertions are satisfiable together. *)
Lemma sessions_equisatisfiable :
  exists e,
    build_acl_logic target_ip_var (get_default (Dict.get acl_db dst_id) [])
    = Ok e
    /\ Forall (fun x => quantifier_free x = true)
              (Solver.assertions (hybrid_session base_solver)
               ++ hybrid_query src dst ip_val e)
    /\ (satisfiable (Solver.assertions sg ++ mono_query src dst ip_val)
        <-> satisfiable (Solver.assertions (hybrid_session base_solver)
                         ++ hybrid_query src dst ip_val e)).
Proof.
  destruct (load_base_constraints_chains _ _ _ _ _ _ Hload)
    as (Hkeys & Hrmap & Hdistinct).
  pose proof (load_base_constraints_plain _ _ _ _ _ _ Hload) as Hplain.
  destruct (fresh_session_assertions base_solver) as [Hfs Hfa].
  unfold monolithic_session in Hmono.
  destruct (inject_acls_injected _ _ _ _ Hmono Hfs)
    as (_ & defs & Hdefs & Hsg).
  destruct (Hrmap _ _ Hdst) as (-> & Hdst_node & rules & Hrules).
  pose proof (get_In _ _ _ _ Hrules) as Hin_rules.
  destruct (injected_lookup _ _ _ Hdefs _ _ Hin_rules)
    as (r_dst & acl_expr & Hr_dst & Hacl & Hdef).
  rewrite Hdst in Hr_dst. injection Hr_dst as <-.
  destruct (build_acl_logic_resolved _ _ _ Hacl) as (chain & Hchain & _).
  destruct (build_acl_logic_any_var _ target_ip_var _ _ Hacl) as (e & He).
  exists e. rewrite Hrules. cbn [get_default].
  split; [exact He |].
  unfold hybrid_session. rewrite Hsg, Hfa.
  assert (Hbounds_free : Forall (fun x => denied_free x = true)
                                (Solver.assertions base_solver
                                 ++ target_bounds)).
  { apply Forall_app. split.
    - apply (Forall_impl _ (fun x (Hx : plain x) => proj2 Hx) Hplain).
    - repeat constructor. }
  split.
  { rewrite <- app_assoc. apply Forall_app. split.
    - apply (Forall_impl _ (fun x (Hx : plain x) => proj1 Hx) Hplain).
    - destruct (build_acl_logic_plain _ _ _ He) as [Hq _].
      unfold target_bounds, hybrid_query. repeat constructor.
      cbn [quantifier_free forallb andb]. rewrite Hq. reflexivity. }
  (* The scan decides a compiled chain under either address term. *)
  assert (Hsym : forall (I : interp) (D : dom_router I -> Z -> Prop)
                        (env over : int_env) nid' rules' e' chain',
             build_acl_logic sym_ip rules' = Ok e' ->
             resolve_chain rules' = Ok chain' ->
             (holds I D env (denied_definition (router_const nid') e')
              <-> forall z, D (i_router I (z3_symbol nid')) z
                            <-> first_match_scan chain' z = true)).
  { intros I D env _ nid' rules' e' chain' He' Hchain'.
    unfold denied_definition. cbn [holds].
    split.
    - intros H z. specialize (H (fun _ => z)).
      rewrite (build_acl_logic_holds _ _ _ _ He' Hchain') in H.
      exact H.
    - intros H over.
      rewrite (build_acl_logic_holds _ _ _ _ He' Hchain').
      apply H. }
  split.
  - (* a model of Mode A is a model of Mode B *)
    intros (I & D & env & HF). exists I, D, env.
    apply Forall_app in HF. destruct HF as [HF HQ].
    apply Forall_app in HF. destruct HF as [HB Hds].
    apply Forall_app. split; [exact HB |].
    unfold mono_query in HQ. unfold hybrid_query.
    inversion HQ as [| ? ? Hip HQ']; subst.
    inversion HQ' as [| ? ? Hprop _]; subst.
    constructor; [exact Hip |]. constructor; [| constructor].
    cbn [holds fold_right] in Hprop |- *.
    destruct Hprop as (Hn & Hex & Him & Hnot & _).
    repeat (split; [assumption |]). split; [| exact Logic.I].
    intros Hden. apply Hnot.
    rewrite Forall_forall in Hds. specialize (Hds _ Hdef).
    apply (proj1 (Hsym I D env env dst_id _ _ _ Hacl Hchain) Hds).
    apply (build_acl_logic_holds _ _ _ _ He Hchain I D env). exact Hden.
  - (* a model of Mode B, read with the chains, is a model of Mode A *)
    intros (I & D & env & HF). exists I, (chain_denied I), env.
    apply Forall_app in HF. destruct HF as [HB HQ].
    assert (Hinj : forall n1 n2, In n1 (nodes topo) -> In n2 (nodes topo) ->
                     i_router I (z3_symbol n1) = i_router I (z3_symbol n2) ->
                     n1 = n2).
    { apply Forall_app in HB. destruct HB as [HB _].
      rewrite Forall_forall in HB. specialize (HB _ Hdistinct).
      cbn [holds] in HB. rewrite map_map in HB.
      apply (NoDup_map_injective _ _ _ _ HB). }
    assert (Hread : forall nid' rules' chain',
               In (nid', rules') acl_db ->
               resolve_chain rules' = Ok chain' ->
               forall z, chain_denied I (i_router I (z3_symbol nid')) z
                         <-> first_match_scan chain' z = true).
    { intros nid' rules' chain' Hin' Hchain' z. split.
      - intros (nid2 & rules2 & chain2 & Hin2 & Heq & Hchain2 & Hscan).
        destruct (injected_lookup _ _ _ Hdefs _ _ Hin')
          as (r1 & _ & Hr1 & _ & _).
        destruct (injected_lookup _ _ _ Hdefs _ _ Hin2)
          as (r2 & _ & Hr2 & _ & _).
        destruct (Hrmap _ _ Hr1) as (_ & Hn1 & _).
        destruct (Hrmap _ _ Hr2) as (_ & Hn2 & _).
        pose proof (Hinj _ _ Hn1 Hn2 Heq) as <-.
        pose proof (In_get _ _ _ _ Hkeys Hin') as Hg1.
        pose proof (In_get _ _ _ _ Hkeys Hin2) as Hg2.
        rewrite Hg1 in Hg2. injection Hg2 as <-.
        rewrite Hchain' in Hchain2. injection Hchain2 as <-.
        exact Hscan.
      - intros Hscan. exists nid', rules', chain'. auto. }
    apply Forall_app. split; [apply Forall_app; split |].
    + apply (Forall_holds_denied_free I D _ env _ Hbounds_free HB).
    + apply Forall_forall. intros d Hd.
      destruct (injected_origin _ _ _ Hdefs _ Hd)
        as (nid' & rules' & r' & e' & Hin' & Hr' & He' & ->).
      destruct (Hrmap _ _ Hr') as (-> & _ & _).
      destruct (build_acl_logic_resolved _ _ _ He')
        as (chain' & Hchain' & _).
      apply (proj2 (Hsym I (chain_denied I) env env nid' _ _ _ He' Hchain')).
      apply (Hread _ _ _ Hin' Hchain').
    + unfold hybrid_query in HQ. unfold mono_query.
      inversion HQ as [| ? ? Hip HQ']; subst.
      inversion HQ' as [| ? ? Hprop _]; subst.
      constructor; [exact Hip |]. constructor; [| constructor].
      cbn [holds fold_right] in Hprop |- *.
      destruct Hprop as (Hn & Hex & Him & Hnot & _).
      repeat (split; [assumption |]). split; [| exact Logic.I].
      intros Hden. apply Hnot.
      apply (build_acl_logic_holds _ _ _ _ He Hchain I D env).
      apply (Hread _ _ _ Hin_rules Hchain). exact Hden.
Qed.

End Equivalence.

Lemma check_hybrid_run (z3_check : list bexpr -> check_result)
      (r_map : Dict.t router_term) (acl_db : Dict.t (list rule))
      (src_id dst_id ip_str : string) (s : Solver.t)
      (src dst : router_term) (ip_val : Z) (e : bexpr) :
  Dict.get r_map src_id = Some src ->
  Dict.get r_map dst_id = Some dst ->
  ip_str_to_int ip_str = Ok ip_val ->
  build_acl_logic target_ip_var (get_default (Dict.get acl_db dst_id) [])
  = Ok e ->
  check_hybrid z3_check r_map acl_db src_id dst_id ip_str s
  = (Ok (z3_check (Solver.assertions s ++ hybrid_query src dst ip_val e)), s).
Proof.
  intros Hsrc Hdst Hip He. unfold check_hybrid, Dict.lookup.
  rewrite Hsrc, Hdst, Hip, He.
  rewrite pop_add_add_push, assertions_add_add_push. reflexivity.
Qed.

(** What is asked of the solver: a verdict of sat or unsat is right,
    and a set of assertions without quantifier gets one of the two. *)
Definition sound (z3_check : list bexpr -> check_result) : Prop :=
  forall A, (z3_check A = sat -> satisfiable A)
            /\ (z3_check A = unsat -> ~ satisfiable A).



(** The solver that answers by the truth. *)
Definition ideal_check (A : list bexpr) : check_result :=
  if excluded_middle_informative (satisfiable A) then sat else unsat.




(** ** The reference scenarios *)

Lemma check_mono_run (z3_check : list bexpr -> check_result)
      (r_map : Dict.t router_term) (src_id dst_id ip_str : string)
      (s : Solver.t) (src dst : router_term) (ip_val : Z) :
  Dict.get r_map src_id = Some src ->
  Dict.get r_map dst_id = Some dst ->
  ip_str_to_int ip_str = Ok ip_val ->
  check_mono z3_check r_map src_id dst_id ip_str s
  = (Ok (z3_check (Solver.assertions s ++ mono_query src dst ip_val)), s).
Proof.
  intros Hsrc Hdst Hip. unfold check_mono, Dict.lookup.
  rewrite Hsrc, Hdst, Hip.
  rewrite pop_add_add_push, assertions_add_add_push. reflexivity.
Qed.

Lemma ideal_check_sat (A : list bexpr) : satisfiable A -> ideal_check A = sat.
Proof.
  intros H. unfold ideal_check.
  destruct (excluded_middle_informative (satisfiable A));
    [reflexivity | contradiction].
Qed.

Lemma ideal_check_unsat (A : list bexpr) :
  ~ satisfiable A -> ideal_check A = unsat.
Proof.
  intros H. unfold ideal_check.
  destruct (excluded_middle_informative (satisfiable A));
    [contradiction | reflexivity].
Qed.

(** Routers read as their names, every route-target constant as the
    one shared target. *)
Definition ref_interp : interp :=
  {| dom_router := string;
     dom_rt := string;
     i_router := fun n => n;
     i_rt := fun _ => "rt_65000_1"%string;
     i_ibgp := fun a b =>
       ((String.eqb a "PE1" && String.eqb b "PE2")
        || (String.eqb a "PE2" && String.eqb b "PE1")) = true;
     i_import := fun r _ => (String.eqb r "PE1" || String.eqb r "PE2") = true;
     i_export := fun r _ => (String.eqb r "PE1" || String.eqb r "PE2") = true |}.

Definition ref_chain (dst_id : string) : list acl_rule :=
  match resolve_chain (get_default (Dict.get ref_acl_db dst_id) []) with
  | Ok chain => chain
  | Err _ => []
  end.

Definition ref_denied_expr (dst_id : string) : bexpr :=
  match build_acl_logic target_ip_var
          (get_default (Dict.get ref_acl_db dst_id) []) with
  | Ok e => e
  | Err _ => BoolVal false
  end.

(** The assertions of a query of Mode B on the reference network. *)
Definition ref_hybrid_assertions (src_id dst_id : string) (ip_val : Z)
  : list bexpr :=
  Solver.assertions (hybrid_session ref_base)
  ++ hybrid_query (router_const src_id) (router_const dst_id) ip_val
       (ref_denied_expr dst_id).

Definition ref_mono_assertions (src_id dst_id : string) (ip_val : Z)
  : list bexpr :=
  Solver.assertions ref_mono_session
  ++ mono_query (router_const src_id) (router_const dst_id) ip_val.

Ltac ref_model src_id dst_id ip_val :=
  exists ref_interp, (fun _ _ => False), (fun _ => ip_val);
  let l := eval vm_compute in (ref_hybrid_assertions src_id dst_id ip_val) in
  change (Forall (holds ref_interp (fun _ _ => False) (fun _ => ip_val)) l);
  repeat (apply Forall_cons || apply Forall_nil);
  cbn;
  try (repeat constructor; cbn; intuition (discriminate || lia)).

(** PE1 to PE2, 192.168.1.1: PE2 filters nothing. *)
Lemma ref_permit_unfiltered :
  satisfiable (ref_hybrid_assertions "PE1" "PE2" 3232235777).
Proof. ref_model "PE1" "PE2" 3232235777. Qed.

(** The reference network with a mask length of 40 on the one filter
    of PE1. *)
Definition faulty_conf : config :=
  {| vpn_network_intents :=
       [{| pe_id := "PE1"; export_rt := Some ["65000:1"];
           import_rt := Some ["65000:1"];
           import_route_filters :=
             Some [{| index := Some 10; prefix := Some "10.0.0.0";
                      mask := Some (JInt 40); action := Some "deny" |}] |};
        {| pe_id := "PE2"; export_rt := Some ["65000:1"];
           import_rt := Some ["65000:1"];
           import_route_filters := None |}] |}.

Definition faulty_base : Solver.t :=
  match load_base_constraints ref_topo faulty_conf with
  | Ok (solver, _, _, _) => solver
  | Err _ => Solver.empty
  end.

Definition faulty_acl_db : Dict.t (list rule) :=
  match load_base_constraints ref_topo faulty_conf with
  | Ok (_, _, _, acl_db) => acl_db
  | Err _ => []
  end.

(** C7, as stated, fails on the outcome of an exception.  The faulty
    configuration loads.  Under Mode B the query PE2 to PE1 raises
    [ValueError] when the chain of PE1 is compiled, and leaves the
    solver with an open scope and one assertion more, the equation of
    its address.  The query PE1 to PE2 for 192.168.1.1, satisfiable
    when asked alone, is unsatisfiable when asked on the solver the
    failed query left. *)
Lemma scope_left_open_counterexample :
  let s := hybrid_session faulty_base in
  let failed :=
    check_hybrid ideal_check ref_r_map faulty_acl_db "PE2" "PE1" "10.0.1.100"
      s in
  load_base_constraints ref_topo faulty_conf
  = Ok (faulty_base, ref_r_map, make_rt_z3_map ["65000:1"], faulty_acl_db)
  /\ fst failed = Err ValueError
  /\ Solver.scopes s = []
  /\ Solver.scopes (snd failed) = [[IntEq target_ip_var (IntVal 167772516)]]
  /\ List.length (Solver.assertions s) = 19%nat
  /\ List.length (Solver.assertions (snd failed)) = 20%nat
  /\ fst (check_hybrid ideal_check ref_r_map faulty_acl_db
            "PE1" "PE2" "192.168.1.1" s) = Ok sat
  /\ fst (check_hybrid ideal_check ref_r_map faulty_acl_db
            "PE1" "PE2" "192.168.1.1" (snd failed)) = Ok unsat.
Proof.
  cbv zeta.
  assert (Hfailed :
            check_hybrid ideal_check ref_r_map faulty_acl_db "PE2" "PE1"
              "10.0.1.100" (hybrid_session faulty_base)
            = (Err ValueError,
               Solver.add (IntEq target_ip_var (IntVal 167772516))
                 (Solver.push (hybrid_session faulty_base))))
    by reflexivity.
  rewrite Hfailed. cbn [fst snd].
  repeat (split; [reflexivity |]).
  split.
  - rewrite (check_hybrid_run ideal_check ref_r_map faulty_acl_db
               "PE1" "PE2" "192.168.1.1" _ (router_const "PE1")
               (router_const "PE2") 3232235777 (BoolVal false)
               eq_refl eq_refl eq_refl eq_refl).
    cbn [fst]. f_equal.
    apply ideal_check_sat. exact ref_permit_unfiltered.
  - rewrite (check_hybrid_run ideal_check ref_r_map faulty_acl_db
               "PE1" "PE2" "192.168.1.1" _ (router_const "PE1")
               (router_const "PE2") 3232235777 (BoolVal false)
               eq_refl eq_refl eq_refl eq_refl).
    cbn [fst]. f_equal.
    apply ideal_check_unsat.
    intros (I & D & env & HF).
    rewrite assertions_add_push in HF.
    apply Forall_app in HF. destruct HF as [HF HQ].
    apply Forall_app in HF. destruct HF as [_ Hold].
    inversion Hold as [| ? ? Hold_ip _]; subst.
    unfold hybrid_query in HQ. inversion HQ as [| ? ? Hnew_ip _]; subst.
    cbn [holds int_denote target_ip_var] in Hold_ip, Hnew_ip.
    congruence.
Qed.

(** PE2 to PE1, 192.168.1.1: permitted by the first rule. *)
Lemma ref_permit_first :
  satisfiable (ref_hybrid_assertions "PE2" "PE1" 3232235777).
Proof. ref_model "PE2" "PE1" 3232235777. Qed.

(** PE2 to PE1, 10.0.10.100 and 10.0.99.1: permitted by the last
    rule. *)
Lemma ref_permit_fallback_10 :
  satisfiable (ref_hybrid_assertions "PE2" "PE1" 167774820).
Proof. ref_model "PE2" "PE1" 167774820. Qed.

Lemma ref_permit_fallback_99 :
  satisfiable (ref_hybrid_assertions "PE2" "PE1" 167797505).
Proof. ref_model "PE2" "PE1" 167797505. Qed.

(** PE2 to PE1, 10.0.1.100: denied by the second rule. *)
Lemma ref_deny_specific :
  ~ satisfiable (ref_hybrid_assertions "PE2" "PE1" 167772516).
Proof.
  intros (I & D & env & HF).
  apply Forall_app in HF. destruct HF as [_ HQ].
  unfold hybrid_query in HQ.
  inversion HQ as [| ? ? Hip HQ']; subst.
  inversion HQ' as [| ? ? Hprop _]; subst.
  cbn [holds fold_right] in Hprop, Hip.
  destruct Hprop as (_ & _ & _ & Hnot & _).
  apply Hnot.
  apply (build_acl_logic_holds target_ip_var
           (get_default (Dict.get ref_acl_db "PE1") [])
           (ref_denied_expr "PE1") (ref_chain "PE1") eq_refl eq_refl I D env).
  cbn [int_denote target_ip_var] in *. rewrite Hip. reflexivity.
Qed.

(** The assertions of Mode A and of Mode B for a query on the
    reference network are satisfiable together. *)
Lemma ref_equisatisfiable (src_id dst_id : string) (ip_val : Z) :
  str_in dst_id ["PE1"; "PE2"; "P1"] = true ->
  satisfiable (ref_mono_assertions src_id dst_id ip_val)
  <-> satisfiable (ref_hybrid_assertions src_id dst_id ip_val).
Proof.
  intros Hdst.
  assert (Hget : Dict.get ref_r_map dst_id = Some (router_const dst_id)).
  { change ref_r_map with (make_r_map ["PE1"; "PE2"; "P1"]).
    rewrite make_r_map_get, Hdst. reflexivity. }
  destruct (sessions_equisatisfiable ref_topo ref_conf ref_base ref_r_map
              (make_rt_z3_map ["65000:1"]) ref_acl_db eq_refl
              ref_mono_session eq_refl dst_id (router_const src_id)
              (router_const dst_id) ip_val Hget) as (e & He & _ & Hiff).
  unfold ref_mono_assertions, ref_hybrid_assertions, ref_denied_expr.
  rewrite He. exact Hiff.
Qed.

(** With the solver that answers by the truth, the two benchmark
    functions print the verdicts the source announces. *)
Lemma ref_run_hybrid_benchmark :
  run_hybrid_benchmark ideal_check ref_r_map ref_acl_db ref_base
  = Ok [sat; sat; sat].
Proof.
  unfold run_hybrid_benchmark.
  change (Dict.mem ref_r_map "PE1" && Dict.mem ref_r_map "PE2") with true.
  cbn [run_queries].
  rewrite (check_hybrid_run ideal_check ref_r_map ref_acl_db "PE2" "PE1"
             "192.168.1.1" _ (router_const "PE2") (router_const "PE1")
             3232235777 (ref_denied_expr "PE1") eq_refl eq_refl eq_refl eq_refl).
  rewrite (check_hybrid_run ideal_check ref_r_map ref_acl_db "PE2" "PE1"
             "10.0.10.100" _ (router_const "PE2") (router_const "PE1")
             167774820 (ref_denied_expr "PE1") eq_refl eq_refl eq_refl eq_refl).
  rewrite (check_hybrid_run ideal_check ref_r_map ref_acl_db "PE2" "PE1"
             "10.0.99.1" _ (router_const "PE2") (router_const "PE1")
             167797505 (ref_denied_expr "PE1") eq_refl eq_refl eq_refl eq_refl).
  fold (ref_hybrid_assertions "PE2" "PE1" 3232235777).
  fold (ref_hybrid_assertions "PE2" "PE1" 167774820).
  fold (ref_hybrid_assertions "PE2" "PE1" 167797505).
  rewrite (ideal_check_sat _ ref_permit_first),
          (ideal_check_sat _ ref_permit_fallback_10),
          (ideal_check_sat _ ref_permit_fallback_99).
  reflexivity.
Qed.

Lemma ref_run_monolithic_benchmark :
  run_monolithic_benchmark ideal_check ref_r_map ref_acl_db ref_base
  = Ok [sat; unsat; sat].
Proof.
  unfold run_monolithic_benchmark.
  change (monolithic_session ref_base ref_r_map ref_acl_db)
    with (Ok ref_mono_session).
  cbn [bind].
  change (Dict.mem ref_r_map "PE1" && Dict.mem ref_r_map "PE2") with true.
  cbn [run_queries].
  rewrite (check_mono_run ideal_check ref_r_map "PE1" "PE2" "192.168.1.1" _
             (router_const "PE1") (router_const "PE2") 3232235777
             eq_refl eq_refl eq_refl).
  rewrite (check_mono_run ideal_check ref_r_map "PE2" "PE1" "10.0.1.100" _
             (router_const "PE2") (router_const "PE1") 167772516
             eq_refl eq_refl eq_refl).
  rewrite (check_mono_run ideal_check ref_r_map "PE2" "PE1" "10.0.99.1" _
             (router_const "PE2") (router_const "PE1") 167797505
             eq_refl eq_refl eq_refl).
  fold (ref_mono_assertions "PE1" "PE2" 3232235777).
  fold (ref_mono_assertions "PE2" "PE1" 167772516).
  fold (ref_mono_assertions "PE2" "PE1" 167797505).
  rewrite (ideal_check_sat _
             (proj2 (ref_equisatisfiable "PE1" "PE2" 3232235777 eq_refl)
                    ref_permit_unfiltered)).
  rewrite (ideal_check_unsat _
             (fun H => ref_deny_specific
                         (proj1 (ref_equisatisfiable "PE2" "PE1" 167772516
                                   eq_refl) H))).
  rewrite (ideal_check_sat _
             (proj2 (ref_equisatisfiable "PE2" "PE1" 167797505 eq_refl)
                    ref_permit_fallback_99)).
  reflexivity.
Qed.

(** * Further properties of the code *)

(** ** Address strings and intervals *)

(** X1.  [ip_str_to_int] reads the address before the first slash and
    nothing after it: the text after the slash, whatever it is, changes
    neither the value nor the failure. *)
Theorem ip_str_to_int_before_slash (p r : string) :
  PyStr.contains "/" p = false ->
  ip_str_to_int (p ++ String "/" r)%string = ip_str_to_int p.
Proof.
  intros Hp. unfold ip_str_to_int.
  rewrite contains_at, Hp, (split_at_first _ _ _ Hp). reflexivity.
Qed.

Lemma ip_str_to_int_before_slash_witness :
  ip_str_to_int "10.0.1.0/24/not a mask" = Ok 167772416.
Proof.
  exact (eq_trans
           (ip_str_to_int_before_slash "10.0.1.0" "24/not a mask" eq_refl)
           eq_refl).
Defined.



(** X3.  Two intervals computed for mask lengths in range are disjoint
    or nested: the one of the longer mask lies within the other as soon
    as they share an address. *)
Theorem get_ip_interval_laminar (p1 p2 : string) (m1 m2 s1 e1 s2 e2 : Z) :
  0 <= m1 <= m2 -> m2 <= 32 ->
  get_ip_interval p1 m1 = Ok (s1, e1) ->
  get_ip_interval p2 m2 = Ok (s2, e2) ->
  (e1 < s2 \/ e2 < s1) \/ (s1 <= s2 /\ e2 <= e1).
Proof.
  intros Hm1 Hm2 H1 H2.
  destruct (ip_str_to_int p1) as [ip1 | err] eqn:Hp1;
    [| unfold get_ip_interval in H1; rewrite Hp1 in H1; discriminate].
  destruct (ip_str_to_int p2) as [ip2 | err] eqn:Hp2;
    [| unfold get_ip_interval in H2; rewrite Hp2 in H2; discriminate].
  rewrite (get_ip_interval_value _ _ _ Hp1) in H1 by lia.
  rewrite (get_ip_interval_value _ _ _ Hp2) in H2 by lia.
  remember (32 - m1) as k1 eqn:Hk1. remember (32 - m2) as k2 eqn:Hk2.
  assert (Hs1 : s1 = 2 ^ k1 * (ip1 / 2 ^ k1)) by congruence.
  assert (He1 : e1 = 2 ^ k1 * (ip1 / 2 ^ k1) + 2 ^ k1 - 1) by congruence.
  assert (Hs2 : s2 = 2 ^ k2 * (ip2 / 2 ^ k2)) by congruence.
  assert (He2 : e2 = 2 ^ k2 * (ip2 / 2 ^ k2) + 2 ^ k2 - 1) by congruence.
  clear H1 H2. subst s1 e1 s2 e2.
  assert (Hk : 0 <= k2 <= k1) by lia.
  assert (Hpow : 2 ^ k1 = 2 ^ k2 * 2 ^ (k1 - k2)).
  { rewrite <- Z.pow_add_r by lia. f_equal. lia. }
  assert (Hp2pos : 0 < 2 ^ k2) by (apply Z.pow_pos_nonneg; lia).
  assert (Hdpos : 0 < 2 ^ (k1 - k2)) by (apply Z.pow_pos_nonneg; lia).
  set (q1 := ip1 / 2 ^ k1). set (q2 := ip2 / 2 ^ k2).
  set (d := 2 ^ (k1 - k2)) in *. set (w := 2 ^ k2) in *.
  rewrite Hpow.
  pose proof (Z.mul_div_le q2 d Hdpos) as Hlo.
  pose proof (Z.mul_succ_div_gt q2 d Hdpos) as Hhi.
  destruct (Z.lt_trichotomy (q2 / d) q1) as [Hlt | [Heq | Hgt]].
  - left. right. nia.
  - right. rewrite Heq in *. nia.
  - left. left. nia.
Qed.

Lemma get_ip_interval_laminar_witness :
  (184549375 < 167772416 \/ 167772671 < 167772160)
  \/ (167772160 <= 167772416 /\ 167772671 <= 184549375).
Proof.
  apply (get_ip_interval_laminar "10.0.0.0" "10.0.1.0" 8 24);
    first [lia | reflexivity].
Defined.

(** ** Chains *)

(** *** The depth of the recursion

    The compiler calls itself once per rule, and CPython lets calls
    nest 1000 deep ([sys.getrecursionlimit()]), the callers of the
    compiler and the functions it calls included.  The theorems that
    say that a chain compiles, or which exception a chain raises, are
    stated for chains of at most [max_chain] rules, which leaves that
    room. *)
Definition max_chain : nat := 900.

(** The lower bound of a resolved rule is a 32-bit value and the upper
    bound is not negative: only the upper bound can be too long to
    write. *)
Lemma resolve_rule_bounds (r : rule) (c : acl_rule) :
  resolve_rule r = Ok c ->
  0 <= rule_start c < 2 ^ 32 /\ 0 <= rule_end c.
Proof.
  intros H. destruct (resolve_rule_steps _ _ H) as (addr & m & _ & Hiv & _).
  destruct (get_ip_interval_closed _ _ _ _ Hiv) as (ip & Hip & Hm & Hblock).
  apply ip_str_to_int_range in Hip.
  unfold block in Hblock. cbv zeta in Hblock.
  remember (32 - m) as k eqn:Hk.
  assert (Hs : rule_start c = 2 ^ k * (ip / 2 ^ k)) by congruence.
  assert (He : rule_end c = 2 ^ k * (ip / 2 ^ k) + 2 ^ k - 1) by congruence.
  assert (Hpos : 0 < 2 ^ k) by (apply Z.pow_pos_nonneg; lia).
  pose proof (Z.mul_div_le ip (2 ^ k) Hpos) as Hle.
  assert (Hq : 0 <= ip / 2 ^ k) by (apply Z.div_pos; lia).
  rewrite Hs, He. split; [split |]; nia.
Qed.


Lemma compile_rule_compiles (r : rule) :
  (exists c, compile_rule r = Ok c) <-> compiles r.
Proof.
  unfold compiles. split.
  - intros (c & Hc). apply compile_rule_ok in Hc.
    destruct Hc as (Hres & _ & Hend). exists c. split; [exact Hres |].
    destruct (resolve_rule_bounds _ _ Hres) as [_ Hpos].
    unfold PyStr.writable in Hend. rewrite (Z.abs_eq _ Hpos) in Hend.
    apply Z.ltb_lt. exact Hend.
  - intros (c & Hres & Hend). exists c. apply compile_rule_ok.
    destruct (resolve_rule_bounds _ _ Hres) as [Hstart Hpos].
    split; [exact Hres |]. split; [apply writable_32; exact Hstart |].
    unfold PyStr.writable. rewrite (Z.abs_eq _ Hpos).
    apply Z.ltb_lt. exact Hend.
Qed.

Lemma Forall_compiles (rules : list rule) :
  Forall (fun r => exists c, compile_rule r = Ok c) rules
  <-> Forall compiles rules.
Proof.
  rewrite !Forall_forall. split; intros H r Hr;
    apply compile_rule_compiles, H, Hr.
Qed.




(** Two chains with the same scan compile to expressions with the
    same value, when the rules of the second are rules of the first. *)
Lemma build_acl_logic_same_scan (x : string) (rules rules' : list rule)
      (e : bexpr) (chain' : list acl_rule) :
  build_acl_logic (Int x) rules = Ok e ->
  incl rules' rules ->
  resolve_chain rules' = Ok chain' ->
  (forall chain a, resolve_chain rules = Ok chain ->
                   first_match_scan chain' a = first_match_scan chain a) ->
  exists e',
    build_acl_logic (Int x) rules' = Ok e'
    /\ forall (env : int_env) (a : Z),
         eval (bind_var env x a) e' = eval (bind_var env x a) e.
Proof.
  intros He Hincl Hchain' Hsame.
  destruct (build_acl_logic_resolved _ _ _ He) as (chain & Hchain & Hscan).
  assert (Hc : exists e', build_acl_logic (Int x) rules' = Ok e').
  { apply build_acl_logic_compiles.
    assert (Hall : Forall (fun r => exists c, compile_rule r = Ok c) rules)
      by (apply (build_acl_logic_compiles (Int x)); eauto).
    rewrite Forall_forall in Hall |- *. intros r Hr. apply Hall, Hincl, Hr. }
  destruct Hc as (e' & He').
  exists e'. split; [exact He' |].
  intros env a.
  destruct (build_acl_logic_resolved _ _ _ He') as (chain2 & Hchain2 & Hscan').
  rewrite Hchain' in Hchain2. injection Hchain2 as <-.
  rewrite Hscan, Hscan'. cbn [int_denote]. rewrite bind_var_same.
  f_equal. apply Hsame. exact Hchain.
Qed.

Lemma resolve_chain_split (pre post : list rule) (r : rule)
      (chain : list acl_rule) :
  resolve_chain (pre ++ r :: post) = Ok chain ->
  exists cpre c cpost,
    resolve_chain pre = Ok cpre /\ resolve_rule r = Ok c
    /\ resolve_chain post = Ok cpost /\ chain = cpre ++ c :: cpost.
Proof.
  intros H. apply resolve_chain_app in H.
  destruct H as (cpre & ctl & Hpre & Htl & ->).
  cbn [resolve_chain] in Htl.
  bind_split Htl as c Hc. bind_split Htl as cpost Hpost. injection Htl as <-.
  exists cpre, c, cpost. auto.
Qed.

(** X5.  Exchanging two adjacent rules changes no verdict when they
    carry the same action or when their intervals share no address;
    the exchanged chain compiles when the chain does. *)
Theorem build_acl_logic_swap_neutral (x : string) (pre post : list rule)
        (r1 r2 : rule) (c1 c2 : acl_rule) (e : bexpr) :
  build_acl_logic (Int x) (pre ++ r1 :: r2 :: post) = Ok e ->
  resolve_rule r1 = Ok c1 ->
  resolve_rule r2 = Ok c2 ->
  rule_deny c1 = rule_deny c2 \/ (forall a, in_overlap a c1 c2 = false) ->
  exists e',
    build_acl_logic (Int x) (pre ++ r2 :: r1 :: post) = Ok e'
    /\ forall (env : int_env) (a : Z),
         eval (bind_var env x a) e' = eval (bind_var env x a) e.
Proof.
  intros He H1 H2 Hneutral.
  destruct (build_acl_logic_resolved _ _ _ He) as (chain & Hchain & _).
  destruct (resolve_chain_split _ _ _ _ Hchain)
    as (cpre & c1' & ctl & Hpre & H1' & Htl & ->).
  rewrite H1 in H1'. injection H1' as <-.
  cbn [resolve_chain] in Htl. rewrite H2 in Htl. cbn [bind] in Htl.
  bind_split Htl as cpost Hpost. injection Htl as <-.
  apply (build_acl_logic_same_scan x _ _ e (cpre ++ c2 :: c1 :: cpost) He).
  - intros r Hr. rewrite in_app_iff in *. cbn [In] in *. intuition.
  - apply resolve_chain_app_ok; [| exact Hpre].
    apply resolve_chain_cons_ok; [exact H2 |].
    apply resolve_chain_cons_ok; assumption.
  - intros chain a Hchain'. rewrite Hchain in Hchain'.
    injection Hchain' as <-.
    rewrite !first_match_scan_app. cbn [first_match_scan].
    destruct (existsb (matches a) cpre); [reflexivity |].
    destruct Hneutral as [Hsame | Hdisjoint].
    + rewrite Hsame. destruct (matches a c1), (matches a c2); reflexivity.
    + specialize (Hdisjoint a). unfold in_overlap in Hdisjoint.
      destruct (matches a c1), (matches a c2); try reflexivity.
      discriminate.
Qed.

Lemma build_acl_logic_swap_neutral_witness :
  exists e e',
    build_acl_logic (Int "sym_ip")
      [filter 10 "192.168.1.0/24" "permit"; filter 20 "10.0.1.0/24" "deny"]
    = Ok e
    /\ build_acl_logic (Int "sym_ip")
         [filter 20 "10.0.1.0/24" "deny"; filter 10 "192.168.1.0/24" "permit"]
       = Ok e'
    /\ forall a, eval (bind_var (fun _ => 0) "sym_ip" a) e'
                 = eval (bind_var (fun _ => 0) "sym_ip" a) e.
Proof.
  destruct (build_acl_logic (Int "sym_ip")
              ([] ++ [filter 10 "192.168.1.0/24" "permit";
                      filter 20 "10.0.1.0/24" "deny"]))
    as [e |] eqn:He; [| vm_compute in He; discriminate].
  destruct (build_acl_logic_swap_neutral "sym_ip" [] []
              (filter 10 "192.168.1.0/24" "permit")
              (filter 20 "10.0.1.0/24" "deny")
              {| rule_start := 3232235776; rule_end := 3232236031;
                 rule_deny := false |}
              {| rule_start := 167772416; rule_end := 167772671;
                 rule_deny := true |} e He eq_refl eq_refl)
    as (e' & He' & Hsame).
  - right. intros a. unfold in_overlap, matches.
    cbn [rule_start rule_end].
    destruct (Z.leb_spec 3232235776 a), (Z.leb_spec a 167772671);
      cbn; try reflexivity; try (rewrite ?andb_false_r; reflexivity).
    lia.
  - exists e, e'. split; [exact He |]. split; [exact He' |].
    intros a. apply Hsame.
Defined.

(** X6.  A rule whose interval lies within the interval of an earlier
    rule of the chain never decides: the chain without it compiles and
    gives every address the same verdict. *)
Theorem build_acl_logic_shadowed (x : string) (pre mid post : list rule)
        (r1 r2 : rule) (c1 c2 : acl_rule) (e : bexpr) :
  build_acl_logic (Int x) (pre ++ r1 :: mid ++ r2 :: post) = Ok e ->
  resolve_rule r1 = Ok c1 ->
  resolve_rule r2 = Ok c2 ->
  rule_start c1 <= rule_start c2 ->
  rule_end c2 <= rule_end c1 ->
  exists e',
    build_acl_logic (Int x) (pre ++ r1 :: mid ++ post) = Ok e'
    /\ forall (env : int_env) (a : Z),
         eval (bind_var env x a) e' = eval (bind_var env x a) e.
Proof.
  intros He H1 H2 Hstart Hend.
  destruct (build_acl_logic_resolved _ _ _ He) as (chain & Hchain & _).
  destruct (resolve_chain_split _ _ _ _ Hchain)
    as (cpre & c1' & ctl & Hpre & H1' & Htl & ->).
  rewrite H1 in H1'. injection H1' as <-.
  destruct (resolve_chain_split _ _ _ _ Htl)
    as (cmid & c2' & cpost & Hmid & H2' & Hpost & ->).
  rewrite H2 in H2'. injection H2' as <-.
  apply (build_acl_logic_same_scan x _ _ e (cpre ++ c1 :: cmid ++ cpost) He).
  - intros r Hr. rewrite !in_app_iff in *. cbn [In] in *.
    rewrite !in_app_iff in *. cbn [In]. intuition.
  - apply resolve_chain_app_ok; [| exact Hpre].
    apply resolve_chain_cons_ok; [exact H1 |].
    apply resolve_chain_app_ok; assumption.
  - intros chain a Hchain'. rewrite Hchain in Hchain'.
    injection Hchain' as <-.
    rewrite !first_match_scan_app. cbn [first_match_scan].
    rewrite !first_match_scan_app. cbn [first_match_scan].
    destruct (existsb (matches a) cpre); [reflexivity |].
    destruct (matches a c1) eqn:Hm1; [reflexivity |].
    destruct (existsb (matches a) cmid); [reflexivity |].
    assert (Hm2 : matches a c2 = false).
    { unfold matches in *.
      destruct (Z.leb_spec (rule_start c1) a), (Z.leb_spec a (rule_end c1));
        cbn [andb] in Hm1; try discriminate;
        destruct (Z.leb_spec (rule_start c2) a), (Z.leb_spec a (rule_end c2));
        cbn [andb]; try reflexivity; lia. }
    rewrite Hm2. reflexivity.
Qed.

Lemma build_acl_logic_shadowed_witness :
  exists e e',
    build_acl_logic (Int "sym_ip")
      [filter 10 "10.0.0.0/8" "permit"; filter 20 "10.0.1.0/24" "deny"] = Ok e
    /\ build_acl_logic (Int "sym_ip") [filter 10 "10.0.0.0/8" "permit"] = Ok e'
    /\ forall a, eval (bind_var (fun _ => 0) "sym_ip" a) e'
                 = eval (bind_var (fun _ => 0) "sym_ip" a) e.
Proof.
  destruct (build_acl_logic (Int "sym_ip")
              ([] ++ filter 10 "10.0.0.0/8" "permit"
                  :: [] ++ filter 20 "10.0.1.0/24" "deny" :: []))
    as [e |] eqn:He; [| vm_compute in He; discriminate].
  destruct (build_acl_logic_shadowed "sym_ip" [] [] []
              (filter 10 "10.0.0.0/8" "permit")
              (filter 20 "10.0.1.0/24" "deny")
              {| rule_start := 167772160; rule_end := 184549375;
                 rule_deny := false |}
              {| rule_start := 167772416; rule_end := 167772671;
                 rule_deny := true |} e He eq_refl eq_refl)
    as (e' & He' & Hsame); [cbn; lia | cbn; lia |].
  exists e, e'. split; [exact He |]. split; [exact He' |].
  intros a. apply Hsame.
Defined.

(** ** The order of a stored chain *)

Definition index_le (a b : rule) : Prop := rule_index a <= rule_index b.

Lemma insert_by_Forall (A : Type) (key : A -> Z) (P : A -> Prop) (x : A)
      (l : list A) :
  P x -> Forall P l -> Forall P (insert_by key x l).
Proof.
  intros Hx Hl. apply Forall_forall. intros y Hy.
  apply (Permutation_in _ (insert_by_perm A key x l)) in Hy.
  destruct Hy as [<- | Hy]; [exact Hx |].
  rewrite Forall_forall in Hl. apply Hl. exact Hy.
Qed.

Lemma insert_by_sorted (A : Type) (key : A -> Z) (x : A) (l : list A) :
  StronglySorted (fun a b => key a <= key b) l ->
  StronglySorted (fun a b => key a <= key b) (insert_by key x l).
Proof.
  induction 1 as [| y l Hsorted IH Hall]; cbn [insert_by].
  - repeat constructor.
  - destruct (Z.leb_spec (key x) (key y)) as [Hle | Hgt].
    + constructor; [constructor; assumption |].
      constructor; [exact Hle |].
      apply (Forall_impl _ (fun b (Hb : key y <= key b) =>
                              Z.le_trans _ _ _ Hle Hb) Hall).
    + constructor; [exact IH |].
      apply insert_by_Forall; [lia | exact Hall].
Qed.

Lemma sorted_sorted (A : Type) (key : A -> Z) (l : list A) :
  StronglySorted (fun a b => key a <= key b) (sorted key l).
Proof.
  unfold sorted. induction l as [| x l IH]; cbn [fold_right].
  - constructor.
  - apply insert_by_sorted. exact IH.
Qed.

(** Insertion goes past smaller keys only, so it keeps [x] in front
    of the elements of its own key. *)
Lemma insert_by_filter (A : Type) (key : A -> Z) (k : Z) (x : A)
      (l : list A) :
  List.filter (fun y => key y =? k) (insert_by key x l)
  = List.filter (fun y => key y =? k) (x :: l).
Proof.
  induction l as [| y l IH]; cbn [insert_by]; [reflexivity |].
  destruct (Z.leb_spec (key x) (key y)) as [Hle | Hgt]; [reflexivity |].
  cbn [List.filter] in *. rewrite IH.
  destruct (Z.eqb_spec (key x) k) as [Hx | Hx];
    destruct (Z.eqb_spec (key y) k) as [Hy | Hy]; try reflexivity.
  lia.
Qed.

Lemma sorted_filter (A : Type) (key : A -> Z) (k : Z) (l : list A) :
  List.filter (fun y => key y =? k) (sorted key l)
  = List.filter (fun y => key y =? k) l.
Proof.
  unfold sorted. induction l as [| x l IH]; cbn [fold_right];
    [reflexivity |].
  rewrite insert_by_filter. cbn [List.filter]. rewrite IH. reflexivity.
Qed.

(** X7.  The chain [load_base_constraints] stores for a router is in
    ascending order of the indices; it holds the filters of the intent
    in force for the router, those of one index in the order the
    configuration lists them, and is empty without such an intent. *)
Theorem stored_chain_order (topo : topology) (conf : config)
        (solver : Solver.t) (r_map : Dict.t router_term)
        (rt_map : Dict.t rt_term) (acl_db : Dict.t (list rule))
        (nid : string) (rules : list rule) :
  load_base_constraints topo conf = Ok (solver, r_map, rt_map, acl_db) ->
  Dict.get acl_db nid = Some rules ->
  StronglySorted index_le rules
  /\ match last_intent (vpn_network_intents conf) nid with
     | Some it =>
         forall k,
           List.filter (fun r => rule_index r =? k) rules
           = List.filter (fun r => rule_index r =? k)
                    (get_default (import_route_filters it) [])
     | None => rules = []
     end.
Proof.
  intros Hload Hget.
  destruct (load_base_constraints_ok _ _ _ _ _ _ Hload)
    as (tp & pcm & rts & acl0 & _ & _ & _ & Hintents & _ & -> & _ & _).
  destruct (fold_record_intent _ _ _ _ Hintents) as (Hpcm & Hacl & _ & _).
  rewrite default_acls_get, Hacl, Hpcm in Hget.
  destruct (last_intent (vpn_network_intents conf) nid) as [it |].
  - cbn [option_map] in Hget. injection Hget as <-.
    split; [apply sorted_sorted |].
    intros k. apply sorted_filter.
  - cbn [option_map] in Hget.
    destruct (str_in nid (Dict.keys r_map)); [| discriminate].
    injection Hget as <-. split; [constructor | reflexivity].
Qed.

Lemma stored_chain_order_witness :
  StronglySorted index_le (get_default (Dict.get ref_acl_db "PE1") [])
  /\ map index (get_default (Dict.get ref_acl_db "PE1") [])
     = [Some 10; Some 20; Some 30].
Proof.
  split; [| reflexivity].
  apply (stored_chain_order ref_topo ref_conf ref_base ref_r_map
           (make_rt_z3_map ["65000:1"]) ref_acl_db "PE1");
    reflexivity.
Defined.

Lemma sorted_lt_unique (A : Type) (key : A -> Z) (l1 : list A) :
  forall l2,
    StronglySorted (fun a b => key a < key b) l1 ->
    StronglySorted (fun a b => key a < key b) l2 ->
    Permutation l1 l2 -> l1 = l2.
Proof.
  induction l1 as [| a l1 IH]; intros l2 H1 H2 Hperm.
  - apply Permutation_nil in Hperm. subst. reflexivity.
  - destruct l2 as [| b l2].
    + apply Permutation_sym, Permutation_nil in Hperm. discriminate.
    + inversion H1 as [| ? ? H1s H1a]; subst.
      inversion H2 as [| ? ? H2s H2b]; subst.
      assert (Hab : a = b).
      { assert (Ha : In a (b :: l2))
          by (apply (Permutation_in _ Hperm); left; reflexivity).
        assert (Hb : In b (a :: l1))
          by (apply (Permutation_in _ (Permutation_sym Hperm)); left;
              reflexivity).
        destruct Ha as [-> | Ha]; [reflexivity |].
        destruct Hb as [-> | Hb]; [reflexivity |].
        rewrite Forall_forall in H1a, H2b.
        pose proof (H1a _ Hb). pose proof (H2b _ Ha). lia. }
      subst b. f_equal. apply IH; try assumption.
      apply (Permutation_cons_inv Hperm).
Qed.

Lemma sorted_le_lt (A : Type) (key : A -> Z) (l : list A) :
  NoDup (map key l) ->
  StronglySorted (fun a b => key a <= key b) l ->
  StronglySorted (fun a b => key a < key b) l.
Proof.
  induction l as [| a l IH]; cbn [map]; intros Hnd Hs; [constructor |].
  inversion Hnd as [| ? ? Hnotin Hnd']; subst.
  inversion Hs as [| ? ? Hs' Hall]; subst.
  constructor; [apply IH; assumption |].
  apply Forall_forall. intros b Hb.
  rewrite Forall_forall in Hall. pose proof (Hall _ Hb) as Hle.
  assert (key a <> key b); [| lia].
  intros Heq. apply Hnotin. rewrite Heq. apply in_map. exact Hb.
Qed.

(** X8.  When the indices of the filters of an intent are pairwise
    different, the order in which the configuration lists the filters
    does not matter: a permutation of the list gives the same chain. *)
Theorem chain_of_order_irrelevant (it it' : intent) :
  NoDup (map rule_index (get_default (import_route_filters it) [])) ->
  Permutation (get_default (import_route_filters it) [])
              (get_default (import_route_filters it') []) ->
  chain_of it = chain_of it'.
Proof.
  intros Hnd Hperm. unfold chain_of.
  set (l := get_default (import_route_filters it) []) in *.
  set (l' := get_default (import_route_filters it') []) in *.
  assert (Hp : Permutation (sorted rule_index l) (sorted rule_index l')).
  { apply Permutation_trans with l; [apply sorted_perm |].
    apply Permutation_trans with l'; [exact Hperm |].
    apply Permutation_sym, sorted_perm. }
  assert (Hnd1 : NoDup (map rule_index (sorted rule_index l))).
  { apply (Permutation_NoDup (l := map rule_index l)); [| exact Hnd].
    apply Permutation_map, Permutation_sym, sorted_perm. }
  assert (Hnd2 : NoDup (map rule_index (sorted rule_index l'))).
  { apply (Permutation_NoDup (l := map rule_index (sorted rule_index l)));
      [| exact Hnd1].
    apply Permutation_map. exact Hp. }
  apply (sorted_lt_unique rule rule_index); try exact Hp;
    apply sorted_le_lt; first [assumption | apply sorted_sorted].
Qed.

Lemma chain_of_order_irrelevant_witness :
  chain_of {| pe_id := "PE1"; export_rt := None; import_rt := None;
              import_route_filters :=
                Some [filter 30 "10.0.0.0/8" "permit";
                      filter 10 "192.168.1.0/24" "permit";
                      filter 20 "10.0.1.0/24" "deny"] |}
  = chain_of {| pe_id := "PE1"; export_rt := None; import_rt := None;
                import_route_filters := Some pe1_filters |}.
Proof.
  apply chain_of_order_irrelevant.
  - cbn. repeat constructor; cbn; intuition discriminate.
  - cbn [import_route_filters get_default]. unfold pe1_filters.
    apply (Permutation_cons_app
             [filter 10 "192.168.1.0/24" "permit";
              filter 20 "10.0.1.0/24" "deny"] []).
    apply Permutation_refl.
Defined.

(** ** Models of the loaded constraints *)

Lemma z3_symbol_idem (s : string) : z3_symbol (z3_symbol s) = z3_symbol s.
Proof.
  induction s as [| a s IH]; cbn [z3_symbol]; [reflexivity |].
  destruct (Ascii.eqb a zero) eqn:Ha; cbn [z3_symbol]; [reflexivity |].
  rewrite Ha, IH. reflexivity.
Qed.

(** The interpretation read off the input: a router constant is its
    name, a route-target constant is its name, adjacency is [linked],
    and a router has a route target when an RT string with that
    constant is in the list of a listed node with the router's
    constant - or when the constant is one of [extra]. *)
Definition canonical (topo : topology) (conf : config)
           (all_rt_strs : list string) (extra : string -> Prop) : interp :=
  {| dom_router := string;
     dom_rt := string;
     i_router := fun name => name;
     i_rt := fun name => name;
     i_ibgp := fun a b => linked topo a b = true;
     i_import := fun a name =>
       extra name
       \/ exists nid rt,
            In nid (nodes topo) /\ z3_symbol nid = a
            /\ In rt all_rt_strs /\ rt_name (rt_const rt) = name
            /\ rt_member import_rt (vpn_network_intents conf) nid rt = true;
     i_export := fun a name =>
       extra name
       \/ exists nid rt,
            In nid (nodes topo) /\ z3_symbol nid = a
            /\ In rt all_rt_strs /\ rt_name (rt_const rt) = name
            /\ rt_member export_rt (vpn_network_intents conf) nid rt = true |}.

Lemma rt_const_name_inj (a b : string) :
  rt_name (rt_const a) = rt_name (rt_const b) -> rt_const a = rt_const b.
Proof.
  unfold rt_const, rt_sort_const. cbn [rt_name]. intros ->. reflexivity.
Qed.

Lemma router_const_name_inj (a b : string) :
  z3_symbol a = z3_symbol b -> router_const a = router_const b.
Proof.
  unfold router_const. intros ->. reflexivity.
Qed.

Lemma NoDup_map_inv' (A B : Type) (f : A -> B) (l : list A) :
  NoDup (map f l) -> NoDup l.
Proof.
  induction l as [| a l IH]; cbn [map]; intros H; [constructor |].
  inversion H as [| ? ? Hnotin Hnd]; subst.
  constructor; [| apply IH; exact Hnd].
  intros Hin. apply Hnotin. apply in_map. exact Hin.
Qed.

Lemma NoDup_map_of_inj (A B : Type) (f : A -> B) (l : list A) :
  (forall x y, In x l -> In y l -> f x = f y -> x = y) ->
  NoDup l -> NoDup (map f l).
Proof.
  induction l as [| a l IH]; cbn [map]; intros Hinj Hnd; [constructor |].
  inversion Hnd as [| ? ? Hnotin Hnd']; subst.
  constructor.
  - intros Hin. apply in_map_iff in Hin. destruct Hin as (b & Heq & Hb).
    apply Hnotin. rewrite (Hinj a b); [exact Hb | left; reflexivity
                                      | right; exact Hb | auto].
  - apply IH; [| exact Hnd'].
    intros x y Hx Hy. apply Hinj; right; assumption.
Qed.

(** The canonical interpretation satisfies a loaded model whose
    router constants and whose route-target constants are not
    repeated, as long as the extra constants are not declared ones. *)
Lemma canonical_base (topo : topology) (conf : config) (solver : Solver.t)
      (r_map : Dict.t router_term) (rt_map : Dict.t rt_term)
      (acl_db : Dict.t (list rule)) (extra : string -> Prop)
      (D : string -> Z -> Prop) (env : int_env) :
  load_base_constraints topo conf = Ok (solver, r_map, rt_map, acl_db) ->
  NoDup (map router_const (nodes topo)) ->
  NoDup (map rt_const (Dict.keys rt_map)) ->
  (forall rt, In rt (Dict.keys rt_map) -> ~ extra (rt_name (rt_const rt))) ->
  Forall (holds (canonical topo conf (Dict.keys rt_map) extra) D env)
         (Solver.assertions solver).
Proof.
  intros Hload Hnodes Hrts Hextra.
  destruct (load_base_constraints_ok _ _ _ _ _ _ Hload)
    as (tp & pcm & rts & acl0 & _ & -> & Hpairs & Hintents & ->
        & _ & _ & HA).
  destruct (fold_record_intent _ _ _ _ Hintents) as (Hpcm & _ & _ & _).
  rewrite make_rt_z3_map_keys in *.
  pose proof (load_pairs_linked _ _ Hpairs) as Hlink.
  assert (Hvalues : map snd (make_rt_z3_map rts) = map rt_const rts).
  { unfold make_rt_z3_map. rewrite map_map. reflexivity. }
  rewrite HA. apply Forall_forall. intros x Hx.
  destruct Hx as [<- | Hx].
  { cbn [holds]. apply NoDup_map_of_inj; [| exact Hnodes].
    intros [a] [b] _ _ Heq. cbn in Heq. congruence. }
  apply in_app_or in Hx. destruct Hx as [Hx | Hx].
  { apply in_neighbor_constraints in Hx.
    destruct Hx as (r1 & r2 & H1 & H2 & ->).
    apply in_map_iff in H1, H2.
    destruct H1 as (n1 & <- & H1). destruct H2 as (n2 & <- & H2).
    cbn [holds]. rewrite (Hlink n1 n2).
    cbn [canonical i_ibgp router_denote i_router router_const router_name].
    rewrite (linked_symbol topo (z3_symbol n1) (z3_symbol n2) n1 n2
               (z3_symbol_idem n1) (z3_symbol_idem n2)).
    split; intros H; exact H. }
  apply in_app_or in Hx. destruct Hx as [Hx | Hx].
  { destruct (make_rt_z3_map rts) as [| t ts] eqn:Hmap; [destruct Hx |].
    destruct Hx as [<- | []]. rewrite Hvalues. cbn [holds].
    rewrite map_map.
    apply NoDup_map_of_inj; [| apply (NoDup_map_inv' _ _ _ _ Hrts)].
    intros a b Ha Hb Heq.
    apply (NoDup_map_injective _ _ _ _ Hrts a b Ha Hb).
    apply rt_const_name_inj. exact Heq. }
  apply in_all_rt_constraints in Hx.
  destruct Hx as (nid & r & rt & t & Hr & Ht & Hx).
  apply make_r_map_items in Hr. destruct Hr as [Hnid ->].
  unfold make_rt_z3_map in Ht. apply in_map_iff in Ht.
  destruct Ht as (rt' & Heq & Hrt). injection Heq as -> <-.
  assert (Hone : forall field : intent -> option (list string),
             (extra (rt_name (rt_const rt))
              \/ exists nid0 rt0,
                   In nid0 (nodes topo) /\ z3_symbol nid0 = z3_symbol nid
                   /\ In rt0 rts
                   /\ rt_name (rt_const rt0) = rt_name (rt_const rt)
                   /\ rt_member field (vpn_network_intents conf) nid0 rt0
                      = true)
             <-> match Dict.get pcm nid with
                 | Some c => str_in rt (get_default (field c) [])
                 | None => false
                 end = true).
  { intros field. rewrite Hpcm.
    fold (rt_member field (vpn_network_intents conf) nid rt).
    split.
    - intros [Hex | (nid0 & rt0 & Hin_n & Hsym & Hin0 & Hname & Hmem)].
      + contradiction (Hextra rt Hrt Hex).
      + apply rt_const_name_inj in Hname.
        rewrite <- (NoDup_map_injective _ _ _ _ Hrts rt0 rt Hin0 Hrt Hname).
        rewrite <- (NoDup_map_injective _ _ _ _ Hnodes nid0 nid Hin_n Hnid
                      (router_const_name_inj _ _ Hsym)).
        exact Hmem.
    - intros Hmem. right. exists nid, rt. auto. }
  destruct Hx as [-> | ->]; cbn [holds]; apply Hone.
Qed.

(** X9.  The constraints of a loaded model have a model exactly when
    no two listed nodes have the same Z3 constant - no id is listed
    twice, and no two ids agree up to a NUL character - and no two RT
    strings of the configuration are given the same constant;
    otherwise every query on it, under either encoding, is asked of an
    unsatisfiable set of assertions. *)
Theorem load_base_constraints_consistent (topo : topology) (conf : config)
        (solver : Solver.t) (r_map : Dict.t router_term)
        (rt_map : Dict.t rt_term) (acl_db : Dict.t (list rule)) :
  load_base_constraints topo conf = Ok (solver, r_map, rt_map, acl_db) ->
  (satisfiable (Solver.assertions solver)
   <-> NoDup (map z3_symbol (nodes topo))
       /\ NoDup (map rt_name (map rt_const (Dict.keys rt_map))))
  /\ (~ (NoDup (map z3_symbol (nodes topo))
         /\ NoDup (map rt_name (map rt_const (Dict.keys rt_map)))) ->
      forall more, ~ satisfiable (Solver.assertions solver ++ more)).
Proof.
  intros Hload.
  assert (Hiff : satisfiable (Solver.assertions solver)
                 <-> NoDup (map z3_symbol (nodes topo))
                     /\ NoDup (map rt_name
                                   (map rt_const (Dict.keys rt_map)))).
  { split.
    - intros (I & D & env & HF).
      destruct (load_base_constraints_ok _ _ _ _ _ _ Hload)
        as (tp & pcm & rts & acl0 & _ & _ & _ & _ & -> & _ & _ & HA).
      rewrite HA in HF. rewrite make_rt_z3_map_keys.
      inversion HF as [| ? ? Hrouters HF']; subst.
      split.
      + cbn [holds] in Hrouters. rewrite map_map in Hrouters.
        unfold router_denote, router_const in Hrouters.
        cbn [router_name] in Hrouters.
        rewrite <- (map_map z3_symbol (i_router I)) in Hrouters.
        apply (NoDup_map_inv' _ _ _ _ Hrouters).
      + apply Forall_app in HF'. destruct HF' as [_ HF'].
        apply Forall_app in HF'. destruct HF' as [Hd _].
        assert (Hvalues : map snd (make_rt_z3_map rts) = map rt_const rts)
          by (unfold make_rt_z3_map; rewrite map_map; reflexivity).
        destruct (make_rt_z3_map rts) as [| t ts] eqn:Hmap.
        * destruct rts; [constructor | discriminate].
        * rewrite Hvalues in Hd.
          inversion Hd as [| ? ? Hrt _]; subst. cbn [holds] in Hrt.
          unfold rt_denote in Hrt.
          rewrite <- (map_map rt_name (i_rt I)) in Hrt.
          apply (NoDup_map_inv' _ _ _ _ Hrt).
    - intros [Hnodes Hrts].
      exists (canonical topo conf (Dict.keys rt_map) (fun _ => False)),
             (fun _ _ => False), (fun _ => 0).
      apply (canonical_base _ _ _ _ _ _ _ _ _ Hload).
      + unfold router_const.
        rewrite <- (map_map z3_symbol RouterConst).
        apply NoDup_map_of_inj; [| exact Hnodes].
        intros x y _ _ H. injection H as ->. reflexivity.
      + apply (NoDup_map_inv' _ _ rt_name). exact Hrts.
      + intros rt _ []. }
  split; [exact Hiff |].
  intros Hbad more (I & D & env & HF).
  apply Hbad. apply Hiff. exists I, D, env.
  apply Forall_app in HF. apply HF.
Qed.

Lemma load_base_constraints_consistent_witness :
  satisfiable (Solver.assertions ref_base).
Proof.
  apply (load_base_constraints_consistent ref_topo ref_conf ref_base
           ref_r_map (make_rt_z3_map ["65000:1"]) ref_acl_db eq_refl).
  split; repeat constructor; cbn; intuition discriminate.
Defined.

Lemma load_adjacency (topo : topology) (conf : config) (solver : Solver.t)
      (r_map : Dict.t router_term) (rt_map : Dict.t rt_term)
      (acl_db : Dict.t (list rule)) (n1 n2 : string) :
  load_base_constraints topo conf = Ok (solver, r_map, rt_map, acl_db) ->
  In n1 (nodes topo) -> In n2 (nodes topo) ->
  In (BoolEq (Ibgp_Neighbor (router_const n1) (router_const n2))
             (BoolVal (linked topo n1 n2)))
     (Solver.assertions solver).
Proof.
  intros Hload H1 H2.
  destruct (load_base_constraints_ok _ _ _ _ _ _ Hload)
    as (tp & pcm & rts & acl0 & _ & -> & Hpairs & _ & _ & _ & _ & HA).
  rewrite HA. right. apply in_or_app. left.
  apply in_neighbor_constraints.
  exists (router_const n1), (router_const n2).
  split; [apply in_map; exact H1 |]. split; [apply in_map; exact H2 |].
  rewrite (load_pairs_linked _ _ Hpairs). reflexivity.
Qed.

Lemma load_rt_values (topo : topology) (conf : config) (solver : Solver.t)
      (r_map : Dict.t router_term) (rt_map : Dict.t rt_term)
      (acl_db : Dict.t (list rule)) :
  load_base_constraints topo conf = Ok (solver, r_map, rt_map, acl_db) ->
  map snd rt_map = map rt_const (Dict.keys rt_map)
  /\ r_map = make_r_map (nodes topo).
Proof.
  intros Hload.
  destruct (load_base_constraints_ok _ _ _ _ _ _ Hload)
    as (tp & pcm & rts & acl0 & _ & -> & _ & _ & -> & _ & _ & _).
  split; [| reflexivity].
  rewrite make_rt_z3_map_keys. unfold make_rt_z3_map. rewrite map_map.
  reflexivity.
Qed.

(** X10.  The route targets never decide a query.  On a loaded model
    without repeated router constant or route-target constant, where
    no RT string is given the constant [rt_val] of the query, and for a
    destination whose chain compiles, the assertions of a query between
    two routers of the topology are satisfiable, under either encoding,
    exactly when a session links the two routers, the address is
    within 0..2^32-1 and the chain of the destination does not deny
    it: whatever the routers export and import, [rt_val] may stand for
    a route target that is none of the configured ones. *)
Theorem query_ignores_route_targets (topo : topology) (conf : config)
        (solver : Solver.t) (r_map : Dict.t router_term)
        (rt_map : Dict.t rt_term) (acl_db : Dict.t (list rule))
        (src_id dst_id : string) (ip_val : Z) (e : bexpr)
        (chain : list acl_rule) :
  load_base_constraints topo conf = Ok (solver, r_map, rt_map, acl_db) ->
  NoDup (map z3_symbol (nodes topo)) ->
  NoDup (map rt_name (map snd rt_map)) ->
  ~ In (rt_name rt_val) (map rt_name (map snd rt_map)) ->
  In src_id (nodes topo) ->
  In dst_id (nodes topo) ->
  build_acl_logic target_ip_var (get_default (Dict.get acl_db dst_id) [])
  = Ok e ->
  resolve_chain (get_default (Dict.get acl_db dst_id) []) = Ok chain ->
  let verdict :=
    linked topo src_id dst_id = true
    /\ 0 <= ip_val <= 4294967295
    /\ first_match_scan chain ip_val = false in
  (satisfiable (Solver.assertions (hybrid_session solver)
                ++ hybrid_query (router_const src_id) (router_const dst_id)
                     ip_val e)
   <-> verdict)
  /\ forall sg,
       monolithic_session solver r_map acl_db = Ok sg ->
       (satisfiable (Solver.assertions sg
                     ++ mono_query (router_const src_id) (router_const dst_id)
                          ip_val)
        <-> verdict).
Proof.
  intros Hload Hnodes Hrts Hfree Hsrc Hdst He Hchain. cbv zeta.
  destruct (load_rt_values _ _ _ _ _ _ Hload) as [Hvalues Hrmap].
  rewrite Hvalues in Hrts, Hfree.
  assert (Hnodes' : NoDup (map router_const (nodes topo))).
  { unfold router_const. rewrite <- (map_map z3_symbol RouterConst).
    apply NoDup_map_of_inj; [| exact Hnodes].
    intros x y _ _ H. injection H as ->. reflexivity. }
  assert (Hrts' : NoDup (map rt_const (Dict.keys rt_map)))
    by (apply (NoDup_map_inv' _ _ rt_name); exact Hrts).
  assert (Hhybrid :
            satisfiable (Solver.assertions (hybrid_session solver)
                         ++ hybrid_query (router_const src_id)
                              (router_const dst_id) ip_val e)
            <-> linked topo src_id dst_id = true
                /\ 0 <= ip_val <= 4294967295
                /\ first_match_scan chain ip_val = false).
  { unfold hybrid_session.
    destruct (fresh_session_assertions solver) as [_ ->].
    split.
    - intros (I & D & env & HF).
      apply Forall_app in HF. destruct HF as [HF HQ].
      apply Forall_app in HF. destruct HF as [HB Hbounds].
      rewrite Forall_forall in HB.
      pose proof (HB _ (load_adjacency _ _ _ _ _ _ src_id dst_id Hload
                          Hsrc Hdst)) as Hadj.
      unfold target_bounds in Hbounds.
      inversion Hbounds as [| ? ? Hlo Hbounds']; subst.
      inversion Hbounds' as [| ? ? Hhi _]; subst.
      unfold hybrid_query in HQ.
      inversion HQ as [| ? ? Hip HQ']; subst.
      inversion HQ' as [| ? ? Hprop _]; subst.
      cbn [holds fold_right int_denote target_ip_var] in *.
      destruct Hprop as (Hn & _ & _ & Hnot & _).
      rewrite Hip in *.
      split; [apply Hadj; exact Hn |]. split; [lia |].
      destruct (first_match_scan chain ip_val) eqn:Hscan; [| reflexivity].
      exfalso. apply Hnot.
      apply (build_acl_logic_holds _ _ _ _ He Hchain I D env).
      cbn [int_denote target_ip_var]. rewrite Hip. exact Hscan.
    - intros (Hlinked & Hrange & Hscan).
      exists (canonical topo conf (Dict.keys rt_map) (eq "rt_val"%string)),
             (fun _ _ => False), (fun _ => ip_val).
      apply Forall_app. split; [apply Forall_app; split |].
      + apply (canonical_base _ _ _ _ _ _ _ _ _ Hload Hnodes' Hrts').
        intros rt Hrt Hname. apply Hfree.
        apply in_map_iff. exists (rt_const rt).
        split; [symmetry; exact Hname | apply in_map; exact Hrt].
      + unfold target_bounds. repeat constructor; cbn; lia.
      + unfold hybrid_query. constructor; [reflexivity |].
        constructor; [| constructor].
        cbn [holds fold_right]. split.
        { cbn [canonical i_ibgp router_denote i_router router_const
                 router_name].
          rewrite (linked_symbol topo (z3_symbol src_id) (z3_symbol dst_id)
                     src_id dst_id (z3_symbol_idem _) (z3_symbol_idem _)).
          exact Hlinked. }
        split; [left; reflexivity |]. split; [left; reflexivity |].
        split; [| exact Logic.I].
        intros Hden.
        apply (build_acl_logic_holds _ _ _ _ He Hchain) in Hden.
        cbn [int_denote target_ip_var] in Hden. congruence. }
  split; [exact Hhybrid |].
  intros sg Hsg. rewrite <- Hhybrid.
  assert (Hget : Dict.get r_map dst_id = Some (router_const dst_id)).
  { rewrite Hrmap, make_r_map_get. apply str_in_In in Hdst.
    rewrite Hdst. reflexivity. }
  destruct (sessions_equisatisfiable topo conf solver r_map rt_map acl_db
              Hload sg Hsg dst_id (router_const src_id) (router_const dst_id)
              ip_val Hget) as (e2 & He2 & _ & Hiff).
  rewrite He in He2. injection He2 as <-. exact Hiff.
Qed.

(** Two linked routers of which one exports 65000:1 only and the other
    imports 65000:2 only. *)
Definition mismatch_topo : topology :=
  {| nodes := ["PE1"; "PE2"]; ibgp_pe_mesh := Some [["PE1"; "PE2"]] |}.

Definition mismatch_conf : config :=
  {| vpn_network_intents :=
       [{| pe_id := "PE1"; export_rt := Some ["65000:1"]; import_rt := None;
           import_route_filters := None |};
        {| pe_id := "PE2"; export_rt := None; import_rt := Some ["65000:2"];
           import_route_filters := None |}] |}.

Definition mismatch_base : Solver.t :=
  match load_base_constraints mismatch_topo mismatch_conf with
  | Ok (solver, _, _, _) => solver
  | Err _ => Solver.empty
  end.

Lemma query_ignores_route_targets_witness :
  satisfiable (Solver.assertions (hybrid_session mismatch_base)
               ++ hybrid_query (router_const "PE1") (router_const "PE2")
                    167772516 (BoolVal false)).
Proof.
  destruct (query_ignores_route_targets mismatch_topo mismatch_conf
              mismatch_base (make_r_map ["PE1"; "PE2"])
              (make_rt_z3_map ["65000:1"; "65000:2"])
              [("PE1", []); ("PE2", [])] "PE1" "PE2" 167772516
              (BoolVal false) [] eq_refl)
    as (Hiff & _).
  - repeat constructor; cbn; intuition discriminate.
  - repeat constructor; cbn; intuition discriminate.
  - cbn. intuition discriminate.
  - cbn. auto.
  - cbn. auto.
  - reflexivity.
  - reflexivity.
  - apply Hiff.
    split; [reflexivity |]. split; [lia | reflexivity].
Defined.

(** ** When the two modes run *)

Lemma inject_acls_succeeds (r_map : Dict.t router_term)
      (items : list (string * list rule)) :
  forall s,
    (exists s', inject_acls r_map items s = Ok s')
    <-> forall nid rules, In (nid, rules) items ->
          Dict.get r_map nid <> None
          /\ Forall (fun r => exists c, compile_rule r = Ok c) rules.
Proof.
  induction items as [| [nid rules] items IH]; intros s; cbn [inject_acls].
  - split; [intros _ ? ? [] | eauto].
  - split.
    + intros (s' & H). bind_split H as r_const Hr.
      bind_split H as acl_expr Hacl.
      unfold Dict.lookup in Hr.
      destruct (Dict.get r_map nid) as [r |] eqn:Hget; [| discriminate].
      intros nid' rules' [Heq | Hin].
      * injection Heq as <- <-. rewrite Hget. split; [discriminate |].
        apply (build_acl_logic_compiles sym_ip). eauto.
      * apply (proj1 (IH _) (ex_intro _ s' H)). exact Hin.
    + intros Hall.
      destruct (Hall nid rules (or_introl eq_refl)) as (Hget & Hrules).
      unfold Dict.lookup.
      destruct (Dict.get r_map nid) as [r |]; [| contradiction Hget; reflexivity].
      apply (build_acl_logic_compiles sym_ip) in Hrules.
      destruct Hrules as (e & He).
      cbn [bind]. rewrite He. cbn [bind].
      apply IH. intros nid' rules' Hin. apply Hall. right. exact Hin.
Qed.

Lemma load_acl_db_get (topo : topology) (conf : config) (solver : Solver.t)
      (r_map : Dict.t router_term) (rt_map : Dict.t rt_term)
      (acl_db : Dict.t (list rule)) (nid : string) :
  load_base_constraints topo conf = Ok (solver, r_map, rt_map, acl_db) ->
  Dict.get acl_db nid
  = match last_intent (vpn_network_intents conf) nid with
    | Some it => Some (chain_of it)
    | None => if str_in nid (nodes topo) then Some [] else None
    end.
Proof.
  intros Hload.
  destruct (load_base_constraints_ok _ _ _ _ _ _ Hload)
    as (tp & pcm & rts & acl0 & _ & -> & _ & Hintents & _ & -> & _ & _).
  destruct (fold_record_intent _ _ _ _ Hintents) as (Hpcm & Hacl & _ & _).
  rewrite default_acls_get, Hpcm, Hacl, make_r_map_keys.
  destruct (last_intent (vpn_network_intents conf) nid); reflexivity.
Qed.

(** X11.  On a loaded model whose chains the interpreter can recurse
    through, the session of Mode A can be set up exactly when every
    intent of the configuration is for a router of the topology and
    every rule of every chain of [acl_db] compiles: an intent for an
    unknown router or one bad rule on any router stops Mode A before
    its first query. *)
Theorem monolithic_session_succeeds (topo : topology) (conf : config)
        (solver : Solver.t) (r_map : Dict.t router_term)
        (rt_map : Dict.t rt_term) (acl_db : Dict.t (list rule)) :
  load_base_constraints topo conf = Ok (solver, r_map, rt_map, acl_db) ->
  (forall nid rules, Dict.get acl_db nid = Some rules ->
                     (List.length rules <= max_chain)%nat) ->
  (exists sg, monolithic_session solver r_map acl_db = Ok sg)
  <-> (forall it, In it (vpn_network_intents conf) ->
                  In (pe_id it) (nodes topo))
      /\ (forall nid rules r,
            Dict.get acl_db nid = Some rules -> In r rules -> compiles r).
Proof.
  intros Hload _.
  destruct (load_base_constraints_chains _ _ _ _ _ _ Hload)
    as (Hkeys & Hrmap & _).
  destruct (load_rt_values _ _ _ _ _ _ Hload) as [_ Hmap].
  unfold monolithic_session. rewrite inject_acls_succeeds.
  split.
  - intros Hall. split.
    + intros it Hin.
      destruct (last_intent (vpn_network_intents conf) (pe_id it))
        as [it' |] eqn:Hlast.
      * assert (Hget : Dict.get acl_db (pe_id it) = Some (chain_of it'))
          by (rewrite (load_acl_db_get _ _ _ _ _ _ _ Hload), Hlast;
              reflexivity).
        destruct (Hall _ _ (get_In _ _ _ _ Hget)) as [Hr _].
        rewrite Hmap, make_r_map_get in Hr.
        destruct (str_in (pe_id it) (nodes topo)) eqn:Hs;
          [apply str_in_In; exact Hs | contradiction Hr; reflexivity].
      * apply last_intent_None in Hlast. contradiction Hlast.
        apply in_map. exact Hin.
    + intros nid rules r Hget Hr.
      destruct (Hall nid rules (get_In _ _ _ _ Hget)) as [_ Hrules].
      rewrite Forall_forall in Hrules.
      apply compile_rule_compiles, Hrules, Hr.
  - intros [Hintents Hchains] nid rules Hin.
    pose proof (In_get _ _ _ _ Hkeys Hin) as Hget.
    split; [| apply Forall_forall; intros r Hr;
              apply compile_rule_compiles, (Hchains _ _ _ Hget Hr)].
    rewrite (load_acl_db_get _ _ _ _ _ _ _ Hload) in Hget.
    rewrite Hmap, make_r_map_get.
    destruct (last_intent (vpn_network_intents conf) nid) as [it |] eqn:Hlast.
    + apply last_intent_Some in Hlast. destruct Hlast as [Hin' <-].
      apply Hintents, str_in_In in Hin'. rewrite Hin'. discriminate.
    + destruct (str_in nid (nodes topo)); [discriminate | discriminate Hget].
Qed.

(** An intent for PE3, which the topology does not have. *)
Definition stray_conf : config :=
  {| vpn_network_intents :=
       [{| pe_id := "PE3"; export_rt := None; import_rt := None;
           import_route_filters := None |}] |}.

Definition stray_base : Solver.t :=
  match load_base_constraints ref_topo stray_conf with
  | Ok (solver, _, _, _) => solver
  | Err _ => Solver.empty
  end.

Lemma monolithic_session_succeeds_witness :
  (exists sg, monolithic_session ref_base ref_r_map ref_acl_db = Ok sg)
  /\ ~ (exists sg,
          monolithic_session stray_base (make_r_map ["PE1"; "PE2"; "P1"])
            [("PE3", []); ("PE1", []); ("PE2", []); ("P1", [])] = Ok sg).
Proof.
  assert (Hshort : forall (db : Dict.t (list rule)),
             Forall (fun item => (List.length (snd item) <= max_chain)%nat) db ->
             forall nid rules, Dict.get db nid = Some rules ->
                               (List.length rules <= max_chain)%nat).
  { intros db Hall nid rules Hget. apply get_In in Hget.
    rewrite Forall_forall in Hall. apply (Hall (nid, rules) Hget). }
  split.
  - apply (monolithic_session_succeeds ref_topo ref_conf ref_base ref_r_map
             (make_rt_z3_map ["65000:1"]) ref_acl_db eq_refl).
    + apply Hshort. unfold max_chain. repeat constructor; cbn; lia.
    + split.
      * intros it [<- | [<- | []]]; cbn; auto.
      * intros nid rules r Hget Hr. apply get_In in Hget.
        vm_compute in Hget.
        destruct Hget as [H | [H | [H | []]]]; injection H as <- <-;
          cbn [In] in Hr;
          repeat (destruct Hr as [<- | Hr];
                  [eexists; split; [vm_compute; reflexivity | reflexivity] |]);
          destruct Hr.
  - intros Hsg.
    apply (monolithic_session_succeeds ref_topo stray_conf stray_base _ [] _
             eq_refl) in Hsg.
    + destruct Hsg as [Hintents _].
      destruct (Hintents _ (or_introl eq_refl)) as [H | [H | [H | []]]];
        discriminate.
    + apply Hshort. unfold max_chain. repeat constructor; cbn; lia.
Defined.

(** X12.  Mode B only needs the chain of the router it asks about: on
    a loaded model with PE1 and PE2 in the topology and a chain of PE1
    the interpreter can recurse through, [run_hybrid_benchmark] returns
    its three verdicts exactly when every rule of the chain of PE1
    compiles, whatever the chains of the other routers and whatever
    the solver answers. *)
Theorem run_hybrid_benchmark_succeeds
        (z3_check : list bexpr -> check_result) (topo : topology)
        (conf : config) (solver : Solver.t) (r_map : Dict.t router_term)
        (rt_map : Dict.t rt_term) (acl_db : Dict.t (list rule)) :
  load_base_constraints topo conf = Ok (solver, r_map, rt_map, acl_db) ->
  In "PE1" (nodes topo) ->
  In "PE2" (nodes topo) ->
  (List.length (get_default (Dict.get acl_db "PE1") []) <= max_chain)%nat ->
  ((exists vs, run_hybrid_benchmark z3_check r_map acl_db solver = Ok vs)
   <-> forall r, In r (get_default (Dict.get acl_db "PE1") []) ->
                 compiles r)
  /\ forall vs, run_hybrid_benchmark z3_check r_map acl_db solver = Ok vs ->
                List.length vs = 3%nat.
Proof.
  intros Hload H1 H2 _.
  destruct (load_rt_values _ _ _ _ _ _ Hload) as [_ ->].
  assert (Hg1 : Dict.get (make_r_map (nodes topo)) "PE1"
                = Some (router_const "PE1"))
    by (rewrite make_r_map_get; apply str_in_In in H1; rewrite H1;
        reflexivity).
  assert (Hg2 : Dict.get (make_r_map (nodes topo)) "PE2"
                = Some (router_const "PE2"))
    by (rewrite make_r_map_get; apply str_in_In in H2; rewrite H2;
        reflexivity).
  unfold run_hybrid_benchmark, Dict.mem. rewrite Hg1, Hg2. cbn [andb].
  rewrite <- Forall_forall, <- Forall_compiles.
  rewrite <- (build_acl_logic_compiles target_ip_var).
  destruct (build_acl_logic target_ip_var
              (get_default (Dict.get acl_db "PE1") [])) as [e | err] eqn:He.
  - cbn [run_queries].
    rewrite (check_hybrid_run z3_check _ acl_db "PE2" "PE1" "192.168.1.1" _
               _ _ 3232235777 e Hg2 Hg1 eq_refl He).
    rewrite (check_hybrid_run z3_check _ acl_db "PE2" "PE1" "10.0.10.100" _
               _ _ 167774820 e Hg2 Hg1 eq_refl He).
    rewrite (check_hybrid_run z3_check _ acl_db "PE2" "PE1" "10.0.99.1" _
               _ _ 167797505 e Hg2 Hg1 eq_refl He).
    cbn [fst]. split.
    + split; eauto.
    + intros vs H. injection H as <-. reflexivity.
  - assert (Hrun : fst (run_queries
                          (check_hybrid z3_check (make_r_map (nodes topo))
                             acl_db)
                          [("PE2", "PE1", "192.168.1.1");
                           ("PE2", "PE1", "10.0.10.100");
                           ("PE2", "PE1", "10.0.99.1")]
                          (hybrid_session solver)) = Err err).
    { cbn [run_queries]. unfold check_hybrid at 1. unfold Dict.lookup.
      rewrite Hg2, Hg1.
      change (ip_str_to_int "192.168.1.1") with (Ok (A := Z) 3232235777).
      cbv beta iota. rewrite He. reflexivity. }
    rewrite Hrun. split.
    + split; intros (x & H); discriminate.
    + intros vs H. discriminate.
Qed.

Lemma run_hybrid_benchmark_succeeds_witness :
  exists vs,
    run_hybrid_benchmark undecided ref_r_map ref_acl_db ref_base = Ok vs.
Proof.
  apply (run_hybrid_benchmark_succeeds undecided ref_topo ref_conf ref_base
           ref_r_map (make_rt_z3_map ["65000:1"]) ref_acl_db eq_refl).
  - cbn. auto.
  - cbn. auto.
  - unfold max_chain. cbn. lia.
  - intros r Hr. vm_compute in Hr.
    repeat (destruct Hr as [<- | Hr];
            [eexists; split; [vm_compute; reflexivity | reflexivity] |]).
    destruct Hr.
Defined.

(** X13.  When the chain of the destination does not compile,
    [check_hybrid] raises the compiler's exception with its scope still
    open and the equation of the target address asserted in it.  A
    query that follows on that solver for another address is checked
    together with that equation: a sound solver cannot answer sat. *)
Theorem check_hybrid_failure_residue
        (z3_check : list bexpr -> check_result) (r_map : Dict.t router_term)
        (acl_db : Dict.t (list rule)) (src_id dst_id ip_str : string)
        (s : Solver.t) (src dst : router_term) (ip_val : Z) (err : exn) :
  Dict.get r_map src_id = Some src ->
  Dict.get r_map dst_id = Some dst ->
  ip_str_to_int ip_str = Ok ip_val ->
  build_acl_logic target_ip_var (get_default (Dict.get acl_db dst_id) [])
  = Err err ->
  let s1 := Solver.add (IntEq target_ip_var (IntVal ip_val)) (Solver.push s) in
  check_hybrid z3_check r_map acl_db src_id dst_id ip_str s = (Err err, s1)
  /\ Solver.scopes s1 = [IntEq target_ip_var (IntVal ip_val)] :: Solver.scopes s
  /\ forall src_id' dst_id' ip_str' ip_val' v s2,
       sound z3_check ->
       ip_str_to_int ip_str' = Ok ip_val' ->
       ip_val' <> ip_val ->
       check_hybrid z3_check r_map acl_db src_id' dst_id' ip_str' s1
       = (Ok v, s2) ->
       v <> sat.
Proof.
  intros Hsrc Hdst Hip Hbuild. cbv zeta.
  split; [| split].
  - unfold check_hybrid, Dict.lookup. rewrite Hsrc, Hdst, Hip, Hbuild.
    reflexivity.
  - destruct s as [base scs]. reflexivity.
  - intros src_id' dst_id' ip_str' ip_val' v s2 Hsound Hip' Hdiff Hrun Hsat.
    apply check_hybrid_ok in Hrun.
    destruct Hrun as (_ & src' & dst' & ip'' & e' & _ & _ & Hip'' & _ & Hv).
    rewrite Hip' in Hip''. injection Hip'' as <-.
    rewrite Hsat in Hv. symmetry in Hv.
    apply (proj1 (Hsound _)) in Hv.
    destruct Hv as (I & D & env & HF).
    rewrite assertions_add_push in HF.
    apply Forall_app in HF. destruct HF as [HF HQ].
    apply Forall_app in HF. destruct HF as [_ Hold].
    inversion Hold as [| ? ? Hold_ip _]; subst.
    unfold hybrid_query in HQ. inversion HQ as [| ? ? Hnew_ip _]; subst.
    cbn [holds int_denote target_ip_var] in Hold_ip, Hnew_ip.
    congruence.
Qed.

(** A chain with a mask length of 40 on PE1. *)
Definition broken_acl_db : Dict.t (list rule) :=
  [("PE1", [{| index := Some 1; prefix := Some "10.0.0.0";
               mask := Some (JInt 40); action := Some "deny" |}]);
   ("PE2", [])].

Lemma check_hybrid_failure_residue_witness :
  fst (check_hybrid undecided ref_r_map broken_acl_db "PE2" "PE1" "10.0.1.100"
         (hybrid_session ref_base)) = Err ValueError.
Proof.
  destruct (check_hybrid_failure_residue undecided ref_r_map broken_acl_db
              "PE2" "PE1" "10.0.1.100" (hybrid_session ref_base)
              (RouterConst "PE2") (RouterConst "PE1") 167772516 ValueError
              eq_refl eq_refl eq_refl eq_refl) as (Hrun & _ & _).
  rewrite Hrun. reflexivity.
Defined.

(** ** The size of the sessions *)

Lemma neighbor_constraints_length (routers : list router_term)
      (tp : list (router_term * router_term)) :
  List.length (neighbor_constraints routers tp)
  = (List.length routers * List.length routers)%nat.
Proof.
  unfold neighbor_constraints.
  assert (Hgen : forall outer inner : list router_term,
             List.length
               (flat_map (fun r1 =>
                  map (fun r2 =>
                         BoolEq (Ibgp_Neighbor r1 r2)
                                (BoolVal (pair_in (r1, r2) tp))) inner) outer)
             = (List.length outer * List.length inner)%nat).
  { intros outer inner.
    induction outer as [| r outer IH]; cbn [flat_map List.length].
    - reflexivity.
    - rewrite length_app, length_map, IH. reflexivity. }
  apply Hgen.
Qed.

Lemma all_rt_constraints_length (pcm : Dict.t intent)
      (rt_map : Dict.t rt_term) (r_map : Dict.t router_term) :
  List.length (all_rt_constraints pcm rt_map r_map)
  = (2 * (List.length r_map * List.length rt_map))%nat.
Proof.
  assert (Hone : forall nid r,
             List.length (rt_constraints pcm rt_map nid r)
             = (2 * List.length rt_map)%nat).
  { intros nid r. unfold rt_constraints.
    destruct (Dict.get pcm nid);
      induction rt_map as [| [rt t] l IH]; cbn [flat_map List.length app];
      try reflexivity; rewrite IH; lia. }
  unfold all_rt_constraints.
  induction r_map as [| [nid r] items IH]; cbn [flat_map List.length fst snd].
  - reflexivity.
  - rewrite length_app, Hone, IH. lia.
Qed.

Lemma injected_length (r_map : Dict.t router_term)
      (items : list (string * list rule)) (defs : list bexpr) :
  injected r_map items defs -> List.length defs = List.length items.
Proof.
  induction 1; cbn [List.length]; congruence.
Qed.

(** X14.  The number of assertions, which Mode A prints before its
    queries: the base model has one assertion for the routers, one per
    ordered pair of listed nodes, one for the route targets when there
    is any, and two per router and route target; each mode adds the
    two bounds of the address, and Mode A one quantified definition per
    entry of [acl_db]. *)
Theorem session_sizes (topo : topology) (conf : config) (solver : Solver.t)
        (r_map : Dict.t router_term) (rt_map : Dict.t rt_term)
        (acl_db : Dict.t (list rule)) (sg : Solver.t) :
  load_base_constraints topo conf = Ok (solver, r_map, rt_map, acl_db) ->
  monolithic_session solver r_map acl_db = Ok sg ->
  let n := List.length (nodes topo) in
  let base := List.length (Solver.assertions solver) in
  base = (1 + n * n + (match rt_map with [] => 0 | _ => 1 end)
          + 2 * (List.length r_map * List.length rt_map))%nat
  /\ List.length (Solver.assertions (hybrid_session solver)) = (base + 2)%nat
  /\ List.length (Solver.assertions sg)
     = (base + 2 + List.length acl_db)%nat.
Proof.
  intros Hload Hmono. cbv zeta.
  destruct (fresh_session_assertions solver) as [Hfs Hfa].
  unfold monolithic_session in Hmono.
  destruct (inject_acls_injected _ _ _ _ Hmono Hfs)
    as (_ & defs & Hdefs & Hsg).
  apply injected_length in Hdefs.
  split; [| split].
  - destruct (load_base_constraints_ok _ _ _ _ _ _ Hload)
      as (tp & pcm & rts & acl0 & _ & _ & _ & _ & _ & _ & _ & HA).
    rewrite HA. cbn [List.length].
    rewrite !length_app, neighbor_constraints_length,
      all_rt_constraints_length, length_map.
    destruct rt_map; cbn [List.length]; lia.
  - unfold hybrid_session. rewrite Hfa, length_app. reflexivity.
  - rewrite Hsg, Hfa, !length_app, Hdefs. reflexivity.
Qed.

Lemma session_sizes_witness :
  List.length (Solver.assertions ref_base) = 17%nat
  /\ List.length (Solver.assertions (hybrid_session ref_base)) = 19%nat
  /\ List.length (Solver.assertions ref_mono_session) = 22%nat.
Proof.
  apply (session_sizes ref_topo ref_conf ref_base ref_r_map
           (make_rt_z3_map ["65000:1"]) ref_acl_db ref_mono_session
           eq_refl eq_refl).
Defined.

(** ** Exceptions of the two modes *)



(** ** What denies *)

Lemma first_match_scan_true (chain : list acl_rule) (a : Z) :
  first_match_scan chain a = true ->
  exists c, In c chain /\ matches a c = true /\ rule_deny c = true.
Proof.
  induction chain as [| c chain IH]; cbn [first_match_scan];
    [discriminate |].
  destruct (matches a c) eqn:Hm.
  - intros Hd. exists c. cbn [In]. auto.
  - intros H. destruct (IH H) as (c' & Hin & Hm' & Hd).
    exists c'. cbn [In]. auto.
Qed.

Lemma resolve_chain_In (rules : list rule) :
  forall chain c, resolve_chain rules = Ok chain -> In c chain ->
                  exists r, In r rules /\ resolve_rule r = Ok c.
Proof.
  induction rules as [| r rules IH]; cbn [resolve_chain]; intros chain c H Hin.
  - injection H as <-. destruct Hin.
  - bind_split H as c0 Hc0. bind_split H as cs Hcs. injection H as <-.
    destruct Hin as [<- | Hin].
    + exists r. cbn [In]. auto.
    + destruct (IH _ _ Hcs Hin) as (r' & Hr' & Hres).
      exists r'. cbn [In]. auto.
Qed.

(** X16.  An address is denied only by a rule that says so: when the
    compiled chain evaluates to denied at an address, the chain has a
    rule whose action is the string deny and whose interval holds the
    address.  A chain without such a rule denies nothing. *)
Theorem denied_by_deny_rule (x : string) (rules : list rule) (e : bexpr)
        (env : int_env) (a : Z) :
  build_acl_logic (Int x) rules = Ok e ->
  eval (bind_var env x a) e = Some true ->
  exists r c,
    In r rules
    /\ resolve_rule r = Ok c
    /\ action r = Some "deny"
    /\ rule_start c <= a <= rule_end c.
Proof.
  intros He Heval.
  destruct (build_acl_logic_resolved _ _ _ He) as (chain & Hchain & Hscan).
  rewrite Hscan in Heval. cbn [int_denote] in Heval.
  rewrite bind_var_same in Heval. injection Heval as Heval.
  destruct (first_match_scan_true _ _ Heval) as (c & Hin & Hm & Hd).
  destruct (resolve_chain_In _ _ _ Hchain Hin) as (r & Hr & Hres).
  exists r, c. split; [exact Hr |]. split; [exact Hres |].
  split.
  - destruct (resolve_rule_steps _ _ Hres) as (_ & _ & _ & _ & Hdeny).
    rewrite Hd in Hdeny. unfold action_deny in Hdeny.
    destruct (action r) as [s |]; cbn [get_default] in Hdeny.
    + symmetry in Hdeny. apply String.eqb_eq in Hdeny. subst s. reflexivity.
    + discriminate.
  - unfold matches in Hm. apply andb_prop in Hm. destruct Hm as [Hlo Hhi].
    apply Z.leb_le in Hlo, Hhi. lia.
Qed.

Lemma denied_by_deny_rule_witness :
  exists r c,
    In r pe1_filters /\ resolve_rule r = Ok c /\ action r = Some "deny"
    /\ rule_start c <= 167772516 <= rule_end c.
Proof.
  destruct (build_acl_logic (Int "sym_ip") pe1_filters) as [e |] eqn:He;
    [| vm_compute in He; discriminate].
  apply (denied_by_deny_rule "sym_ip" pe1_filters e (fun _ => 0) 167772516 He).
  vm_compute in He. injection He as <-. reflexivity.
Defined.
